(** * Paint calculators: coverage, multi-coat systems, dew point, ROI, WFT

    A shallow embedding of the calculators of @moorhouse/paint-calculators
    and of the properties its design document states about them.

    Every quantity of the library is a JavaScript [number].  The calculators
    are written once, over an interface [JsNum] of the operations they use,
    and read at two instances:

    - [binary64]: IEEE 754 double precision, the arithmetic the code runs on
      (Rocq's primitive floats, which compute);
    - [exact]: the rationals, the arithmetic in which the formulas of the
      design document are meant ("within rounding").

    What holds for every instance holds for the code as it runs; statements
    made at [exact] say so. *)

From Stdlib Require Import ZArith QArith Qround Qabs Qpower Floats Uint63.

From Stdlib Require Import String Ascii DecimalString List Bool Lia Lqa.

Import ListNotations.

Set Warnings "-inexact-float".

(** ** Numbers *)

Declare Scope js_scope.

Delimit Scope js_scope with js.

Class JsNum (T : Type) : Type := {
  lit : Q -> T;                 (* a numeric literal of the source text *)
  add : T -> T -> T;
  sub : T -> T -> T;
  mul : T -> T -> T;
  div : T -> T -> T;
  neg : T -> T;                 (* unary minus *)
  leb : T -> T -> bool;         (* x <= y *)
  ltb : T -> T -> bool;         (* x < y *)
  eqb : T -> T -> bool;         (* x === y *)
  Math_ceil : T -> T;
  Math_round : T -> T
}.

Arguments lit {T _} q%_Q.

Notation "x + y" := (add x y) : js_scope.

Notation "x - y" := (sub x y) : js_scope.

Notation "x * y" := (mul x y) : js_scope.

Notation "x / y" := (div x y) : js_scope.

Notation "- x" := (neg x) : js_scope.

Notation "x <= y" := (leb x y) : js_scope.

Notation "x < y" := (ltb x y) : js_scope.

Notation "x >= y" := (leb y x) : js_scope.

Notation "x > y" := (ltb y x) : js_scope.

Notation "x === y" := (eqb x y) (at level 70, no associativity) : js_scope.

(** ToBoolean on a number: false for [+0], [-0] and [NaN]. *)
Definition truthy {T} `{JsNum T} (x : T) : bool :=
  (negb (x === lit 0) && (x === x))%js.

(** [x || y] on numbers. *)
Definition or_else {T} `{JsNum T} (x y : T) : T :=
  if truthy x then x else y.

(** [o.f || 0] for an optional numeric property [f]. *)
Definition or_zero {T} `{JsNum T} (o : option T) : T :=
  match o with
  | Some v => or_else v (lit 0)
  | None => lit 0
  end.

(** A destructuring default [{ f = d }]: taken when the property is
    [undefined]. *)
Definition default {A} (d : A) (o : option A) : A :=
  match o with Some a => a | None => d end.

(** *** IEEE 754 binary64 *)

Module Binary64.

(** An integer as a double: exact below [2^53]. *)
Definition of_Z (z : Z) : float :=
  match z with
  | Z0 => PrimFloat.zero
  | Zpos _ => PrimFloat.of_uint63 (Uint63.of_Z z)
  | Zneg p => PrimFloat.opp (PrimFloat.of_uint63 (Uint63.of_Z (Zpos p)))
  end.

(** The double nearest to a decimal literal [n/d]: both are exact doubles
    for the literals of the source, and IEEE division rounds to nearest. *)
Definition of_literal (q : Q) : float :=
  PrimFloat.div (of_Z (Qnum q)) (of_Z (Zpos (Qden q))).

(** [Math.ceil]: a finite [x] is [(-1)^s * m * 2^e]; with [e >= 0] it is an
    integer already.  Results in (-1, 0) are [-0]. *)
Definition ceil (x : float) : float :=
  match Prim2SF x with
  | S754_finite s m e =>
      if (0 <=? e)%Z then x
      else
        let d := (2 ^ (- e))%Z in
        let q := (Zpos m / d)%Z in
        let r := (Zpos m mod d)%Z in
        if s then PrimFloat.opp (of_Z q)
        else of_Z (if (r =? 0)%Z then q else q + 1)%Z
  | _ => x
  end.

(** [Math.round]: the nearest integer, ties towards [+Infinity];
    results in [-0.5, 0) are [-0]. *)
Definition round (x : float) : float :=
  match Prim2SF x with
  | S754_finite s m e =>
      if (0 <=? e)%Z then x
      else
        let d := (2 ^ (- e))%Z in
        let q := (Zpos m / d)%Z in
        let r := (Zpos m mod d)%Z in
        if s then PrimFloat.opp (of_Z (if (d <? 2 * r)%Z then q + 1 else q)%Z)
        else of_Z (if (d <=? 2 * r)%Z then q + 1 else q)%Z
  | _ => x
  end.

End Binary64.

#[export] Instance binary64 : JsNum float := {
  lit := Binary64.of_literal;
  add := PrimFloat.add;
  sub := PrimFloat.sub;
  mul := PrimFloat.mul;
  div := PrimFloat.div;
  neg := PrimFloat.opp;
  leb := PrimFloat.leb;
  ltb := PrimFloat.ltb;
  eqb := PrimFloat.eqb;
  Math_ceil := Binary64.ceil;
  Math_round := Binary64.round
}.

(** *** Exact arithmetic *)

#[export] Instance exact : JsNum Q := {
  lit := fun q => q;
  add := Qplus;
  sub := Qminus;
  mul := Qmult;
  div := Qdiv;
  neg := Qopp;
  leb := Qle_bool;
  ltb := fun x y => negb (Qle_bool y x);
  eqb := Qeq_bool;
  Math_ceil := fun x => inject_Z (Qceiling x);
  Math_round := fun x => inject_Z (Qfloor (x + (1 # 2)))
}.

(** ** Errors

    The library signals an invalid input by [throw new Error(message)]. *)

Inductive JsError : Type :=
| Error (message : string).

Inductive result (A : Type) : Type :=
| Ok (a : A)
| Throw (e : JsError).

Arguments Ok {A} a.

Arguments Throw {A} e.

Definition bind {A B} (r : result A) (k : A -> result B) : result B :=
  match r with
  | Ok a => k a
  | Throw e => Throw e
  end.

Notation "x <- r ;; k" := (bind r (fun x => k))
  (at level 61, r at next level, right associativity).

(** ** Constants *)

Module CONSTANTS.

Section Constants.

Context {T : Type} `{JsNum T}.

Definition COVERAGE_CONSTANT : T := lit 1604.

Definition DEW_POINT_MARGIN : T := lit 5.

End Constants.

End CONSTANTS.

Module MAGNUS.

Section Constants.

Context {T : Type} `{JsNum T}.

Definition A : T := lit 17.27.

Definition B : T := lit 237.7.

End Constants.

End MAGNUS.

(** ** Coverage *)

Module CoverageInput.

Record t (T : Type) : Type := mk {
  surfaceArea : T;
  coats : option T;
  volumeSolids : T;
  targetDFT : T;
  transferEfficiency : option T;
  pricePerGallon : option T
}.

Arguments mk {T}.

Arguments surfaceArea {T}.

Arguments coats {T}.

Arguments volumeSolids {T}.

Arguments targetDFT {T}.

Arguments transferEfficiency {T}.

Arguments pricePerGallon {T}.

End CoverageInput.

Module CoverageResult.

Record t (T : Type) : Type := mk {
  theoreticalCoverage : T;
  practicalCoverage : T;
  gallonsPerCoat : T;
  totalGallons : T;
  totalWithWaste : T;
  wasteFactorGallons : T;
  fiveGallonBuckets : T;
  oneGallonCans : T;
  estimatedCost : T;
  coveragePerGallon : T
}.

Arguments mk {T}.

Arguments theoreticalCoverage {T}.

Arguments practicalCoverage {T}.

Arguments gallonsPerCoat {T}.

Arguments totalGallons {T}.

Arguments totalWithWaste {T}.

Arguments wasteFactorGallons {T}.

Arguments fiveGallonBuckets {T}.

Arguments oneGallonCans {T}.

Arguments estimatedCost {T}.

Arguments coveragePerGallon {T}.

End CoverageResult.

Section Coverage.

Context {T : Type} `{JsNum T}.

Open Scope js_scope.

Open Scope string_scope.

Definition calculatePaintCoverage (input : CoverageInput.t T)
  : result (CoverageResult.t T) :=
  let surfaceArea := CoverageInput.surfaceArea input in
  let coats := default (lit 1) (CoverageInput.coats input) in
  let volumeSolids := CoverageInput.volumeSolids input in
  let targetDFT := CoverageInput.targetDFT input in
  let transferEfficiency :=
    default (lit 65) (CoverageInput.transferEfficiency input) in
  let pricePerGallon := default (lit 0) (CoverageInput.pricePerGallon input) in
  if surfaceArea <= lit 0 then
    Throw (Error "Surface area must be greater than 0")
  else if (volumeSolids <= lit 0) || (volumeSolids > lit 100) then
    Throw (Error "Volume solids must be between 0 and 100")
  else if targetDFT <= lit 0 then
    Throw (Error "Target DFT must be greater than 0")
  else
    let theoreticalCoverage :=
      (CONSTANTS.COVERAGE_CONSTANT * volumeSolids / lit 100) / targetDFT in
    let practicalCoverage :=
      theoreticalCoverage * (transferEfficiency / lit 100) in
    let gallonsPerCoat := surfaceArea / practicalCoverage in
    let totalGallons := gallonsPerCoat * coats in
    let wasteFactorGallons := totalGallons * lit 0.1 in
    let totalWithWaste := totalGallons + wasteFactorGallons in
    let fiveGallonBuckets := Math_ceil (totalWithWaste / lit 5) in
    let oneGallonCans := Math_ceil totalWithWaste in
    let estimatedCost :=
      if pricePerGallon > lit 0 then totalWithWaste * pricePerGallon
      else lit 0 in
    Ok {|
      CoverageResult.theoreticalCoverage :=
        Math_round (theoreticalCoverage * lit 10) / lit 10;
      CoverageResult.practicalCoverage :=
        Math_round (practicalCoverage * lit 10) / lit 10;
      CoverageResult.gallonsPerCoat :=
        Math_ceil (gallonsPerCoat * lit 10) / lit 10;
      CoverageResult.totalGallons :=
        Math_ceil (totalGallons * lit 10) / lit 10;
      CoverageResult.totalWithWaste :=
        Math_ceil (totalWithWaste * lit 10) / lit 10;
      CoverageResult.wasteFactorGallons :=
        Math_ceil (wasteFactorGallons * lit 10) / lit 10;
      CoverageResult.fiveGallonBuckets := fiveGallonBuckets;
      CoverageResult.oneGallonCans := oneGallonCans;
      CoverageResult.estimatedCost :=
        Math_round (estimatedCost * lit 100) / lit 100;
      CoverageResult.coveragePerGallon := Math_round practicalCoverage
    |}.

End Coverage.

(** ** Multi-coat systems *)

Module LayerType.

Inductive t : Type := primer | intermediate | topcoat.

End LayerType.

Module CoatingLayer.

Record t (T : Type) : Type := mk {
  volumeSolids : T;
  dft : T;
  coats : T;
  pricePerGallon : option T;
  productName : option string
}.

Arguments mk {T}.

Arguments volumeSolids {T}.

Arguments dft {T}.

Arguments coats {T}.

Arguments pricePerGallon {T}.

Arguments productName {T}.

End CoatingLayer.

(** An object with the optional properties [primer], [intermediate] and
    [topcoat]: the input's [system] and the result's [layers]. *)
Module Layers.

Record t (A : Type) : Type := mk {
  primer : option A;
  intermediate : option A;
  topcoat : option A
}.

Arguments mk {A}.

Arguments primer {A}.

Arguments intermediate {A}.

Arguments topcoat {A}.

Definition empty {A} : t A := mk None None None.

(** [o[layerType]] *)
Definition get {A} (o : t A) (k : LayerType.t) : option A :=
  match k with
  | LayerType.primer => primer o
  | LayerType.intermediate => intermediate o
  | LayerType.topcoat => topcoat o
  end.

(** [o[layerType] = a] *)
Definition set {A} (o : t A) (k : LayerType.t) (a : A) : t A :=
  match k with
  | LayerType.primer => mk (Some a) (intermediate o) (topcoat o)
  | LayerType.intermediate => mk (primer o) (Some a) (topcoat o)
  | LayerType.topcoat => mk (primer o) (intermediate o) (Some a)
  end.

End Layers.

Module MultiCoatInput.

Record t (T : Type) : Type := mk {
  surfaceArea : T;
  system : Layers.t (CoatingLayer.t T);
  transferEfficiency : option T
}.

Arguments mk {T}.

Arguments surfaceArea {T}.

Arguments system {T}.

Arguments transferEfficiency {T}.

End MultiCoatInput.

(** [{ ...coverage, totalDFT, cost }] *)
Module LayerResult.

Record t (T : Type) : Type := mk {
  coverage : CoverageResult.t T;
  totalDFT : T;
  cost : T
}.

Arguments mk {T}.

Arguments coverage {T}.

Arguments totalDFT {T}.

Arguments cost {T}.

End LayerResult.

Module MultiCoatSummary.

Record t (T : Type) : Type := mk {
  totalDFT : T;
  totalCost : T;
  costPerSquareFoot : T;
  totalGallons : T;
  systemDescription : string
}.

Arguments mk {T}.

Arguments totalDFT {T}.

Arguments totalCost {T}.

Arguments costPerSquareFoot {T}.

Arguments totalGallons {T}.

Arguments systemDescription {T}.

End MultiCoatSummary.

Module MultiCoatResult.

Record t (T : Type) : Type := mk {
  layers : Layers.t (LayerResult.t T);
  summary : MultiCoatSummary.t T
}.

Arguments mk {T}.

Arguments layers {T}.

Arguments summary {T}.

End MultiCoatResult.

(** The variables the [forEach] callback of [calculateMultiCoatSystem]
    closes over and updates. *)
Module Totals.

Record t (T : Type) : Type := mk {
  layers : Layers.t (LayerResult.t T);
  totalCost : T;
  totalDFT : T;
  totalGallons : T
}.

Arguments mk {T}.

Arguments layers {T}.

Arguments totalCost {T}.

Arguments totalDFT {T}.

Arguments totalGallons {T}.

End Totals.

(** [Array.prototype.push] *)
Definition push {A : Type} (l : list A) (a : A) : list A := l ++ [a].

(** [Array.prototype.join] *)
Fixpoint join (sep : string) (l : list string) : string :=
  match l with
  | [] => EmptyString
  | [s] => s
  | s :: rest => (s ++ sep ++ join sep rest)%string
  end.

(** [Array.prototype.forEach] with a callback that updates captured state
    and may throw: the first exception ends the loop. *)
Fixpoint forEach {A S : Type} (f : S -> A -> result S) (l : list A) (s : S)
  : result S :=
  match l with
  | [] => Ok s
  | a :: rest => s' <- f s a ;; forEach f rest s'
  end.

Section MultiCoat.

Context {T : Type} `{JsNum T}.

(** [Number::toString], as used by template literals. *)
Variable Number_toString : T -> string.

Open Scope js_scope.

Open Scope string_scope.

Definition generateSystemDescription (layers : Layers.t (LayerResult.t T))
  : string :=
  let descriptions := [] in
  let descriptions :=
    match Layers.primer layers with
    | Some l =>
        push descriptions
          ("Primer: " ++ Number_toString (LayerResult.totalDFT l)
             ++ " mils DFT")
    | None => descriptions
    end in
  let descriptions :=
    match Layers.intermediate layers with
    | Some l =>
        push descriptions
          ("Intermediate: " ++ Number_toString (LayerResult.totalDFT l)
             ++ " mils DFT")
    | None => descriptions
    end in
  let descriptions :=
    match Layers.topcoat layers with
    | Some l =>
        push descriptions
          ("Topcoat: " ++ Number_toString (LayerResult.totalDFT l)
             ++ " mils DFT")
    | None => descriptions
    end in
  join " | " descriptions.

(** The body of the [forEach] callback. *)
Definition processLayer (surfaceArea transferEfficiency : T)
    (system : Layers.t (CoatingLayer.t T))
    (acc : Totals.t T) (layerType : LayerType.t) : result (Totals.t T) :=
  match Layers.get system layerType with
  | Some layer =>
      if CoatingLayer.coats layer > lit 0 then
        coverage <- calculatePaintCoverage {|
          CoverageInput.surfaceArea := surfaceArea;
          CoverageInput.coats := Some (CoatingLayer.coats layer);
          CoverageInput.volumeSolids := CoatingLayer.volumeSolids layer;
          CoverageInput.targetDFT := CoatingLayer.dft layer;
          CoverageInput.transferEfficiency := Some transferEfficiency;
          CoverageInput.pricePerGallon :=
            Some (or_zero (CoatingLayer.pricePerGallon layer))
        |} ;;
        let layerDFT := CoatingLayer.dft layer * CoatingLayer.coats layer in
        let layerCost :=
          CoverageResult.totalGallons coverage
          * or_zero (CoatingLayer.pricePerGallon layer) in
        Ok {|
          Totals.layers :=
            Layers.set (Totals.layers acc) layerType {|
              LayerResult.coverage := coverage;
              LayerResult.totalDFT := layerDFT;
              LayerResult.cost := Math_round (layerCost * lit 100) / lit 100
            |};
          Totals.totalCost := Totals.totalCost acc + layerCost;
          Totals.totalDFT := Totals.totalDFT acc + layerDFT;
          Totals.totalGallons :=
            Totals.totalGallons acc + CoverageResult.totalGallons coverage
        |}
      else Ok acc
  | None => Ok acc
  end.

Definition calculateMultiCoatSystem (input : MultiCoatInput.t T)
  : result (MultiCoatResult.t T) :=
  let surfaceArea := MultiCoatInput.surfaceArea input in
  let system := MultiCoatInput.system input in
  let transferEfficiency :=
    default (lit 65) (MultiCoatInput.transferEfficiency input) in
  acc <- forEach (processLayer surfaceArea transferEfficiency system)
           [LayerType.primer; LayerType.intermediate; LayerType.topcoat]
           {| Totals.layers := Layers.empty;
              Totals.totalCost := lit 0;
              Totals.totalDFT := lit 0;
              Totals.totalGallons := lit 0 |} ;;
  Ok {|
    MultiCoatResult.layers := Totals.layers acc;
    MultiCoatResult.summary := {|
      MultiCoatSummary.totalDFT :=
        Math_round (Totals.totalDFT acc * lit 10) / lit 10;
      MultiCoatSummary.totalCost :=
        Math_round (Totals.totalCost acc * lit 100) / lit 100;
      MultiCoatSummary.costPerSquareFoot :=
        Math_round ((Totals.totalCost acc / surfaceArea) * lit 100) / lit 100;
      MultiCoatSummary.totalGallons :=
        Math_round (Totals.totalGallons acc * lit 10) / lit 10;
      MultiCoatSummary.systemDescription :=
        generateSystemDescription (Totals.layers acc)
    |}
  |}.

End MultiCoat.

(** ** Dew point *)

Module DewPointInput.

Record t (T : Type) : Type := mk {
  temperature : T;
  humidity : T
}.

Arguments mk {T}.

Arguments temperature {T}.

Arguments humidity {T}.

End DewPointInput.

Module DewPointResult.

Record t (T : Type) : Type := mk {
  dewPoint : T;
  minimumSurfaceTemp : T;
  currentMargin : T;
  isSafe : bool;
  recommendation : string
}.

Arguments mk {T}.

Arguments dewPoint {T}.

Arguments minimumSurfaceTemp {T}.

Arguments currentMargin {T}.

Arguments isSafe {T}.

Arguments recommendation {T}.

End DewPointResult.

Section Environmental.

Context {T : Type} `{JsNum T}.

(** [Math.log], whose precision ECMAScript leaves to the host. *)
Variable Math_log : T -> T.

Variable Number_toString : T -> string.

Open Scope js_scope.

Open Scope string_scope.

Definition calculateDewPoint (input : DewPointInput.t T)
  : result (DewPointResult.t T) :=
  let temperature := DewPointInput.temperature input in
  let humidity := DewPointInput.humidity input in
  let alpha :=
    ((MAGNUS.A * temperature) / (MAGNUS.B + temperature))
    + Math_log (humidity / lit 100) in
  let dewPoint := (MAGNUS.B * alpha) / (MAGNUS.A - alpha) in
  let surfaceTemp := temperature - lit 5 in
  let currentMargin := surfaceTemp - dewPoint in
  let isSafe := currentMargin >= CONSTANTS.DEW_POINT_MARGIN in
  Ok {|
    DewPointResult.dewPoint := Math_round (dewPoint * lit 10) / lit 10;
    DewPointResult.minimumSurfaceTemp :=
      Math_round ((dewPoint + CONSTANTS.DEW_POINT_MARGIN) * lit 10) / lit 10;
    DewPointResult.currentMargin :=
      Math_round (currentMargin * lit 10) / lit 10;
    DewPointResult.isSafe := isSafe;
    DewPointResult.recommendation :=
      if isSafe then "✅ Conditions are acceptable for painting"
      else "⚠️ Warning: Risk of condensation. Wait until surface temp is above "
           ++ Number_toString (Math_round (dewPoint + lit 5)) ++ "°F"
  |}.

End Environmental.

(** ** Return on investment *)

Module CurrentSystem.

Record t (T : Type) : Type := mk {
  maintenanceCost : T;
  lifespan : T;
  heatTransfer : option T
}.

Arguments mk {T}.

Arguments maintenanceCost {T}.

Arguments lifespan {T}.

Arguments heatTransfer {T}.

End CurrentSystem.

Module ProposedSystem.

Record t (T : Type) : Type := mk {
  initialCost : T;
  maintenanceCost : T;
  lifespan : T;
  reflectivity : option T
}.

Arguments mk {T}.

Arguments initialCost {T}.

Arguments maintenanceCost {T}.

Arguments lifespan {T}.

Arguments reflectivity {T}.

End ProposedSystem.

Module ROIInput.

Record t (T : Type) : Type := mk {
  currentSystem : CurrentSystem.t T;
  proposedSystem : ProposedSystem.t T;
  facilitySize : T;
  energyCosts : option T;
  discountRate : option T
}.

Arguments mk {T}.

Arguments currentSystem {T}.

Arguments proposedSystem {T}.

Arguments facilitySize {T}.

Arguments energyCosts {T}.

Arguments discountRate {T}.

End ROIInput.

Module ROIResult.

Record current (T : Type) : Type := mk_current {
  annualCost : T;
  tenYearCost : T
}.

Record proposed (T : Type) : Type := mk_proposed {
  initialCost : T;
  annualSavings : T;
  tenYearSavings : T
}.

Record metrics (T : Type) : Type := mk_metrics {
  paybackPeriod : T;
  tenYearROI : T;
  netPresentValue : T
}.

Record t (T : Type) : Type := mk {
  currentSystem : current T;
  proposedSystem : proposed T;
  roi : metrics T
}.

Arguments mk_current {T}.

Arguments mk_proposed {T}.

Arguments mk_metrics {T}.

Arguments mk {T}.

Arguments annualCost {T}.

Arguments tenYearCost {T}.

Arguments initialCost {T}.

Arguments annualSavings {T}.

Arguments tenYearSavings {T}.

Arguments paybackPeriod {T}.

Arguments tenYearROI {T}.

Arguments netPresentValue {T}.

Arguments currentSystem {T}.

Arguments proposedSystem {T}.

Arguments roi {T}.

End ROIResult.

Section Cost.

Context {T : Type} `{JsNum T}.

(** [Math.pow], whose precision ECMAScript leaves to the host. *)
Variable Math_pow : T -> T -> T.

Open Scope js_scope.

(** The loop [for (year = 1; year <= years; year++)] from [year] on, with
    [n] iterations left. *)
Fixpoint npvLoop (annualCashFlow discountRate : T) (year : Z) (n : nat)
    (npv : T) : T :=
  match n with
  | O => npv
  | S n' =>
      npvLoop annualCashFlow discountRate (year + 1)%Z n'
        (npv + annualCashFlow
               / Math_pow (lit 1 + discountRate) (lit (inject_Z year)))
  end.

Definition calculateNPV (annualCashFlow initialInvestment : T) (years : nat)
    (discountRate : T) : T :=
  let npv := - initialInvestment in
  npvLoop annualCashFlow discountRate 1 years npv.

Definition calculateROI (input : ROIInput.t T) : result (ROIResult.t T) :=
  let currentSystem := ROIInput.currentSystem input in
  let proposedSystem := ROIInput.proposedSystem input in
  let facilitySize := ROIInput.facilitySize input in
  let energyCosts := default (lit 0.12) (ROIInput.energyCosts input) in
  let discountRate := default (lit 0.05) (ROIInput.discountRate input) in
  let currentAnnualMaintenance :=
    CurrentSystem.maintenanceCost currentSystem
    / CurrentSystem.lifespan currentSystem in
  let currentEnergyLoss :=
    or_zero (CurrentSystem.heatTransfer currentSystem)
    * facilitySize * energyCosts * lit 0.01 in
  let currentTotalAnnual := currentAnnualMaintenance + currentEnergyLoss in
  let proposedAnnualMaintenance :=
    ProposedSystem.maintenanceCost proposedSystem
    / ProposedSystem.lifespan proposedSystem in
  let proposedEnergySavings :=
    or_zero (ProposedSystem.reflectivity proposedSystem)
    * facilitySize * energyCosts * lit 0.0015 in
  let proposedTotalAnnual :=
    proposedAnnualMaintenance - proposedEnergySavings in
  let annualSavings := currentTotalAnnual - proposedTotalAnnual in
  let paybackPeriod :=
    ProposedSystem.initialCost proposedSystem / annualSavings in
  let tenYearSavings := annualSavings * lit 10 in
  let tenYearROI :=
    ((tenYearSavings - ProposedSystem.initialCost proposedSystem)
     / ProposedSystem.initialCost proposedSystem) * lit 100 in
  let netPresentValue :=
    calculateNPV annualSavings (ProposedSystem.initialCost proposedSystem)
      10 discountRate in
  Ok {|
    ROIResult.currentSystem := {|
      ROIResult.annualCost :=
        Math_round (currentTotalAnnual * lit 100) / lit 100;
      ROIResult.tenYearCost :=
        Math_round (currentTotalAnnual * lit 10 * lit 100) / lit 100
    |};
    ROIResult.proposedSystem := {|
      ROIResult.initialCost := ProposedSystem.initialCost proposedSystem;
      ROIResult.annualSavings :=
        Math_round (annualSavings * lit 100) / lit 100;
      ROIResult.tenYearSavings :=
        Math_round (tenYearSavings * lit 100) / lit 100
    |};
    ROIResult.roi := {|
      ROIResult.paybackPeriod :=
        Math_round (paybackPeriod * lit 10) / lit 10;
      ROIResult.tenYearROI := Math_round (tenYearROI * lit 10) / lit 10;
      ROIResult.netPresentValue :=
        Math_round (netPresentValue * lit 100) / lit 100
    |}
  |}.

End Cost.

(** ** Technical calculators *)

Module WFTInput.

Record t (T : Type) : Type := mk {
  targetDFT : T;
  volumeSolids : T;
  reductionPercent : option T
}.

Arguments mk {T}.

Arguments targetDFT {T}.

Arguments volumeSolids {T}.

Arguments reductionPercent {T}.

End WFTInput.

Module WFTResult.

Record t (T : Type) : Type := mk {
  wetFilmThickness : T;
  adjustedSolids : T;
  wetFilmGauge : string;
  applicationTips : list string
}.

Arguments mk {T}.

Arguments wetFilmThickness {T}.

Arguments adjustedSolids {T}.

Arguments wetFilmGauge {T}.

Arguments applicationTips {T}.

End WFTResult.

Section Technical.

Context {T : Type} `{JsNum T}.

Variable Number_toString : T -> string.

Open Scope js_scope.

Open Scope string_scope.

Definition calculateWFT (input : WFTInput.t T) : result (WFTResult.t T) :=
  let targetDFT := WFTInput.targetDFT input in
  let volumeSolids := WFTInput.volumeSolids input in
  let reductionPercent := default (lit 0) (WFTInput.reductionPercent input) in
  let adjustedSolids :=
    volumeSolids * (lit 1 - reductionPercent / lit 100) in
  let wetFilmThickness := (targetDFT / adjustedSolids) * lit 100 in
  let wetFilmGauge :=
    if wetFilmThickness <= lit 25 then "0-25 mil gauge"
    else if wetFilmThickness <= lit 50 then "0-50 mil gauge"
    else if wetFilmThickness <= lit 100 then "0-100 mil gauge"
    else "Use multiple passes or special gauge" in
  let applicationTips := [] in
  let applicationTips :=
    if wetFilmThickness > lit 20 then
      push applicationTips "Apply in multiple passes to avoid sagging"
    else applicationTips in
  let applicationTips :=
    if reductionPercent > lit 10 then
      push applicationTips
        ("Thinning by " ++ Number_toString reductionPercent
           ++ "% may affect coating properties")
    else applicationTips in
  let applicationTips :=
    if adjustedSolids < lit 50 then
      push applicationTips "Multiple coats may be required for proper build"
    else applicationTips in
  let applicationTips :=
    push applicationTips
      ("Check WFT immediately after application using " ++ wetFilmGauge) in
  Ok {|
    WFTResult.wetFilmThickness :=
      Math_round (wetFilmThickness * lit 10) / lit 10;
    WFTResult.adjustedSolids := Math_round (adjustedSolids * lit 10) / lit 10;
    WFTResult.wetFilmGauge := wetFilmGauge;
    WFTResult.applicationTips := applicationTips
  |}.

Definition calculateSpreadingRate (wft volumeSolids : T) : T :=
  let dft := (wft * volumeSolids) / lit 100 in
  let coverage := (CONSTANTS.COVERAGE_CONSTANT * volumeSolids) / dft in
  Math_round (coverage * lit 10) / lit 10.

End Technical.

(** ** The design document's formulas

    Definitions that follow the words of the design document, to be compared
    with the code above. *)

(** The quantities of section 4.1, steps 2 to 7, before rounding. *)
Module CoverageFormulas.

Record t (T : Type) : Type := mk {
  theoreticalCoverage : T;
  practicalCoverage : T;
  gallonsPerCoat : T;
  totalGallons : T;
  wasteFactorGallons : T;
  totalWithWaste : T;
  estimatedCost : T
}.

Arguments mk {T}.

Arguments theoreticalCoverage {T}.

Arguments practicalCoverage {T}.

Arguments gallonsPerCoat {T}.

Arguments totalGallons {T}.

Arguments wasteFactorGallons {T}.

Arguments totalWithWaste {T}.

Arguments estimatedCost {T}.

End CoverageFormulas.

Section Formulas.

Context {T : Type} `{JsNum T}.

Open Scope js_scope.

(** "area > 0, 0 < volumeSolids <= 100, targetDFT > 0" *)
Definition validCoverageInput (input : CoverageInput.t T) : bool :=
  (CoverageInput.surfaceArea input > lit 0)
  && (lit 0 < CoverageInput.volumeSolids input)
  && (CoverageInput.volumeSolids input <= lit 100)
  && (CoverageInput.targetDFT input > lit 0).

(** "area <= 0, or volumeSolids <= 0 or > 100, or targetDFT <= 0" *)
Definition rejectedCoverageInput (input : CoverageInput.t T) : bool :=
  (CoverageInput.surfaceArea input <= lit 0)
  || (CoverageInput.volumeSolids input <= lit 0)
  || (CoverageInput.volumeSolids input > lit 100)
  || (CoverageInput.targetDFT input <= lit 0).

Definition coverageFormulas (input : CoverageInput.t T)
  : CoverageFormulas.t T :=
  let area := CoverageInput.surfaceArea input in
  let coats := default (lit 1) (CoverageInput.coats input) in
  let efficiency :=
    default (lit 65) (CoverageInput.transferEfficiency input) in
  let unitPrice := default (lit 0) (CoverageInput.pricePerGallon input) in
  let theoretical :=
    (lit 1604 * CoverageInput.volumeSolids input / lit 100)
    / CoverageInput.targetDFT input in
  let practical := theoretical * (efficiency / lit 100) in
  let perCoat := area / practical in
  let total := perCoat * coats in
  let waste := total * lit 0.1 in
  let withWaste := total + waste in
  {| CoverageFormulas.theoreticalCoverage := theoretical;
     CoverageFormulas.practicalCoverage := practical;
     CoverageFormulas.gallonsPerCoat := perCoat;
     CoverageFormulas.totalGallons := total;
     CoverageFormulas.wasteFactorGallons := waste;
     CoverageFormulas.totalWithWaste := withWaste;
     CoverageFormulas.estimatedCost :=
       if unitPrice > lit 0 then withWaste * unitPrice else lit 0 |}.

(** Rounding to one and to two decimals, to the nearest and upwards, as
    the code writes them. *)
Definition round1 (x : T) : T := Math_round (x * lit 10) / lit 10.

Definition round2 (x : T) : T := Math_round (x * lit 100) / lit 100.

Definition ceil1 (x : T) : T := Math_ceil (x * lit 10) / lit 10.

(** The rounding policy of section 4.1, step 8, and the container counts
    of step 6. *)
Definition roundedCoverage (q : CoverageFormulas.t T) : CoverageResult.t T :=
  {| CoverageResult.theoreticalCoverage :=
       round1 (CoverageFormulas.theoreticalCoverage q);
     CoverageResult.practicalCoverage :=
       round1 (CoverageFormulas.practicalCoverage q);
     CoverageResult.gallonsPerCoat :=
       ceil1 (CoverageFormulas.gallonsPerCoat q);
     CoverageResult.totalGallons := ceil1 (CoverageFormulas.totalGallons q);
     CoverageResult.totalWithWaste :=
       ceil1 (CoverageFormulas.totalWithWaste q);
     CoverageResult.wasteFactorGallons :=
       ceil1 (CoverageFormulas.wasteFactorGallons q);
     CoverageResult.fiveGallonBuckets :=
       Math_ceil (CoverageFormulas.totalWithWaste q / lit 5);
     CoverageResult.oneGallonCans :=
       Math_ceil (CoverageFormulas.totalWithWaste q);
     CoverageResult.estimatedCost :=
       round2 (CoverageFormulas.estimatedCost q);
     CoverageResult.coveragePerGallon :=
       Math_round (CoverageFormulas.practicalCoverage q) |}.

End Formulas.

(** What "rounded to the nearest multiple of [u]" and "rounded up to a
    multiple of [u]" mean, in exact arithmetic. *)
Definition nearest_multiple (u x r : Q) : Prop :=
  exists k : Z, r == inject_Z k * u /\ Qabs (r - x) <= u / 2.

Definition multiple_above (u x r : Q) : Prop :=
  exists k : Z, r == inject_Z k * u /\ x <= r /\ r < x + u.

(** ** Laws of the comparisons

    [x < y] excludes [y <= x], and [x <= y] excludes [y < x]: the two
    comparisons the validation of the coverage engine relies on. *)
Class JsOrder (T : Type) `{JsNum T} : Prop := {
  ltb_not_geb : forall x y : T, (x < y)%js = true -> (y <= x)%js = false;
  leb_not_gtb : forall x y : T, (x <= y)%js = true -> (y < x)%js = false
}.

(** ** Sample inputs *)

(** The coverage example of the README and of the design document. *)
Definition sampleCoverage {T : Type} `{JsNum T} : CoverageInput.t T := {|
  CoverageInput.surfaceArea := lit 1000;
  CoverageInput.coats := Some (lit 2);
  CoverageInput.volumeSolids := lit 65;
  CoverageInput.targetDFT := lit 5;
  CoverageInput.transferEfficiency := Some (lit 65);
  CoverageInput.pricePerGallon := Some (lit 45)
|}.

(** The sample with another area, volume solids and target DFT. *)
Definition coverageWith {T : Type} `{JsNum T} (area solids dft : Q)
  : CoverageInput.t T := {|
  CoverageInput.surfaceArea := lit area;
  CoverageInput.coats := Some (lit 2);
  CoverageInput.volumeSolids := lit solids;
  CoverageInput.targetDFT := lit dft;
  CoverageInput.transferEfficiency := Some (lit 65);
  CoverageInput.pricePerGallon := Some (lit 45)
|}.


(** ** The multi-coat system, as the design document words it *)

Section MultiCoatFormulas.

Context {T : Type} `{JsNum T}.

Variable Number_toString : T -> string.

Open Scope js_scope.

Open Scope string_scope.

(** "primer -> intermediate -> topcoat" *)
Definition layerOrder : list LayerType.t :=
  [LayerType.primer; LayerType.intermediate; LayerType.topcoat].

(** "a layer is included if present and its coat count > 0" *)
Definition includedLayer (system : Layers.t (CoatingLayer.t T))
    (k : LayerType.t) : option (CoatingLayer.t T) :=
  match Layers.get system k with
  | Some layer => if CoatingLayer.coats layer > lit 0 then Some layer else None
  | None => None
  end.

(** The included layers, in the fixed order. *)
Definition includedLayers (system : Layers.t (CoatingLayer.t T))
  : list (LayerType.t * CoatingLayer.t T) :=
  flat_map
    (fun k =>
       match includedLayer system k with
       | Some layer => [(k, layer)]
       | None => []
       end)
    layerOrder.

(** The unit price of a layer, zero when none is given. *)
Definition layerPrice (layer : CoatingLayer.t T) : T :=
  or_zero (CoatingLayer.pricePerGallon layer).

(** "invoke Coverage Engine with that layer's parameters" and the
    system-level transfer efficiency. *)
Definition layerCoverage (area efficiency : T) (layer : CoatingLayer.t T)
  : result (CoverageResult.t T) :=
  calculatePaintCoverage {|
    CoverageInput.surfaceArea := area;
    CoverageInput.coats := Some (CoatingLayer.coats layer);
    CoverageInput.volumeSolids := CoatingLayer.volumeSolids layer;
    CoverageInput.targetDFT := CoatingLayer.dft layer;
    CoverageInput.transferEfficiency := Some efficiency;
    CoverageInput.pricePerGallon := Some (layerPrice layer)
  |}.

(** "layerTotalDFT = layerDFT x layerCoats" *)
Definition layerTotalDFT (layer : CoatingLayer.t T) : T :=
  CoatingLayer.dft layer * CoatingLayer.coats layer.

(** "layerCost = layer's totalGallons x unit price" *)
Definition layerCost (layer : CoatingLayer.t T) (c : CoverageResult.t T) : T :=
  CoverageResult.totalGallons c * layerPrice layer.

Definition layerResult (layer : CoatingLayer.t T) (c : CoverageResult.t T)
  : LayerResult.t T :=
  {| LayerResult.coverage := c;
     LayerResult.totalDFT := layerTotalDFT layer;
     LayerResult.cost := round2 (layerCost layer c) |}.

Definition layerName (k : LayerType.t) : string :=
  match k with
  | LayerType.primer => "Primer"
  | LayerType.intermediate => "Intermediate"
  | LayerType.topcoat => "Topcoat"
  end.

(** "each included layer's name and total DFT" *)
Definition describeLayer (entry : LayerType.t * CoatingLayer.t T) : string :=
  layerName (fst entry) ++ ": " ++ Number_toString (layerTotalDFT (snd entry))
  ++ " mils DFT".

(** A sum taken from zero, in order. *)
Definition sum (l : list T) : T := fold_left add l (lit 0).

(** The coverage of every layer of the list, or the first failure. *)
Fixpoint coverages (area efficiency : T)
    (l : list (LayerType.t * CoatingLayer.t T))
  : result (list (LayerType.t * CoatingLayer.t T * CoverageResult.t T)) :=
  match l with
  | [] => Ok []
  | (k, layer) :: rest =>
      c <- layerCoverage area efficiency layer ;;
      cs <- coverages area efficiency rest ;;
      Ok ((k, layer, c) :: cs)
  end.

(** The result of layer [k] among the computed ones, if it is there. *)
Fixpoint layerOf (k : LayerType.t)
    (cs : list (LayerType.t * CoatingLayer.t T * CoverageResult.t T))
  : option (LayerResult.t T) :=
  match cs with
  | [] => None
  | (k', layer, c) :: rest =>
      match k, k' with
      | LayerType.primer, LayerType.primer
      | LayerType.intermediate, LayerType.intermediate
      | LayerType.topcoat, LayerType.topcoat => Some (layerResult layer c)
      | _, _ => layerOf k rest
      end
  end.

Definition multiCoatFormulas (input : MultiCoatInput.t T)
  : result (MultiCoatResult.t T) :=
  let area := MultiCoatInput.surfaceArea input in
  let efficiency :=
    default (lit 65) (MultiCoatInput.transferEfficiency input) in
  let included := includedLayers (MultiCoatInput.system input) in
  cs <- coverages area efficiency included ;;
  let totalDFT := sum (map (fun e => layerTotalDFT (snd (fst e))) cs) in
  let totalCost := sum (map (fun e => layerCost (snd (fst e)) (snd e)) cs) in
  let totalGallons :=
    sum (map (fun e => CoverageResult.totalGallons (snd e)) cs) in
  Ok {|
    MultiCoatResult.layers := {|
      Layers.primer := layerOf LayerType.primer cs;
      Layers.intermediate := layerOf LayerType.intermediate cs;
      Layers.topcoat := layerOf LayerType.topcoat cs
    |};
    MultiCoatResult.summary := {|
      MultiCoatSummary.totalDFT := round1 totalDFT;
      MultiCoatSummary.totalCost := round2 totalCost;
      MultiCoatSummary.costPerSquareFoot := round2 (totalCost / area);
      MultiCoatSummary.totalGallons := round1 totalGallons;
      MultiCoatSummary.systemDescription :=
        join " | " (map describeLayer included)
    |}
  |}.

(** A layer whose parameters the coverage engine rejects. *)
Definition rejectedLayer (layer : CoatingLayer.t T) : bool :=
  (CoatingLayer.volumeSolids layer <= lit 0)
  || (CoatingLayer.volumeSolids layer > lit 100)
  || (CoatingLayer.dft layer <= lit 0).

End MultiCoatFormulas.

(** ** The host's number services, for binary64

    [Number::toString] is fixed by ECMAScript (the shortest decimal that
    reads back as the same double); [Math.log] is left to the host, and is
    given here as the fdlibm algorithm that V8 uses. *)

Module NumberToString.

Local Open Scope string_scope.

(** [a * 10^p] compared with [b * 2^g], exactly. *)
Definition scaled_compare (a p b g : Z) : comparison :=
  (a * 10 ^ Z.max p 0 * 2 ^ Z.max (- g) 0
   ?= b * 2 ^ Z.max g 0 * 10 ^ Z.max (- p) 0)%Z.

(** Does the decimal [s * 10^p] read back as the double [m * 2^e]?  It does
    between the midpoints to the neighbouring doubles, and at a midpoint
    when [m] is even. *)
Definition reads_back (m e s p : Z) : bool :=
  let below := if ((m =? 2 ^ 52) && (-1074 <? e))%Z then 1%Z else 2%Z in
  match scaled_compare s p (4 * m - below) (e - 2),
        scaled_compare s p (4 * m + 2) (e - 2) with
  | Gt, Lt => true
  | Eq, Lt | Gt, Eq => Z.even m
  | _, _ => false
  end.

(** The least [n] from [n0] on with [m * 2^e < 10^n]. *)
Fixpoint magnitude (fuel : nat) (m e n0 : Z) : Z :=
  match fuel with
  | O => n0
  | S fuel' =>
      match scaled_compare 1 n0 m e with
      | Gt => n0
      | _ => magnitude fuel' m e (n0 + 1)%Z
      end
  end.

(** [floor (m * 2^e / 10^p)] *)
Definition scaled_floor (m e p : Z) : Z :=
  ((m * 2 ^ Z.max e 0 * 10 ^ Z.max (- p) 0)
   / (2 ^ Z.max (- e) 0 * 10 ^ Z.max p 0))%Z.

(** The digits [s] and the exponent [n] of the shortest decimal
    [s * 10^(n-k)], trying [k] digits and then more; of two candidates with
    the same [k], the closer one. *)
Fixpoint shortest (fuel : nat) (m e n k : Z) : Z * Z :=
  let p := (n - k)%Z in
  let below := scaled_floor m e p in
  let above := (below + 1)%Z in
  let normal (s : Z) := if (s =? 10 ^ k)%Z then (10 ^ (k - 1), n + 1)%Z
                        else (s, n) in
  match fuel with
  | O => (below, n)
  | S fuel' =>
      match reads_back m e below p, reads_back m e above p with
      | true, false => (below, n)
      | false, true => normal above
      | true, true =>
          match scaled_compare (below + above) p (2 * m) e with
          | Gt => (below, n)
          | Lt => normal above
          | Eq => if Z.even below then (below, n) else normal above
          end
      | false, false => shortest fuel' m e n (k + 1)%Z
      end
  end.

Definition digits (z : Z) : string :=
  DecimalString.NilZero.string_of_int (Z.to_int z).

Fixpoint zeros (n : nat) : string :=
  match n with
  | O => EmptyString
  | S n' => String "0"%char (zeros n')
  end.

(** Steps 6 to 10 of [Number::toString]: the digits [s] ([k] of them) with
    the decimal point after the [n]-th. *)
Definition layout (s n : Z) : string :=
  let ds := digits s in
  let k := Z.of_nat (String.length ds) in
  if ((k <=? n) && (n <=? 21))%Z then
    ds ++ zeros (Z.to_nat (n - k))
  else if ((0 <? n) && (n <=? 21))%Z then
    substring 0 (Z.to_nat n) ds ++ "."
    ++ substring (Z.to_nat n) (Z.to_nat (k - n)) ds
  else if ((-6 <? n) && (n <=? 0))%Z then
    "0." ++ zeros (Z.to_nat (- n)) ++ ds
  else
    let exponent :=
      (if (0 <=? n - 1)%Z then "+" else "-") ++ digits (Z.abs (n - 1)) in
    if (k =? 1)%Z then ds ++ "e" ++ exponent
    else substring 0 1 ds ++ "." ++ substring 1 (Z.to_nat (k - 1)) ds
         ++ "e" ++ exponent.

(** Trailing zeros of the digits belong to the exponent. *)
Fixpoint strip (fuel : nat) (s : Z) : Z :=
  match fuel with
  | O => s
  | S fuel' =>
      if ((s mod 10 =? 0) && negb (s =? 0))%Z then strip fuel' (s / 10)%Z
      else s
  end.

Definition Number_toString (x : float) : string :=
  match Prim2SF x with
  | S754_nan => "NaN"
  | S754_zero _ => "0"
  | S754_infinity s => if s then "-Infinity" else "Infinity"
  | S754_finite sign m e =>
      let bits := (Z.log2 (Zpos m) + e)%Z in
      let n := magnitude 8 (Zpos m) e (bits * 30103 / 100000 - 2) in
      let (s, n') := shortest 17 (Zpos m) e n 1 in
      (if sign then "-" else "") ++ layout (strip 17 s) n'
  end.

End NumberToString.

Module Fdlibm.

(** The 64 bits of a double, as a number; of the NaNs, the quiet one. *)
Definition bits (x : float) : Z :=
  let sign (s : bool) := if s then (2 ^ 63)%Z else 0%Z in
  match Prim2SF x with
  | S754_zero s => sign s
  | S754_infinity s => (sign s + 0x7ff0000000000000)%Z
  | S754_nan => 0x7ff8000000000000%Z
  | S754_finite s m e =>
      if (Zpos m <? 2 ^ 52)%Z then (sign s + Zpos m)%Z
      else (sign s + (e + 1075) * 2 ^ 52 + (Zpos m - 2 ^ 52))%Z
  end.

Definition of_bits (b : Z) : float :=
  let s := (2 ^ 63 <=? b)%Z in
  let biased := ((b / 2 ^ 52) mod 2 ^ 11)%Z in
  let fraction := (b mod 2 ^ 52)%Z in
  if (biased =? 2047)%Z then
    if (fraction =? 0)%Z then SF2Prim (S754_infinity s) else PrimFloat.nan
  else
    match (if (biased =? 0)%Z then fraction else fraction + 2 ^ 52)%Z with
    | Zpos m =>
        SF2Prim (S754_finite s m
                   (if (biased =? 0)%Z then -1074 else biased - 1075)%Z)
    | _ => SF2Prim (S754_zero s)
    end.

(** The high word as a signed 32-bit integer, and the low word. *)
Definition high_word (x : float) : Z :=
  let h := (bits x / 2 ^ 32)%Z in
  if (2 ^ 31 <=? h)%Z then (h - 2 ^ 32)%Z else h.

Definition low_word (x : float) : Z := (bits x mod 2 ^ 32)%Z.

(** [SET_HIGH_WORD(x, h)] for a non-negative [h] *)
Definition set_high_word (x : float) (h : Z) : float :=
  of_bits (h * 2 ^ 32 + low_word x).

Definition ln2_hi : float := 6.93147180369123816490e-01.

Definition ln2_lo : float := 1.90821492927058770002e-10.

Definition two54 : float := 1.80143985094819840000e+16.

Definition Lg1 : float := 6.666666666666735130e-01.

Definition Lg2 : float := 3.999999999940941908e-01.

Definition Lg3 : float := 2.857142874366239149e-01.

Definition Lg4 : float := 2.222219843214978396e-01.

Definition Lg5 : float := 1.818357216161805012e-01.

Definition Lg6 : float := 1.531383769920937332e-01.

Definition Lg7 : float := 1.479819860511658591e-01.

(** [log] for a positive, finite, normal [x] with high word [hx], and [k]
    the power of two already taken out. *)
Definition log_reduced (x : float) (hx k : Z) : float :=
  let k := (k + (hx / 2 ^ 20 - 1023))%Z in
  let hx := (hx mod 2 ^ 20)%Z in
  let i := Z.land (hx + 0x95f64) 0x100000 in
  let x := set_high_word x (Z.lor hx (Z.lxor i 0x3ff00000)) in
  let k := (k + i / 2 ^ 20)%Z in
  let dk := Binary64.of_Z k in
  let f := (x - 1)%float in
  if (Z.land 0x000fffff (2 + hx) <? 3)%Z then
    if (f =? 0)%float then
      if (k =? 0)%Z then 0%float
      else (dk * ln2_hi + dk * ln2_lo)%float
    else
      let R := (f * f * (0.5 - 0.33333333333333333 * f))%float in
      if (k =? 0)%Z then (f - R)%float
      else (dk * ln2_hi - ((R - dk * ln2_lo) - f))%float
  else
    let s := (f / (2 + f))%float in
    let z := (s * s)%float in
    let i := (hx - 0x6147a)%Z in
    let w := (z * z)%float in
    let j := (0x6b851 - hx)%Z in
    let t1 := (w * (Lg2 + w * (Lg4 + w * Lg6)))%float in
    let t2 := (z * (Lg1 + w * (Lg3 + w * (Lg5 + w * Lg7))))%float in
    let R := (t2 + t1)%float in
    if ((0 <=? i) && (0 <=? j) && negb ((i =? 0) && (j =? 0)))%Z then
      let hfsq := (0.5 * f * f)%float in
      if (k =? 0)%Z then (f - (hfsq - s * (hfsq + R)))%float
      else (dk * ln2_hi - ((hfsq - (s * (hfsq + R) + dk * ln2_lo)) - f))%float
    else
      if (k =? 0)%Z then (f - s * (f - R))%float
      else (dk * ln2_hi - ((s * (f - R) - dk * ln2_lo) - f))%float.

Definition log (x : float) : float :=
  let hx := high_word x in
  let lx := low_word x in
  if (hx <? 0x00100000)%Z then
    if (Z.lor (Z.land hx 0x7fffffff) lx =? 0)%Z then
      (- two54 / 0)%float
    else if (hx <? 0)%Z then ((x - x) / 0)%float
    else
      let x := (x * two54)%float in
      log_reduced x (high_word x) (-54)
  else if (0x7ff00000 <=? hx)%Z then (x + x)%float
  else log_reduced x hx 0.

End Fdlibm.

(** A primer of one coat and a topcoat of two, each of 3 mils, on 1000
    square feet. *)
Definition primerAndTopcoat : MultiCoatInput.t float := {|
  MultiCoatInput.surfaceArea := 1000%float;
  MultiCoatInput.system := {|
    Layers.primer := Some (CoatingLayer.mk 75 3 1 (Some 35) None)%float;
    Layers.intermediate := None;
    Layers.topcoat := Some (CoatingLayer.mk 65 3 2 (Some 45) None)%float
  |};
  MultiCoatInput.transferEfficiency := None
|}.

(** The same system with an intermediate layer of zero coats, and a topcoat
    whose volume solids are out of range. *)
Definition topcoatOutOfRange : MultiCoatInput.t float := {|
  MultiCoatInput.surfaceArea := 1000%float;
  MultiCoatInput.system := {|
    Layers.primer := Some (CoatingLayer.mk 75 3 1 (Some 35) None)%float;
    Layers.intermediate := Some (CoatingLayer.mk 60 4 0 None None)%float;
    Layers.topcoat := Some (CoatingLayer.mk 101 3 2 (Some 45) None)%float
  |};
  MultiCoatInput.transferEfficiency := None
|}.

(** ** The dew point, as the design document words it *)

Section DewPointFormulas.

Context {T : Type} `{JsNum T}.

Variable Math_log : T -> T.

Open Scope js_scope.

(** "alpha = (A T)/(B + T) + ln(RH/100)", with A = 17.27 and B = 237.7 *)
Definition magnusAlpha (temperature humidity : T) : T :=
  (lit 17.27 * temperature) / (lit 237.7 + temperature)
  + Math_log (humidity / lit 100).

(** "dewPoint = (B alpha)/(A - alpha)" *)
Definition magnusDewPoint (temperature humidity : T) : T :=
  (lit 237.7 * magnusAlpha temperature humidity)
  / (lit 17.27 - magnusAlpha temperature humidity).

(** "surface temperature is assumed to be 5 degrees below ambient" *)
Definition surfaceTemperature (temperature : T) : T := temperature - lit 5.

(** "currentMargin = surfaceTemp - dewPoint" *)
Definition dewPointMargin (temperature humidity : T) : T :=
  surfaceTemperature temperature - magnusDewPoint temperature humidity.

End DewPointFormulas.

(** The dew point example of the README: 75 degrees, 65 percent. *)
Definition sampleConditions : DewPointInput.t float := {|
  DewPointInput.temperature := 75%float;
  DewPointInput.humidity := 65%float
|}.

(** What [calculateDewPoint] returns for it when [Math.log (0.65)] is [l]. *)
Definition sampleDewPointWith (l : float) : result (DewPointResult.t float) :=
  calculateDewPoint (fun _ => l) NumberToString.Number_toString
    sampleConditions.

(** The doubles up to [n] steps above and below [x], [x] first. *)
Fixpoint stepsFrom (step : float -> float) (n : nat) (x : float) : list float :=
  match n with
  | O => []
  | S n' => step x :: stepsFrom step n' (step x)
  end.

Definition neighbours (n : nat) (x : float) : list float :=
  x :: stepsFrom PrimFloat.next_up n x ++ stepsFrom PrimFloat.next_down n x.

(** The natural logarithm of 0.65, to the nearest double. *)
Definition ln_065 : float := (-0.4307829160924542)%float.

Definition sampleDewPoint : DewPointResult.t float := {|
  DewPointResult.dewPoint := 65.1%float;
  DewPointResult.minimumSurfaceTemp := 70.1%float;
  DewPointResult.currentMargin := 4.9%float;
  DewPointResult.isSafe := false;
  DewPointResult.recommendation :=
    "⚠️ Warning: Risk of condensation. Wait until surface temp is above 70°F"
|}.

(** Is the result for the sample, with [Math.log (0.65) = l], the record
    [sampleDewPoint]? *)
Definition sampleDewPointIs (l : float) : bool :=
  match sampleDewPointWith l with
  | Ok r =>
      PrimFloat.Leibniz.eqb (DewPointResult.dewPoint r)
        (DewPointResult.dewPoint sampleDewPoint)
      && PrimFloat.Leibniz.eqb (DewPointResult.minimumSurfaceTemp r)
           (DewPointResult.minimumSurfaceTemp sampleDewPoint)
      && PrimFloat.Leibniz.eqb (DewPointResult.currentMargin r)
           (DewPointResult.currentMargin sampleDewPoint)
      && Bool.eqb (DewPointResult.isSafe r)
           (DewPointResult.isSafe sampleDewPoint)
      && String.eqb (DewPointResult.recommendation r)
           (DewPointResult.recommendation sampleDewPoint)
  | Throw _ => false
  end.

(** ** Degenerate inputs *)

(** [NaN], [Infinity] or [-Infinity] *)
Definition nonfinite (x : float) : bool :=
  PrimFloat.is_nan x || PrimFloat.is_infinity x.

Section ROIFormulas.

Context {T : Type} `{JsNum T}.

Open Scope js_scope.

(** The annual savings of [calculateROI], before rounding: the current
    system's annual cost minus the proposed system's. *)
Definition annualSavingsOf (input : ROIInput.t T) : T :=
  let current := ROIInput.currentSystem input in
  let proposed := ROIInput.proposedSystem input in
  let energyCosts := default (lit 0.12) (ROIInput.energyCosts input) in
  (CurrentSystem.maintenanceCost current / CurrentSystem.lifespan current
   + or_zero (CurrentSystem.heatTransfer current)
     * ROIInput.facilitySize input * energyCosts * lit 0.01)
  - (ProposedSystem.maintenanceCost proposed / ProposedSystem.lifespan proposed
     - or_zero (ProposedSystem.reflectivity proposed)
       * ROIInput.facilitySize input * energyCosts * lit 0.0015).

End ROIFormulas.

(** A proposed system that costs 5000 and saves nothing: same maintenance
    and lifespan as the current one, no energy terms. *)
Definition zeroSavings : ROIInput.t float := {|
  ROIInput.currentSystem := CurrentSystem.mk 1000%float 10%float None;
  ROIInput.proposedSystem :=
    ProposedSystem.mk 5000%float 1000%float 10%float None;
  ROIInput.facilitySize := 1000%float;
  ROIInput.energyCosts := None;
  ROIInput.discountRate := None
|}.

(** A coating thinned by 100 percent. *)
Definition fullThinning (targetDFT volumeSolids : float) : WFTInput.t float := {|
  WFTInput.targetDFT := targetDFT;
  WFTInput.volumeSolids := volumeSolids;
  WFTInput.reductionPercent := Some 100%float
|}.

(** ** Tactics *)

(** Divisions by the literals of the code, as multiplications. *)
Ltac literal_inverses :=
  unfold Qdiv;
  change (/ 2)%Q with (1 # 2)%Q;
  change (/ 5)%Q with (1 # 5)%Q;
  change (/ 10)%Q with (1 # 10)%Q;
  change (/ 100)%Q with (1 # 100)%Q.

Ltac exact_ops :=
  unfold round1, round2, ceil1;
  cbn [add sub mul div neg lit Math_ceil Math_round exact].

(** * The other calculators *)

(** ** Primer *)

Section Primer.

Context {T : Type} `{JsNum T}.

Open Scope js_scope.

(** The substrate type and the porosity default to ["drywall"] and
    ["medium"]; the table they would index is commented out in the code. *)
Definition calculatePrimerNeeded (surfaceArea : T)
    (_substrateType _porosity : option string)
  : result (CoverageResult.t T) :=
  let volumeSolids := lit 35 in
  let targetDFT := lit 1.5 in
  calculatePaintCoverage {|
    CoverageInput.surfaceArea := surfaceArea;
    CoverageInput.coats := Some (lit 1);
    CoverageInput.volumeSolids := volumeSolids;
    CoverageInput.targetDFT := targetDFT;
    CoverageInput.transferEfficiency := Some (lit 75);
    CoverageInput.pricePerGallon := None
  |}.

End Primer.

(** ** VOC emissions *)

Module VOC_LIMITS.

Section Constants.

Context {T : Type} `{JsNum T}.

Definition NON_FLAT : T := lit 150.

End Constants.

End VOC_LIMITS.

Module VOCInput.

Record t (T : Type) : Type := mk {
  coatingVolume : T;
  vocContent : T;
  area : T;
  ventilationRate : option T;
  ceilingHeight : option T
}.

Arguments mk {T}.

Arguments coatingVolume {T}.

Arguments vocContent {T}.

Arguments area {T}.

Arguments ventilationRate {T}.

Arguments ceilingHeight {T}.

End VOCInput.

Module VOCResult.

Record t (T : Type) : Type := mk {
  totalVOC : T;
  vocPerSqFt : T;
  regulatoryLimit : T;
  isCompliant : bool;
  airChangesPerHour : T;
  estimatedClearTime : T;
  recommendations : list string
}.

Arguments mk {T}.

Arguments totalVOC {T}.

Arguments vocPerSqFt {T}.

Arguments regulatoryLimit {T}.

Arguments isCompliant {T}.

Arguments airChangesPerHour {T}.

Arguments estimatedClearTime {T}.

Arguments recommendations {T}.

End VOCResult.

Section VOC.

Context {T : Type} `{JsNum T}.

Open Scope js_scope.

Open Scope string_scope.

Definition calculateVOC (input : VOCInput.t T) : result (VOCResult.t T) :=
  let coatingVolume := VOCInput.coatingVolume input in
  let vocContent := VOCInput.vocContent input in
  let area := VOCInput.area input in
  let ventilationRate := default (lit 0) (VOCInput.ventilationRate input) in
  let ceilingHeight := default (lit 10) (VOCInput.ceilingHeight input) in
  let totalVOC := coatingVolume * vocContent in
  let vocPerSqFt := totalVOC / area in
  let regulatoryLimit := VOC_LIMITS.NON_FLAT in
  let isCompliant := vocContent <= regulatoryLimit in
  let '(airChangesPerHour, estimatedClearTime) :=
    if ventilationRate > lit 0 then
      let roomVolume := area * ceilingHeight in
      ((ventilationRate * lit 60) / roomVolume,
       totalVOC / (ventilationRate * lit 0.075))
    else (lit 0, lit 0) in
  let recommendations := [] in
  let recommendations :=
    if negb isCompliant then
      push recommendations "⚠️ VOC content exceeds regulatory limits"
    else recommendations in
  let recommendations :=
    if airChangesPerHour < lit 4 then
      push recommendations
        "Increase ventilation to minimum 4 air changes per hour"
    else recommendations in
  let recommendations :=
    if vocContent > lit 50 then
      push recommendations "Consider using low-VOC alternatives (<50 g/L)"
    else recommendations in
  Ok {|
    VOCResult.totalVOC := Math_round (totalVOC * lit 100) / lit 100;
    VOCResult.vocPerSqFt := Math_round (vocPerSqFt * lit 100) / lit 100;
    VOCResult.regulatoryLimit := regulatoryLimit;
    VOCResult.isCompliant := isCompliant;
    VOCResult.airChangesPerHour :=
      Math_round (airChangesPerHour * lit 10) / lit 10;
    VOCResult.estimatedClearTime :=
      Math_round (estimatedClearTime * lit 10) / lit 10;
    VOCResult.recommendations := recommendations
  |}.

End VOC.

(** ** Project cost *)

(** A property of an object literal, by its name: the first entry of that
    name, if there is one. *)
Fixpoint ownProperty {A : Type} (key : string) (o : list (string * A))
  : option A :=
  match o with
  | [] => None
  | (k, a) :: rest => if String.eqb k key then Some a else ownProperty key rest
  end.

Module ProjectSurface.

Record t (T : Type) : Type := mk {
  description : string;
  area : T;
  type : string;
  condition : string;
  height : option T;
  coatingSystem : Layers.t (CoatingLayer.t T);
  transferEfficiency : option T
}.

Arguments mk {T}.

Arguments description {T}.

Arguments area {T}.

Arguments type {T}.

Arguments condition {T}.

Arguments height {T}.

Arguments coatingSystem {T}.

Arguments transferEfficiency {T}.

End ProjectSurface.

Module ProjectCostInput.

Record t (T : Type) : Type := mk {
  surfaces : list (ProjectSurface.t T);
  laborRate : T;
  crewSize : T;
  overheadPercent : T;
  profitMargin : T
}.

Arguments mk {T}.

Arguments surfaces {T}.

Arguments laborRate {T}.

Arguments crewSize {T}.

Arguments overheadPercent {T}.

Arguments profitMargin {T}.

End ProjectCostInput.

Module SurfaceCost.

Record t (T : Type) : Type := mk {
  description : string;
  area : T;
  materialCost : T;
  laborHours : T;
  laborCost : T
}.

Arguments mk {T}.

Arguments description {T}.

Arguments area {T}.

Arguments materialCost {T}.

Arguments laborHours {T}.

Arguments laborCost {T}.

End SurfaceCost.

Module ProjectSummary.

Record t (T : Type) : Type := mk {
  totalSurfaceArea : T;
  materialCost : T;
  laborCost : T;
  laborHours : T;
  directCosts : T;
  overhead : T;
  profit : T;
  total : T;
  pricePerSqFt : T
}.

Arguments mk {T}.

Arguments totalSurfaceArea {T}.

Arguments materialCost {T}.

Arguments laborCost {T}.

Arguments laborHours {T}.

Arguments directCosts {T}.

Arguments overhead {T}.

Arguments profit {T}.

Arguments total {T}.

Arguments pricePerSqFt {T}.

End ProjectSummary.

Module ProjectCostResult.

Record t (T : Type) : Type := mk {
  breakdown : list (SurfaceCost.t T);
  summary : ProjectSummary.t T
}.

Arguments mk {T}.

Arguments breakdown {T}.

Arguments summary {T}.

End ProjectCostResult.

(** The variables the [map] callback of [estimateProjectCost] closes over
    and updates. *)
Module ProjectTotals.

Record t (T : Type) : Type := mk {
  totalMaterialCost : T;
  totalLaborHours : T;
  totalSurfaceArea : T
}.

Arguments mk {T}.

Arguments totalMaterialCost {T}.

Arguments totalLaborHours {T}.

Arguments totalSurfaceArea {T}.

End ProjectTotals.

(** [Array.prototype.map] with a callback that updates captured state and
    may throw: the first exception ends the loop. *)
Fixpoint mapWithState {A B S : Type} (f : S -> A -> result (B * S))
    (l : list A) (s : S) : result (list B * S) :=
  match l with
  | [] => Ok ([], s)
  | a :: rest =>
      bs <- f s a ;;
      rest' <- mapWithState f rest (snd bs) ;;
      Ok (fst bs :: fst rest', snd rest')
  end.

(** [o.f || d] for an optional numeric property [f]. *)
Definition or_number {T} `{JsNum T} (o : option T) (d : T) : T :=
  match o with
  | Some v => or_else v d
  | None => d
  end.

(** Is an optional numeric property truthy? *)
Definition truthyProperty {T} `{JsNum T} (o : option T) : bool :=
  match o with
  | Some v => truthy v
  | None => false
  end.

Section ProjectCost.

Context {T : Type} `{JsNum T}.

Variable Number_toString : T -> string.

(** What [rates[surfaceType]?.[condition]] finds, read as a number, when the
    table has no entry of its own under these names and a prototype has a
    truthy one ([rates["constructor"]] is a function, for one). *)
Variable inheritedRate : string -> string -> option T.

Open Scope js_scope.

Open Scope string_scope.

Definition productionRates : list (string * list (string * T)) :=
  [ ("walls", [("good", lit 200); ("fair", lit 150); ("poor", lit 100)]);
    ("ceilings", [("good", lit 150); ("fair", lit 120); ("poor", lit 80)]);
    ("floors", [("good", lit 250); ("fair", lit 200); ("poor", lit 150)]);
    ("trim", [("good", lit 50); ("fair", lit 40); ("poor", lit 30)]) ].

Definition getProductionRate (surfaceType condition : string) : T :=
  let rates := productionRates in
  let own :=
    match ownProperty surfaceType rates with
    | Some row => ownProperty condition row
    | None => None
    end in
  match own with
  | Some rate => or_else rate (lit 150)
  | None => default (lit 150) (inheritedRate surfaceType condition)
  end.

Definition calculateLaborCost (area laborRate : T) (productionRate : option T)
  : T :=
  let productionRate := default (lit 150) productionRate in
  let hours := area / productionRate in
  Math_round (hours * laborRate * lit 100) / lit 100.

(** The body of the [map] callback. *)
Definition surfaceCost (laborRate crewSize : T) (acc : ProjectTotals.t T)
    (surface : ProjectSurface.t T)
  : result (SurfaceCost.t T * ProjectTotals.t T) :=
  materials <- calculateMultiCoatSystem Number_toString {|
    MultiCoatInput.surfaceArea := ProjectSurface.area surface;
    MultiCoatInput.system := ProjectSurface.coatingSystem surface;
    MultiCoatInput.transferEfficiency :=
      Some (or_number (ProjectSurface.transferEfficiency surface) (lit 65))
  |} ;;
  let productionRate :=
    getProductionRate (ProjectSurface.type surface)
      (ProjectSurface.condition surface) in
  let laborHours := ProjectSurface.area surface / productionRate in
  let materialCost :=
    MultiCoatSummary.totalCost (MultiCoatResult.summary materials) in
  Ok ({| SurfaceCost.description := ProjectSurface.description surface;
         SurfaceCost.area := ProjectSurface.area surface;
         SurfaceCost.materialCost := materialCost;
         SurfaceCost.laborHours := Math_round (laborHours * lit 10) / lit 10;
         SurfaceCost.laborCost := Math_round (laborHours * laborRate * crewSize)
      |},
      {| ProjectTotals.totalMaterialCost :=
           ProjectTotals.totalMaterialCost acc + materialCost;
         ProjectTotals.totalLaborHours :=
           ProjectTotals.totalLaborHours acc + laborHours;
         ProjectTotals.totalSurfaceArea :=
           ProjectTotals.totalSurfaceArea acc + ProjectSurface.area surface
      |}).

Definition estimateProjectCost (input : ProjectCostInput.t T)
  : result (ProjectCostResult.t T) :=
  let surfaces := ProjectCostInput.surfaces input in
  let laborRate := ProjectCostInput.laborRate input in
  let crewSize := ProjectCostInput.crewSize input in
  let overheadPercent := ProjectCostInput.overheadPercent input in
  let profitMargin := ProjectCostInput.profitMargin input in
  mapped <- mapWithState (surfaceCost laborRate crewSize) surfaces
              {| ProjectTotals.totalMaterialCost := lit 0;
                 ProjectTotals.totalLaborHours := lit 0;
                 ProjectTotals.totalSurfaceArea := lit 0 |} ;;
  let breakdown := fst mapped in
  let totalMaterialCost := ProjectTotals.totalMaterialCost (snd mapped) in
  let totalLaborHours := ProjectTotals.totalLaborHours (snd mapped) in
  let totalSurfaceArea := ProjectTotals.totalSurfaceArea (snd mapped) in
  let laborCost := totalLaborHours * laborRate * crewSize in
  let directCosts := totalMaterialCost + laborCost in
  let overhead := directCosts * (overheadPercent / lit 100) in
  let subtotal := directCosts + overhead in
  let profit := subtotal * (profitMargin / lit 100) in
  let total := subtotal + profit in
  Ok {|
    ProjectCostResult.breakdown := breakdown;
    ProjectCostResult.summary := {|
      ProjectSummary.totalSurfaceArea := Math_round totalSurfaceArea;
      ProjectSummary.materialCost :=
        Math_round (totalMaterialCost * lit 100) / lit 100;
      ProjectSummary.laborCost := Math_round (laborCost * lit 100) / lit 100;
      ProjectSummary.laborHours :=
        Math_round (totalLaborHours * lit 10) / lit 10;
      ProjectSummary.directCosts :=
        Math_round (directCosts * lit 100) / lit 100;
      ProjectSummary.overhead := Math_round (overhead * lit 100) / lit 100;
      ProjectSummary.profit := Math_round (profit * lit 100) / lit 100;
      ProjectSummary.total := Math_round (total * lit 100) / lit 100;
      ProjectSummary.pricePerSqFt :=
        Math_round ((total / totalSurfaceArea) * lit 100) / lit 100
    |}
  |}.

End ProjectCost.

(** ** Surface area *)

Module Shape.

Inductive t : Type := rectangular | cylindrical | spherical | complex.

End Shape.

Module Dimensions.

Record t (T : Type) : Type := mk {
  length : option T;
  width : option T;
  height : option T;
  radius : option T;
  diameter : option T;
  includeEnds : option T;
  totalArea : option T
}.

Arguments mk {T}.

Arguments length {T}.

Arguments width {T}.

Arguments height {T}.

Arguments radius {T}.

Arguments diameter {T}.

Arguments includeEnds {T}.

Arguments totalArea {T}.

End Dimensions.

Module Deduction.

Record t (T : Type) : Type := mk {
  width : T;
  height : T;
  quantity : T
}.

Arguments mk {T}.

Arguments width {T}.

Arguments height {T}.

Arguments quantity {T}.

End Deduction.

Module SurfaceAreaInput.

Record t (T : Type) : Type := mk {
  shape : Shape.t;
  dimensions : Dimensions.t T;
  deductions : option (list (Deduction.t T))
}.

Arguments mk {T}.

Arguments shape {T}.

Arguments dimensions {T}.

Arguments deductions {T}.

End SurfaceAreaInput.

Module Measurement.

Record t (T : Type) : Type := mk {
  squareFeet : T;
  squareMeters : T;
  squareYards : T
}.

Arguments mk {T}.

Arguments squareFeet {T}.

Arguments squareMeters {T}.

Arguments squareYards {T}.

End Measurement.

Module SurfaceAreaResult.

Record t (T : Type) : Type := mk {
  grossArea : T;
  deductionArea : T;
  netArea : T;
  addWasteFactor : T;
  measurement : Measurement.t T
}.

Arguments mk {T}.

Arguments grossArea {T}.

Arguments deductionArea {T}.

Arguments netArea {T}.

Arguments addWasteFactor {T}.

Arguments measurement {T}.

End SurfaceAreaResult.

Section SurfaceArea.

Context {T : Type} `{JsNum T}.

Variable Math_PI : T.

Variable Math_pow : T -> T -> T.

Open Scope js_scope.

(** The [switch] on the shape: the gross area, zero where the dimensions
    that the shape needs are missing or falsy. *)
Definition grossAreaOf (shape : Shape.t) (dimensions : Dimensions.t T) : T :=
  let grossArea := lit 0 in
  match shape with
  | Shape.rectangular =>
      let grossArea :=
        if truthyProperty (Dimensions.length dimensions)
           && truthyProperty (Dimensions.width dimensions)
        then default (lit 0) (Dimensions.length dimensions)
             * default (lit 0) (Dimensions.width dimensions)
        else grossArea in
      if truthyProperty (Dimensions.height dimensions) then
        let perimeter :=
          lit 2 * (or_zero (Dimensions.length dimensions)
                   + or_zero (Dimensions.width dimensions)) in
        perimeter * default (lit 0) (Dimensions.height dimensions)
      else grossArea
  | Shape.cylindrical =>
      if truthyProperty (Dimensions.radius dimensions)
         && truthyProperty (Dimensions.height dimensions)
      then
        let radius := default (lit 0) (Dimensions.radius dimensions) in
        let height := default (lit 0) (Dimensions.height dimensions) in
        let grossArea := lit 2 * Math_PI * radius * height in
        if truthyProperty (Dimensions.includeEnds dimensions) then
          grossArea + lit 2 * Math_PI * Math_pow radius (lit 2)
        else grossArea
      else if truthyProperty (Dimensions.diameter dimensions)
              && truthyProperty (Dimensions.height dimensions)
      then
        let radius :=
          default (lit 0) (Dimensions.diameter dimensions) / lit 2 in
        let height := default (lit 0) (Dimensions.height dimensions) in
        let grossArea := lit 2 * Math_PI * radius * height in
        if truthyProperty (Dimensions.includeEnds dimensions) then
          grossArea + lit 2 * Math_PI * Math_pow radius (lit 2)
        else grossArea
      else grossArea
  | Shape.spherical =>
      if truthyProperty (Dimensions.radius dimensions) then
        lit 4 * Math_PI
        * Math_pow (default (lit 0) (Dimensions.radius dimensions)) (lit 2)
      else if truthyProperty (Dimensions.diameter dimensions) then
        let radius :=
          default (lit 0) (Dimensions.diameter dimensions) / lit 2 in
        lit 4 * Math_PI * Math_pow radius (lit 2)
      else grossArea
  | Shape.complex => or_zero (Dimensions.totalArea dimensions)
  end.

(** [deductions.reduce(...)]: the openings to subtract. *)
Definition deductionAreaOf (deductions : list (Deduction.t T)) : T :=
  fold_left
    (fun total deduction =>
       total + (Deduction.width deduction * Deduction.height deduction
                * Deduction.quantity deduction))
    deductions (lit 0).

Definition calculateSurfaceArea (input : SurfaceAreaInput.t T)
  : result (SurfaceAreaResult.t T) :=
  let shape := SurfaceAreaInput.shape input in
  let dimensions := SurfaceAreaInput.dimensions input in
  let deductions := default [] (SurfaceAreaInput.deductions input) in
  let grossArea := grossAreaOf shape dimensions in
  let deductionArea := deductionAreaOf deductions in
  let netArea := grossArea - deductionArea in
  let addWasteFactor := netArea * lit 0.10 in
  Ok {|
    SurfaceAreaResult.grossArea := Math_round (grossArea * lit 10) / lit 10;
    SurfaceAreaResult.deductionArea :=
      Math_round (deductionArea * lit 10) / lit 10;
    SurfaceAreaResult.netArea := Math_round (netArea * lit 10) / lit 10;
    SurfaceAreaResult.addWasteFactor :=
      Math_round (addWasteFactor * lit 10) / lit 10;
    SurfaceAreaResult.measurement := {|
      Measurement.squareFeet := Math_round (netArea * lit 10) / lit 10;
      Measurement.squareMeters :=
        Math_round (netArea * lit 0.092903 * lit 100) / lit 100;
      Measurement.squareYards :=
        Math_round (netArea / lit 9 * lit 100) / lit 100
    |}
  |}.

End SurfaceArea.

(** ** Film build, practical coverage, mixing, thinning, blast profile *)

Module Coat.

Record t (T : Type) : Type := mk {
  wft : T;
  volumeSolids : T
}.

Arguments mk {T}.

Arguments wft {T}.

Arguments volumeSolids {T}.

End Coat.

Module FilmBuild.

Record t (T : Type) : Type := mk {
  totalDFT : T;
  coatBuilds : list T
}.

Arguments mk {T}.

Arguments totalDFT {T}.

Arguments coatBuilds {T}.

End FilmBuild.

Module ApplicationMethod.

Inductive t : Type := spray | roller | brush.

End ApplicationMethod.

Module MediaType.

Inductive t : Type := steel_grit | steel_shot | garnet | aluminum_oxide.

End MediaType.

Module MixResult.

Record t (T : Type) : Type := mk {
  partA : T;
  partB : T;
  partC : option T
}.

Arguments mk {T}.

Arguments partA {T}.

Arguments partB {T}.

Arguments partC {T}.

End MixResult.

Module SolventReduction.

Record t (T : Type) : Type := mk {
  solventVolume : T;
  totalVolume : T
}.

Arguments mk {T}.

Arguments solventVolume {T}.

Arguments totalVolume {T}.

End SolventReduction.

Module BlastProfile.

Record t (T : Type) : Type := mk {
  base : T;
  factor : T
}.

Arguments mk {T}.

Arguments base {T}.

Arguments factor {T}.

End BlastProfile.

Module ProfileDepth.

Record t (T : Type) : Type := mk {
  minProfile : T;
  maxProfile : T;
  typical : T
}.

Arguments mk {T}.

Arguments minProfile {T}.

Arguments maxProfile {T}.

Arguments typical {T}.

End ProfileDepth.

(** [String.prototype.split] with a separator of one character. *)
Fixpoint split (separator : ascii) (s : string) : list string :=
  match s with
  | EmptyString => [EmptyString]
  | String c rest =>
      if Ascii.eqb c separator then EmptyString :: split separator rest
      else
        match split separator rest with
        | first :: others => String c first :: others
        | [] => [String c EmptyString]
        end
  end.

Section TechnicalHelpers.

Context {T : Type} `{JsNum T}.

(** [Number(s)] for a string [s], and [NaN], which is what arithmetic makes
    of [undefined]. *)
Variable Number_of_string : string -> T.

Variable NaN : T.

Open Scope js_scope.

Definition calculateFilmBuild (coats : list (Coat.t T))
  : result (FilmBuild.t T) :=
  let coatBuilds :=
    map (fun coat => (Coat.wft coat * Coat.volumeSolids coat) / lit 100)
      coats in
  let totalDFT := fold_left (fun sum build => sum + build) coatBuilds (lit 0) in
  Ok {|
    FilmBuild.totalDFT := Math_round (totalDFT * lit 10) / lit 10;
    FilmBuild.coatBuilds :=
      map (fun build => Math_round (build * lit 10) / lit 10) coatBuilds
  |}.

Definition calculatePracticalCoverage (theoreticalCoverage : T)
    (applicationMethod : ApplicationMethod.t) : T :=
  let efficiencies (method : ApplicationMethod.t) : T :=
    match method with
    | ApplicationMethod.spray => lit 0.65
    | ApplicationMethod.roller => lit 0.85
    | ApplicationMethod.brush => lit 0.90
    end in
  let efficiency := or_else (efficiencies applicationMethod) (lit 0.65) in
  Math_round (theoreticalCoverage * efficiency * lit 10) / lit 10.

(** [parts[i]] in arithmetic: [NaN] past the end. *)
Definition part (parts : list T) (i : nat) : T :=
  match nth_error parts i with
  | Some p => p
  | None => NaN
  end.

Definition calculateMixRatio (totalVolume : T) (ratio : string)
  : result (MixResult.t T) :=
  let parts := map Number_of_string (split ":" ratio) in
  let totalParts := fold_left (fun sum part => sum + part) parts (lit 0) in
  Ok {|
    MixResult.partA :=
      Math_round ((totalVolume * part parts 0 / totalParts) * lit 100)
      / lit 100;
    MixResult.partB :=
      Math_round ((totalVolume * part parts 1 / totalParts) * lit 100)
      / lit 100;
    MixResult.partC :=
      if truthyProperty (nth_error parts 2) then
        Some (Math_round ((totalVolume * part parts 2 / totalParts) * lit 100)
              / lit 100)
      else None
  |}.

Definition calculateSolventReduction (paintVolume reductionPercent : T)
  : result (SolventReduction.t T) :=
  let solventVolume := paintVolume * (reductionPercent / lit 100) in
  let totalVolume := paintVolume + solventVolume in
  Ok {|
    SolventReduction.solventVolume :=
      Math_round (solventVolume * lit 100) / lit 100;
    SolventReduction.totalVolume :=
      Math_round (totalVolume * lit 100) / lit 100
  |}.

Definition calculateProfileDepth (mediaType : MediaType.t) (pressure : T)
  : result (ProfileDepth.t T) :=
  let profiles (media : MediaType.t) : BlastProfile.t T :=
    match media with
    | MediaType.steel_grit => BlastProfile.mk (lit 2.0) (lit 0.015)
    | MediaType.steel_shot => BlastProfile.mk (lit 1.0) (lit 0.010)
    | MediaType.garnet => BlastProfile.mk (lit 1.5) (lit 0.012)
    | MediaType.aluminum_oxide => BlastProfile.mk (lit 2.5) (lit 0.018)
    end in
  let profile := profiles mediaType in
  let typical :=
    BlastProfile.base profile
    + (pressure - lit 80) * BlastProfile.factor profile in
  Ok {|
    ProfileDepth.minProfile := Math_round ((typical * lit 0.8) * lit 10) / lit 10;
    ProfileDepth.maxProfile := Math_round ((typical * lit 1.2) * lit 10) / lit 10;
    ProfileDepth.typical := Math_round (typical * lit 10) / lit 10
  |}.

End TechnicalHelpers.

(** A zero of either sign, or [NaN]. *)
Definition zeroish (x : float) : Prop :=
  x = 0%float \/ x = (-0)%float \/ x = nan.

(** A project with no surface. *)
Definition noSurfaces (laborRate crewSize overheadPercent profitMargin : float)
  : ProjectCostInput.t float := {|
  ProjectCostInput.surfaces := [];
  ProjectCostInput.laborRate := laborRate;
  ProjectCostInput.crewSize := crewSize;
  ProjectCostInput.overheadPercent := overheadPercent;
  ProjectCostInput.profitMargin := profitMargin
|}.

(** The walls of the README's project and a ceiling whose topcoat has volume
    solids out of range. *)
Definition wallsAndBadCeiling : ProjectCostInput.t float := {|
  ProjectCostInput.surfaces := [
    {| ProjectSurface.description := "Interior Walls";
       ProjectSurface.area := 8000%float;
       ProjectSurface.type := "walls";
       ProjectSurface.condition := "good";
       ProjectSurface.height := None;
       ProjectSurface.coatingSystem := {|
         Layers.primer := Some (CoatingLayer.mk 75 3 1 (Some 35) None)%float;
         Layers.intermediate := None;
         Layers.topcoat := Some (CoatingLayer.mk 65 3 2 (Some 45) None)%float
       |};
       ProjectSurface.transferEfficiency := Some 65%float |};
    {| ProjectSurface.description := "Ceiling";
       ProjectSurface.area := 4000%float;
       ProjectSurface.type := "ceilings";
       ProjectSurface.condition := "fair";
       ProjectSurface.height := None;
       ProjectSurface.coatingSystem := {|
         Layers.primer := None;
         Layers.intermediate := None;
         Layers.topcoat := Some (CoatingLayer.mk 155 4 2 (Some 38) None)%float
       |};
       ProjectSurface.transferEfficiency := Some 65%float |} ];
  ProjectCostInput.laborRate := 45%float;
  ProjectCostInput.crewSize := 3%float;
  ProjectCostInput.overheadPercent := 15%float;
  ProjectCostInput.profitMargin := 20%float
|}.

(** The project of the README: walls and a ceiling. *)
Definition wallsAndCeiling : ProjectCostInput.t float := {|
  ProjectCostInput.surfaces := [
    {| ProjectSurface.description := "Interior Walls";
       ProjectSurface.area := 8000%float;
       ProjectSurface.type := "walls";
       ProjectSurface.condition := "good";
       ProjectSurface.height := None;
       ProjectSurface.coatingSystem := {|
         Layers.primer := Some (CoatingLayer.mk 75 3 1 (Some 35) None)%float;
         Layers.intermediate := None;
         Layers.topcoat := Some (CoatingLayer.mk 65 3 2 (Some 45) None)%float
       |};
       ProjectSurface.transferEfficiency := Some 65%float |};
    {| ProjectSurface.description := "Ceiling";
       ProjectSurface.area := 4000%float;
       ProjectSurface.type := "ceilings";
       ProjectSurface.condition := "fair";
       ProjectSurface.height := None;
       ProjectSurface.coatingSystem := {|
         Layers.primer := None;
         Layers.intermediate := None;
         Layers.topcoat := Some (CoatingLayer.mk 55 4 2 (Some 38) None)%float
       |};
       ProjectSurface.transferEfficiency := Some 65%float |} ];
  ProjectCostInput.laborRate := 45%float;
  ProjectCostInput.crewSize := 3%float;
  ProjectCostInput.overheadPercent := 15%float;
  ProjectCostInput.profitMargin := 20%float
|}.

(** No name is looked up on a prototype. *)
Definition nothingInherited {T : Type} (surfaceType condition : string)
  : option T := None.

(** Does the character occur in the string? *)
Fixpoint occurs (c : ascii) (s : string) : bool :=
  match s with
  | EmptyString => false
  | String c' rest => Ascii.eqb c' c || occurs c rest
  end.

(** A coverage input with another surface area. *)
Definition withArea {T : Type} (input : CoverageInput.t T) (area : T)
  : CoverageInput.t T := {|
  CoverageInput.surfaceArea := area;
  CoverageInput.coats := CoverageInput.coats input;
  CoverageInput.volumeSolids := CoverageInput.volumeSolids input;
  CoverageInput.targetDFT := CoverageInput.targetDFT input;
  CoverageInput.transferEfficiency := CoverageInput.transferEfficiency input;
  CoverageInput.pricePerGallon := CoverageInput.pricePerGallon input
|}.

(** One of the three cases of [zeroish], by computation. *)
Ltac zeroish_case :=
  unfold zeroish;
  first [ left; reflexivity
        | right; left; reflexivity
        | right; right; reflexivity ].

(** * IEEE 754 binary64, from its specification

    The value of a double, and the rounding that every operation ends
    with: definitions for the properties of the calculators at [binary64]. *)

Definition fexp64 (e : Z) : Z := Z.max (e - 53) (-1074).

Definition inbetween (u : Q) (m : Z) (l : location) : Prop :=
  match l with
  | loc_Exact => u == inject_Z m
  | loc_Inexact Lt => inject_Z m < u /\ u < inject_Z m + (1 # 2)
  | loc_Inexact Eq => u == inject_Z m + (1 # 2)
  | loc_Inexact Gt => inject_Z m + (1 # 2) < u /\ u < inject_Z m + 1
  end.

Definition rne (u : Q) : Z :=
  let f := Qfloor u in
  match Qcompare (u - inject_Z f) (1 # 2) with
  | Lt => f
  | Gt => (f + 1)%Z
  | Eq => if Z.even f then f else (f + 1)%Z
  end.

Definition pack (s : bool) (n e : Z) : spec_float :=
  match n with
  | Z0 => S754_zero s
  | Zpos p =>
      if (n =? 2 ^ 53)%Z then
        if (e + 1 <=? 971)%Z then S754_finite s (2 ^ 52) (e + 1)
        else S754_infinity s
      else if (e <=? 971)%Z then S754_finite s p e else S754_infinity s
  | Zneg _ => S754_nan
  end.

Definition B2Q (x : spec_float) : Q :=
  match x with
  | S754_finite s m e =>
      (if s then - inject_Z (Z.pos m) else inject_Z (Z.pos m)) * 2 ^ e
  | S754_infinity s => if s then - 2 ^ 1024 else 2 ^ 1024
  | _ => 0
  end.

Definition to_Q (x : float) : Q := B2Q (Prim2SF x).

Definition is_mag (v : Q) (M : Z) : Prop := 2 ^ (M - 1) <= v /\ v < 2 ^ M.

Definition rnd (v : Q) (M : Z) : Q :=
  inject_Z (rne (v * 2 ^ (- fexp64 M))) * 2 ^ fexp64 M.

Definition round64 (s : bool) (v : Q) (M : Z) : spec_float :=
  pack s (rne (v * 2 ^ (- fexp64 M))) (fexp64 M).

(** A double that is zero, positive or [+Infinity]. *)
Definition nonneg (x : spec_float) : Prop :=
  match x with
  | S754_zero _ => True
  | S754_finite s _ _ => s = false
  | S754_infinity s => s = false
  | S754_nan => False
  end.

Definition canonical (m : positive) (e : Z) : Prop :=
  fexp64 (Z.pos (digits2_pos m) + e) = e /\ (e <= 971)%Z.

(** A double that is positive and finite. *)
Definition positive_finite (x : float) : Prop :=
  exists m e, Prim2SF x = S754_finite false m e.

(** A double that is [+0], [-0], positive or [+Infinity]. *)
Definition not_negative (x : float) : Prop := nonneg (Prim2SF x).

(** [z] is the positive rational [v] rounded to a double. *)
Definition rounds_to (v : Q) (z : float) : Prop :=
  exists M, is_mag v M /\ Prim2SF z = round64 false v M.

(** A double that is positive, finite or [+Infinity]. *)
Definition positive_or_infinite (x : float) : Prop :=
  positive_finite x \/ Prim2SF x = S754_infinity false.

(** Two doubles that are not negative, the first at most the second. *)
Definition ordered (x y : float) : Prop :=
  not_negative x /\ not_negative y /\ to_Q x <= to_Q y.

(** * Properties *)

(** ** The arithmetic of doubles

    Multiplication, division and addition of positive doubles round the
    exact result to the nearest double, ties to even: from the
    specification of the primitive operations. *)

Lemma fexp64_eq (e : Z) : SpecFloat.fexp prec emax e = fexp64 e.
Proof. reflexivity. Qed.

Lemma iter_pos_nat {A : Type} (f : A -> A) (p : positive) (x : A) :
  iter_pos f p x = Nat.iter (Pos.to_nat p) f x.
Proof.
  revert x. induction p as [p IH | p IH | ]; intros x; cbn [iter_pos].
  - rewrite !IH, Pos2Nat.inj_xI, <- Nat.iter_add, <- Nat.iter_succ_r.
    f_equal. lia.
  - rewrite !IH, Pos2Nat.inj_xO, <- Nat.iter_add. f_equal. lia.
  - reflexivity.
Qed.

Lemma inject_Z_xO (p : positive) : inject_Z (Zpos p~0) == 2 * inject_Z (Zpos p).
Proof. rewrite <- (inject_Z_mult 2). reflexivity. Qed.

Lemma inject_Z_xI (p : positive) :
  inject_Z (Zpos p~1) == 2 * inject_Z (Zpos p) + 1.
Proof. rewrite <- (inject_Z_mult 2), <- (inject_Z_plus _ 1). reflexivity. Qed.

(** One step of the right shift halves the value the record stands for. *)
Lemma shr_1_inbetween (u : Q) (mrs : shr_record) :
  (0 <= shr_m mrs)%Z ->
  inbetween u (shr_m mrs) (loc_of_shr_record mrs) ->
  (0 <= shr_m (shr_1 mrs))%Z
  /\ inbetween (u * (1 # 2)) (shr_m (shr_1 mrs)) (loc_of_shr_record (shr_1 mrs)).
Proof.
  destruct mrs as [m r s]. cbn [shr_m]. intros Hm.
  destruct m as [ | [p | p | ] | p]; [ | | | | lia];
    destruct r, s; cbn [shr_1 loc_of_shr_record inbetween shr_m orb];
    rewrite ?inject_Z_xO, ?inject_Z_xI;
    change (inject_Z 0) with 0; change (inject_Z 1) with 1;
    intros Hu; (split; [lia | ]);
    try match type of Hu with _ /\ _ => destruct Hu end;
    try split; lra.
Qed.

Lemma inbetween_wd (u u' : Q) (m : Z) (l : location) :
  u == u' -> inbetween u m l -> inbetween u' m l.
Proof.
  intros Hu. destruct l as [ | [ | | ]]; cbn [inbetween]; rewrite Hu; auto.
Qed.

Lemma two_to_pos (e : Z) : 0 < 2 ^ e.
Proof. apply Qpower_0_lt. reflexivity. Qed.

Lemma two_to_plus (a b : Z) : 2 ^ (a + b) == 2 ^ a * 2 ^ b.
Proof. apply Qpower_plus. discriminate. Qed.

Lemma two_to_minus (a b : Z) : 2 ^ (a - b) == 2 ^ a / 2 ^ b.
Proof. apply Qpower_minus. discriminate. Qed.

Lemma two_to_opp (a : Z) : 2 ^ (- a) == / 2 ^ a.
Proof. apply Qpower_opp. Qed.

Lemma two_to_succ (a : Z) : 2 ^ (a + 1) == 2 * 2 ^ a.
Proof. rewrite two_to_plus. change (2 ^ 1) with 2. ring. Qed.

Lemma two_to_pred (a : Z) : 2 ^ (a - 1) == (1 # 2) * 2 ^ a.
Proof.
  rewrite two_to_minus. change (2 ^ 1) with 2. field.
Qed.

Lemma two_to_le (a b : Z) : (a <= b)%Z -> 2 ^ a <= 2 ^ b.
Proof. intros Hab. apply Qpower_le_compat_l; [exact Hab | discriminate]. Qed.

Lemma two_to_lt (a b : Z) : (a < b)%Z -> 2 ^ a < 2 ^ b.
Proof. intros Hab. apply Qpower_lt_compat_l; [exact Hab | reflexivity]. Qed.

Lemma two_to_inject (n : Z) : (0 <= n)%Z -> inject_Z (2 ^ n) == 2 ^ n.
Proof. intros Hn. now rewrite Zpower_Qpower. Qed.

Lemma shr_iter_inbetween (k : nat) (u : Q) (mrs : shr_record) :
  (0 <= shr_m mrs)%Z ->
  inbetween u (shr_m mrs) (loc_of_shr_record mrs) ->
  (0 <= shr_m (Nat.iter k shr_1 mrs))%Z
  /\ inbetween (u * 2 ^ (- Z.of_nat k)) (shr_m (Nat.iter k shr_1 mrs))
       (loc_of_shr_record (Nat.iter k shr_1 mrs)).
Proof.
  intros Hm Hu. induction k as [ | k [IHm IHu]].
  - split; [exact Hm | ]. cbn [Nat.iter]. apply (inbetween_wd u); [ | exact Hu].
    change (2 ^ (- Z.of_nat 0)) with 1. ring.
  - cbn [Nat.iter].
    destruct (shr_1_inbetween _ _ IHm IHu) as [Hm' Hu'].
    split; [exact Hm' | ].
    apply (inbetween_wd (u * 2 ^ (- Z.of_nat k) * (1 # 2))); [ | exact Hu'].
    rewrite Nat2Z.inj_succ. unfold Z.succ.
    replace (- (Z.of_nat k + 1))%Z with (- Z.of_nat k - 1)%Z by lia.
    rewrite two_to_pred. ring.
Qed.

Lemma shr_inbetween (u : Q) (mrs : shr_record) (e n : Z) :
  (0 <= shr_m mrs)%Z ->
  inbetween u (shr_m mrs) (loc_of_shr_record mrs) ->
  snd (shr mrs e n) = (e + Z.max n 0)%Z
  /\ (0 <= shr_m (fst (shr mrs e n)))%Z
  /\ inbetween (u * 2 ^ (- Z.max n 0)) (shr_m (fst (shr mrs e n)))
       (loc_of_shr_record (fst (shr mrs e n))).
Proof.
  intros Hm Hu. destruct n as [ | p | p]; cbn [shr fst snd].
  - split; [cbn; lia | ]. split; [exact Hm | ].
    apply (inbetween_wd u); [ | exact Hu]. change (2 ^ (- Z.max 0 0)) with 1. ring.
  - split; [lia | ]. rewrite iter_pos_nat.
    replace (Z.max (Z.pos p) 0) with (Z.of_nat (Pos.to_nat p)) by lia.
    now apply shr_iter_inbetween.
  - split; [cbn; lia | ]. split; [exact Hm | ].
    apply (inbetween_wd u); [ | exact Hu].
    replace (Z.max (Z.neg p) 0) with 0%Z by lia.
    change (2 ^ (- 0)) with 1. ring.
Qed.

Lemma shr_record_of_loc_m (m : Z) (l : location) :
  shr_m (shr_record_of_loc m l) = m.
Proof. destruct l as [ | [ | | ]]; reflexivity. Qed.

Lemma loc_of_shr_record_of_loc (m : Z) (l : location) :
  loc_of_shr_record (shr_record_of_loc m l) = l.
Proof. destruct l as [ | [ | | ]]; reflexivity. Qed.

Lemma shr_fexp_inbetween (u : Q) (m e : Z) (l : location) :
  (0 <= m)%Z -> inbetween u m l ->
  let k := Z.max (fexp64 (Zdigits2 m + e) - e) 0 in
  snd (shr_fexp prec emax m e l) = (e + k)%Z
  /\ (0 <= shr_m (fst (shr_fexp prec emax m e l)))%Z
  /\ inbetween (u * 2 ^ (- k)) (shr_m (fst (shr_fexp prec emax m e l)))
       (loc_of_shr_record (fst (shr_fexp prec emax m e l))).
Proof.
  intros Hm Hu k. unfold shr_fexp. rewrite fexp64_eq.
  apply shr_inbetween.
  - now rewrite shr_record_of_loc_m.
  - now rewrite shr_record_of_loc_m, loc_of_shr_record_of_loc.
Qed.

(** *** Rounding to the nearest integer, ties to even *)

Lemma Qfloor_between (u : Q) (m : Z) :
  inject_Z m <= u -> u < inject_Z m + 1 -> Qfloor u = m.
Proof.
  intros Hlow Hhigh.
  assert (Hz : (m <= Qfloor u)%Z).
  { rewrite <- (Qfloor_Z m). now apply Qfloor_resp_le. }
  assert (Hlt : inject_Z (Qfloor u) < inject_Z (m + 1)).
  { rewrite inject_Z_plus. change (inject_Z 1) with 1.
    pose proof (Qfloor_le u). lra. }
  rewrite <- Zlt_Qlt in Hlt. lia.
Qed.

Lemma round_nearest_even_rne (u : Q) (m : Z) (l : location) :
  inbetween u m l -> round_nearest_even m l = rne u.
Proof.
  intros Hu. unfold rne.
  assert (Hfloor : Qfloor u = m).
  { apply Qfloor_between; destruct l as [ | [ | | ]]; cbn [inbetween] in Hu; lra. }
  rewrite Hfloor.
  destruct l as [ | [ | | ]]; cbn [inbetween round_nearest_even] in *.
  - assert (Hc : Qcompare (u - inject_Z m) (1 # 2) = Lt)
      by (rewrite <- Qlt_alt; lra).
    now rewrite Hc.
  - assert (Hc : Qcompare (u - inject_Z m) (1 # 2) = Eq)
      by (rewrite <- Qeq_alt; lra).
    now rewrite Hc.
  - assert (Hc : Qcompare (u - inject_Z m) (1 # 2) = Lt)
      by (rewrite <- Qlt_alt; lra).
    now rewrite Hc.
  - assert (Hc : Qcompare (u - inject_Z m) (1 # 2) = Gt)
      by (rewrite <- Qgt_alt; lra).
    now rewrite Hc.
Qed.

Lemma rne_cases (u : Q) :
  (rne u = Qfloor u /\ u - inject_Z (Qfloor u) <= 1 # 2)
  \/ (rne u = (Qfloor u + 1)%Z /\ 1 # 2 <= u - inject_Z (Qfloor u)).
Proof.
  unfold rne.
  destruct (Qcompare_spec (u - inject_Z (Qfloor u)) (1 # 2)) as [Hc | Hc | Hc].
  - destruct (Z.even (Qfloor u)); [left | right]; split; try reflexivity; lra.
  - left. split; [reflexivity | lra].
  - right. split; [reflexivity | lra].
Qed.

Lemma rne_wd (u u' : Q) : u == u' -> rne u = rne u'.
Proof.
  intros Hu. unfold rne.
  assert (Hf : Qfloor u' = Qfloor u) by (apply Qfloor_comp; now symmetry).
  rewrite Hf.
  assert (Hc : Qcompare (u - inject_Z (Qfloor u)) (1 # 2)
               = Qcompare (u' - inject_Z (Qfloor u)) (1 # 2)).
  { apply Qcompare_comp; [lra | reflexivity]. }
  now rewrite Hc.
Qed.

Lemma rne_inject_Z (z : Z) : rne (inject_Z z) = z.
Proof.
  unfold rne. rewrite Qfloor_Z.
  assert (Hc : Qcompare (inject_Z z - inject_Z z) (1 # 2) = Lt)
    by (rewrite <- Qlt_alt; lra).
  now rewrite Hc.
Qed.

Lemma rne_error (u : Q) :
  inject_Z (rne u) - u <= 1 # 2 /\ u - inject_Z (rne u) <= 1 # 2.
Proof.
  pose proof (Qfloor_le u) as Hlow. pose proof (Qlt_floor u) as Hhigh.
  rewrite inject_Z_plus in Hhigh. change (inject_Z 1) with 1 in Hhigh.
  destruct (rne_cases u) as [[-> Hc] | [-> Hc]].
  - split; lra.
  - rewrite inject_Z_plus. change (inject_Z 1) with 1. split; lra.
Qed.

Lemma rne_monotone (u v : Q) : u <= v -> (rne u <= rne v)%Z.
Proof.
  intros Huv.
  pose proof (Qfloor_resp_le _ _ Huv) as Hfloor.
  destruct (Z.eq_dec (Qfloor u) (Qfloor v)) as [Heq | Hne].
  - unfold rne. rewrite <- Heq.
    destruct (Qcompare_spec (u - inject_Z (Qfloor u)) (1 # 2)) as [Hc | Hc | Hc];
      destruct (Qcompare_spec (v - inject_Z (Qfloor u)) (1 # 2)) as [Hd | Hd | Hd];
      try destruct (Z.even (Qfloor u)); try lia; lra.
  - destruct (rne_cases u) as [[-> _] | [-> _]];
      destruct (rne_cases v) as [[-> _] | [-> _]]; lia.
Qed.

Lemma rne_at_least (u : Q) (z : Z) : inject_Z z <= u -> (z <= rne u)%Z.
Proof. intros Hu. rewrite <- (rne_inject_Z z). now apply rne_monotone. Qed.

Lemma rne_at_most (u : Q) (z : Z) : u <= inject_Z z -> (rne u <= z)%Z.
Proof. intros Hu. rewrite <- (rne_inject_Z z). now apply rne_monotone. Qed.

(** *** The number of binary digits *)

Lemma digits2_pos_bounds (m : positive) :
  (2 ^ (Z.pos (digits2_pos m) - 1) <= Z.pos m < 2 ^ Z.pos (digits2_pos m))%Z.
Proof.
  induction m as [m IH | m IH | ]; cbn [digits2_pos].
  - rewrite Pos2Z.inj_succ. unfold Z.succ.
    replace (Z.pos (digits2_pos m) + 1 - 1)%Z
      with (Z.pos (digits2_pos m) - 1 + 1)%Z by lia.
    rewrite !Z.pow_add_r by lia. change (2 ^ 1)%Z with 2%Z. lia.
  - rewrite Pos2Z.inj_succ. unfold Z.succ.
    replace (Z.pos (digits2_pos m) + 1 - 1)%Z
      with (Z.pos (digits2_pos m) - 1 + 1)%Z by lia.
    rewrite !Z.pow_add_r by lia. change (2 ^ 1)%Z with 2%Z. lia.
  - cbn. lia.
Qed.

Lemma Zdigits2_bounds (m : Z) :
  (0 < m)%Z -> (2 ^ (Zdigits2 m - 1) <= m < 2 ^ Zdigits2 m)%Z.
Proof.
  destruct m as [ | p | p]; try lia. intros _. apply digits2_pos_bounds.
Qed.

Lemma Zdigits2_pos (m : Z) : (0 < m)%Z -> (0 < Zdigits2 m)%Z.
Proof. destruct m; cbn; lia. Qed.

Lemma Zdigits2_unique (m d : Z) :
  (2 ^ (d - 1) <= m < 2 ^ d)%Z -> (0 < d)%Z -> Zdigits2 m = d.
Proof.
  intros [Hlow Hhigh] Hd.
  assert (Hm : (0 < m)%Z).
  { assert (0 < 2 ^ (d - 1))%Z by (apply Z.pow_pos_nonneg; lia). lia. }
  pose proof (Zdigits2_bounds m Hm) as [Hl Hh].
  pose proof (Zdigits2_pos m Hm) as Hp.
  destruct (Z.lt_trichotomy (Zdigits2 m) d) as [Hlt | [Heq | Hgt]];
    [ | exact Heq | ].
  - assert (2 ^ Zdigits2 m <= 2 ^ (d - 1))%Z
      by (apply Z.pow_le_mono_r; lia). lia.
  - assert (2 ^ d <= 2 ^ (Zdigits2 m - 1))%Z
      by (apply Z.pow_le_mono_r; lia). lia.
Qed.

(** *** The rounding step of every operation *)

Lemma inbetween_bounds (u : Q) (m : Z) (l : location) :
  inbetween u m l -> inject_Z m <= u /\ u < inject_Z m + 1.
Proof. destruct l as [ | [ | | ]]; cbn [inbetween]; intros Hu; split; lra. Qed.

Lemma Zdigits2_Q_bounds (m : Z) :
  (0 < m)%Z ->
  2 ^ (Zdigits2 m - 1) <= inject_Z m /\ inject_Z m + 1 <= 2 ^ Zdigits2 m.
Proof.
  intros Hm. pose proof (Zdigits2_bounds m Hm) as [Hlow Hhigh].
  pose proof (Zdigits2_pos m Hm) as Hd.
  rewrite <- !two_to_inject by lia.
  change 1 with (inject_Z 1). rewrite <- inject_Z_plus, <- !Zle_Qle. lia.
Qed.

Lemma scaled_range (u : Q) (mx ex : Z) (lx : location) :
  (0 <= mx)%Z -> inbetween u mx lx ->
  let e := fexp64 (Zdigits2 mx + ex) in
  (ex <= e)%Z -> (mx = 0%Z -> e = (-1074)%Z) ->
  0 <= u * 2 ^ (ex - e) /\ u * 2 ^ (ex - e) < 2 ^ 53
  /\ (e = (-1074)%Z \/ 2 ^ 52 <= u * 2 ^ (ex - e)).
Proof.
  intros Hmx Hu e Hex Hzero.
  pose proof (inbetween_bounds _ _ _ Hu) as [Hlow Hhigh].
  pose proof (two_to_pos (ex - e)) as Hscale.
  assert (Hm0 : 0 <= inject_Z mx) by (change 0 with (inject_Z 0); now rewrite <- Zle_Qle).
  split; [apply Qmult_le_0_compat; lra | ].
  destruct (Z.eq_dec mx 0) as [Hz | Hnz].
  - split; [ | left; auto].
    subst mx. change (inject_Z 0) with 0 in *.
    assert (Hone : 2 ^ (ex - e) <= 2 ^ 0) by (apply two_to_le; lia).
    change (2 ^ 0) with 1 in Hone.
    assert (H53 : 1 <= 2 ^ 53) by discriminate.
    nra.
  - assert (Hpos : (0 < mx)%Z) by lia.
    pose proof (Zdigits2_Q_bounds mx Hpos) as [Hdl Hdh].
    set (d := Zdigits2 mx) in *.
    assert (He : (d + ex - 53 <= e)%Z) by (unfold e, fexp64; lia).
    split.
    + apply Qlt_le_trans with (2 ^ d * 2 ^ (ex - e)).
      * apply Qmult_lt_compat_r; lra.
      * rewrite <- two_to_plus. apply two_to_le. lia.
    + destruct (Z.eq_dec e (-1074)) as [Hmin | Hnormal]; [now left | right].
      assert (He' : e = (d + ex - 53)%Z) by (unfold e, fexp64 in *; lia).
      apply Qle_trans with (2 ^ (d - 1) * 2 ^ (ex - e)).
      * rewrite <- two_to_plus. apply two_to_le. lia.
      * apply Qmult_le_compat_r; lra.
Qed.

Lemma shr_fexp_noshift (n e : Z) :
  (fexp64 (Zdigits2 n + e) <= e)%Z ->
  shr_fexp prec emax n e loc_Exact = (Build_shr_record n false false, e).
Proof.
  intros Hk. unfold shr_fexp. rewrite fexp64_eq. cbn [shr_record_of_loc].
  destruct (fexp64 (Zdigits2 n + e) - e)%Z eqn:Hshift; try reflexivity. lia.
Qed.

Lemma shr_fexp_carry (e : Z) :
  (-1074 <= e)%Z ->
  shr_fexp prec emax (2 ^ 53) e loc_Exact
  = (Build_shr_record (2 ^ 52) false false, (e + 1)%Z).
Proof.
  intros He. unfold shr_fexp. rewrite fexp64_eq. cbn [shr_record_of_loc].
  change (Zdigits2 (2 ^ 53)) with 54%Z.
  replace (fexp64 (54 + e) - e)%Z with 1%Z by (unfold fexp64; lia).
  reflexivity.
Qed.

Lemma fexp64_min (e : Z) : (-1074 <= fexp64 e)%Z.
Proof. unfold fexp64. lia. Qed.

Theorem binary_round_aux_correct (sx : bool) (mx ex : Z) (lx : location)
    (u : Q) :
  (0 <= mx)%Z -> inbetween u mx lx ->
  let e := fexp64 (Zdigits2 mx + ex) in
  (ex <= e)%Z -> (mx = 0%Z -> e = (-1074)%Z) ->
  binary_round_aux prec emax sx mx ex lx
  = pack sx (rne (u * 2 ^ (ex - e))) e.
Proof.
  intros Hmx Hu e Hex Hzero.
  destruct (scaled_range u mx ex lx Hmx Hu Hex Hzero) as (Hlow & Hhigh & Hnormal).
  fold e in Hlow, Hhigh, Hnormal.
  unfold binary_round_aux.
  pose proof (shr_fexp_inbetween u mx ex lx Hmx Hu) as (He' & Hm' & Hu').
  cbv zeta in He', Hm', Hu'. fold e in He', Hu'.
  replace (Z.max (e - ex) 0) with (e - ex)%Z in He', Hu' by lia.
  destruct (shr_fexp prec emax mx ex lx) as [mrs' e'].
  cbn [fst snd] in He', Hm', Hu'.
  rewrite (round_nearest_even_rne _ _ _ Hu').
  replace e' with e by lia.
  rewrite (rne_wd _ (u * 2 ^ (ex - e)))
    by (replace (- (e - ex))%Z with (ex - e)%Z by lia; reflexivity).
  set (n := rne (u * 2 ^ (ex - e))).
  assert (Hn0 : (0 <= n)%Z) by (apply rne_at_least; exact Hlow).
  assert (Hn53 : (n <= 2 ^ 53)%Z).
  { apply rne_at_most. rewrite two_to_inject by lia. lra. }
  assert (Hn52 : e = (-1074)%Z \/ (2 ^ 52 <= n)%Z).
  { destruct Hnormal as [Hmin | H52]; [now left | right].
    apply rne_at_least. rewrite two_to_inject by lia. exact H52. }
  pose proof (fexp64_min (Zdigits2 mx + ex)) as Hemin. fold e in Hemin.
  destruct (Z.eq_dec n (2 ^ 53)) as [Hcarry | Hnocarry].
  - rewrite Hcarry, shr_fexp_carry by exact Hemin. reflexivity.
  - rewrite shr_fexp_noshift.
    + cbn [shr_m]. unfold pack.
      destruct n as [ | p | p]; [reflexivity | | lia].
      apply Z.eqb_neq in Hnocarry. rewrite Hnocarry. reflexivity.
    + destruct (Z.eq_dec n 0) as [Hn | Hn].
      * rewrite Hn. cbn [Zdigits2]. destruct Hn52 as [Hmin | H52]; [ | lia].
        unfold fexp64. lia.
      * assert (Hd : (Zdigits2 n <= 53)%Z).
        { assert (Hpos : (0 < n)%Z) by lia.
          pose proof (Zdigits2_bounds n Hpos) as [Hl _].
          destruct (Z.le_gt_cases (Zdigits2 n) 53) as [Hle | Hgt]; [exact Hle | ].
          assert (2 ^ 53 <= 2 ^ (Zdigits2 n - 1))%Z
            by (apply Z.pow_le_mono_r; lia).
          lia. }
        unfold fexp64. lia.
Qed.

Lemma valid_canonical (s : bool) (m : positive) (e : Z) :
  valid_binary (S754_finite s m e) = true -> canonical m e.
Proof.
  cbn [valid_binary]. unfold bounded, canonical_mantissa. rewrite fexp64_eq.
  intros Hvalid. apply andb_prop in Hvalid as [Hc He].
  apply Z.eqb_eq in Hc. apply Z.leb_le in He. split; [exact Hc | exact He].
Qed.

Lemma Prim2SF_canonical (x : float) (s : bool) (m : positive) (e : Z) :
  Prim2SF x = S754_finite s m e -> canonical m e.
Proof.
  intros Hx. apply (valid_canonical s). rewrite <- Hx. apply Prim2SF_valid.
Qed.

(** The mantissa of a canonical double has at most 53 bits, and exactly 53
    above the least exponent. *)
Lemma canonical_bounds (m : positive) (e : Z) :
  canonical m e ->
  (Z.pos m < 2 ^ 53)%Z /\ (-1074 <= e <= 971)%Z
  /\ (e = (-1074)%Z \/ (2 ^ 52 <= Z.pos m)%Z).
Proof.
  intros [Hc He]. pose proof (digits2_pos_bounds m) as [Hlow Hhigh].
  set (d := Z.pos (digits2_pos m)) in *.
  assert (Hd : (0 < d)%Z) by (unfold d; lia).
  unfold fexp64 in Hc.
  assert (Hd53 : (d <= 53)%Z) by lia.
  split.
  - assert (2 ^ d <= 2 ^ 53)%Z by (apply Z.pow_le_mono_r; lia). lia.
  - split; [lia | ].
    destruct (Z.eq_dec e (-1074)) as [Hmin | Hn]; [now left | right].
    assert (Hd' : d = 53%Z) by lia. rewrite Hd' in Hlow. exact Hlow.
Qed.

Lemma canonical_mag (m : positive) (e : Z) :
  is_mag (inject_Z (Z.pos m) * 2 ^ e) (Z.pos (digits2_pos m) + e).
Proof.
  pose proof (Zdigits2_Q_bounds (Z.pos m) eq_refl) as [Hlow Hhigh].
  cbn [Zdigits2] in Hlow, Hhigh.
  pose proof (two_to_pos e) as He.
  unfold is_mag. split.
  - replace (Z.pos (digits2_pos m) + e - 1)%Z
      with (Z.pos (digits2_pos m) - 1 + e)%Z by lia.
    rewrite two_to_plus. apply Qmult_le_compat_r; lra.
  - rewrite two_to_plus. apply Qmult_lt_compat_r; lra.
Qed.

Lemma is_mag_unique (v w : Q) (M N : Z) :
  is_mag v M -> is_mag w N -> v <= w -> (M <= N)%Z.
Proof.
  intros [Hv1 Hv2] [Hw1 Hw2] Hvw.
  destruct (Z.le_gt_cases M N) as [Hle | Hgt]; [exact Hle | ].
  assert (2 ^ N <= 2 ^ (M - 1)) by (apply two_to_le; lia). lra.
Qed.

Lemma is_mag_wd (v w : Q) (M : Z) : v == w -> is_mag v M -> is_mag w M.
Proof. intros Hvw [H1 H2]. split; lra. Qed.

(** *** Comparison of doubles and of their values *)

Lemma finite_value_pos (m : positive) (e : Z) : 0 < inject_Z (Z.pos m) * 2 ^ e.
Proof.
  apply Qmult_lt_0_compat; [ | apply two_to_pos].
  change 0 with (inject_Z 0). rewrite <- Zlt_Qlt. lia.
Qed.

Lemma canonical_below_infinity (m : positive) (e : Z) :
  canonical m e -> inject_Z (Z.pos m) * 2 ^ e < 2 ^ 1024.
Proof.
  intros Hc. destruct (canonical_bounds m e Hc) as (Hm & He & _).
  apply Qlt_le_trans with (2 ^ 53 * 2 ^ e).
  - apply Qmult_lt_compat_r; [apply two_to_pos | ].
    rewrite <- two_to_inject by lia. rewrite <- Zlt_Qlt. exact Hm.
  - rewrite <- two_to_plus. apply two_to_le. lia.
Qed.

Lemma canonical_lt (m1 m2 : positive) (e1 e2 : Z) :
  canonical m1 e1 -> canonical m2 e2 -> (e1 < e2)%Z ->
  inject_Z (Z.pos m1) * 2 ^ e1 < inject_Z (Z.pos m2) * 2 ^ e2.
Proof.
  intros H1 H2 He.
  destruct (canonical_bounds m1 e1 H1) as (Hm1 & He1 & _).
  destruct (canonical_bounds m2 e2 H2) as (_ & He2 & [Hmin | Hm2]); [lia | ].
  apply Qlt_le_trans with (2 ^ 53 * 2 ^ e1).
  - apply Qmult_lt_compat_r; [apply two_to_pos | ].
    rewrite <- two_to_inject by lia. rewrite <- Zlt_Qlt. exact Hm1.
  - apply Qle_trans with (2 ^ 52 * 2 ^ e2).
    + rewrite <- !two_to_plus. apply two_to_le. lia.
    + apply Qmult_le_compat_r; [ | apply Qlt_le_weak, two_to_pos].
      rewrite <- two_to_inject by lia. rewrite <- Zle_Qle. exact Hm2.
Qed.

Lemma SFcompare_values (x y : spec_float) :
  valid_binary x = true -> valid_binary y = true -> nonneg x -> nonneg y ->
  SFcompare x y = Some (Qcompare (B2Q x) (B2Q y)).
Proof.
  intros Hvx Hvy Hx Hy.
  destruct x as [sx | sx | | sx mx ex]; cbn [nonneg] in Hx; try contradiction;
    destruct y as [sy | sy | | sy my ey]; cbn [nonneg] in Hy; try contradiction;
    subst; cbn [SFcompare B2Q].
  - reflexivity.
  - reflexivity.
  - f_equal. symmetry. apply Qlt_alt. apply finite_value_pos.
  - reflexivity.
  - reflexivity.
  - f_equal. symmetry. apply Qgt_alt.
    apply canonical_below_infinity. now apply (valid_canonical false).
  - f_equal. symmetry. apply Qgt_alt. apply finite_value_pos.
  - f_equal. symmetry. apply Qlt_alt.
    apply canonical_below_infinity. now apply (valid_canonical false).
  - apply (valid_canonical false) in Hvx, Hvy. f_equal.
    destruct (Z.compare_spec ex ey) as [Heq | Hlt | Hgt].
    + subst ey. rewrite Pos.compare_cont_spec. cbn [Pos.switch_Eq].
      pose proof (two_to_pos ex) as He.
      destruct (Pos.compare_spec mx my) as [Hm | Hm | Hm]; symmetry.
      * subst. apply Qeq_alt. reflexivity.
      * apply Qlt_alt. apply Qmult_lt_compat_r; [exact He | ].
        rewrite <- Zlt_Qlt. lia.
      * apply Qgt_alt. apply Qmult_lt_compat_r; [exact He | ].
        rewrite <- Zlt_Qlt. lia.
    + symmetry. apply Qlt_alt. now apply canonical_lt.
    + symmetry. apply Qgt_alt. apply canonical_lt; auto; lia.
Qed.

Lemma SFleb_values (x y : spec_float) :
  valid_binary x = true -> valid_binary y = true -> nonneg x -> nonneg y ->
  SFleb x y = true <-> B2Q x <= B2Q y.
Proof.
  intros Hvx Hvy Hx Hy. unfold SFleb.
  rewrite (SFcompare_values x y Hvx Hvy Hx Hy).
  destruct (Qcompare_spec (B2Q x) (B2Q y)) as [Hc | Hc | Hc];
    split; intros H; try reflexivity; try discriminate; lra.
Qed.

Lemma SFltb_values (x y : spec_float) :
  valid_binary x = true -> valid_binary y = true -> nonneg x -> nonneg y ->
  SFltb x y = true <-> B2Q x < B2Q y.
Proof.
  intros Hvx Hvy Hx Hy. unfold SFltb.
  rewrite (SFcompare_values x y Hvx Hvy Hx Hy).
  destruct (Qcompare_spec (B2Q x) (B2Q y)) as [Hc | Hc | Hc];
    split; intros H; try reflexivity; try discriminate; lra.
Qed.

(** *** Rounding a positive rational to a double *)

Lemma two_to_cancel (v : Q) (e : Z) : v * 2 ^ (- e) * 2 ^ e == v.
Proof.
  rewrite <- Qmult_assoc, <- two_to_plus.
  replace (- e + e)%Z with 0%Z by lia. change (2 ^ 0) with 1. ring.
Qed.

Lemma mag_scaled (v : Q) (M : Z) :
  is_mag v M ->
  0 < v * 2 ^ (- fexp64 M) /\ v * 2 ^ (- fexp64 M) < 2 ^ 53
  /\ (fexp64 M = (-1074)%Z \/ 2 ^ 52 <= v * 2 ^ (- fexp64 M)).
Proof.
  intros [Hlow Hhigh]. set (e := fexp64 M).
  pose proof (two_to_pos (- e)) as Hs. pose proof (two_to_pos (M - 1)) as Hp.
  assert (He : (M - 53 <= e)%Z) by (unfold e, fexp64; lia).
  split; [apply Qmult_lt_0_compat; lra | ]. split.
  - apply Qlt_le_trans with (2 ^ M * 2 ^ (- e)).
    + apply Qmult_lt_compat_r; lra.
    + rewrite <- two_to_plus. apply two_to_le. lia.
  - destruct (Z.eq_dec e (-1074)) as [Hmin | Hn]; [now left | right].
    assert (He' : e = (M - 53)%Z) by (unfold e, fexp64 in *; lia).
    apply Qle_trans with (2 ^ (M - 1) * 2 ^ (- e)).
    + rewrite <- two_to_plus. apply two_to_le. lia.
    + apply Qmult_le_compat_r; lra.
Qed.

Lemma mantissa_range (v : Q) (M : Z) :
  is_mag v M ->
  (0 <= rne (v * 2 ^ (- fexp64 M)) <= 2 ^ 53)%Z
  /\ (fexp64 M = (-1074)%Z \/ (2 ^ 52 <= rne (v * 2 ^ (- fexp64 M)))%Z).
Proof.
  intros Hmag. destruct (mag_scaled v M Hmag) as (H0 & H53 & H52).
  split; [split | ].
  - apply rne_at_least. change (inject_Z 0) with 0. lra.
  - apply rne_at_most. rewrite (two_to_inject 53) by lia. lra.
  - destruct H52 as [Hmin | H52]; [now left | right].
    apply rne_at_least. rewrite (two_to_inject 52) by lia. exact H52.
Qed.

Lemma rnd_nonneg (v : Q) (M : Z) : is_mag v M -> 0 <= rnd v M.
Proof.
  intros Hmag. destruct (mantissa_range v M Hmag) as [[Hn _] _].
  unfold rnd. apply Qmult_le_0_compat; [ | apply Qlt_le_weak, two_to_pos].
  change 0 with (inject_Z 0). now rewrite <- Zle_Qle.
Qed.

Lemma rnd_monotone (v w : Q) (M N : Z) :
  is_mag v M -> is_mag w N -> v <= w -> rnd v M <= rnd w N.
Proof.
  intros Hv Hw Hvw.
  pose proof (is_mag_unique v w M N Hv Hw Hvw) as HMN.
  destruct (mantissa_range v M Hv) as [[_ Hn1] _].
  destruct (mantissa_range w N Hw) as [_ Hn2].
  unfold rnd.
  set (e1 := fexp64 M) in *. set (e2 := fexp64 N) in *.
  assert (He : (e1 <= e2)%Z) by (unfold e1, e2, fexp64; lia).
  destruct (Z.eq_dec e1 e2) as [Heq | Hne].
  - rewrite <- Heq. apply Qmult_le_compat_r; [ | apply Qlt_le_weak, two_to_pos].
    rewrite <- Zle_Qle. apply rne_monotone.
    apply Qmult_le_compat_r; [exact Hvw | apply Qlt_le_weak, two_to_pos].
  - destruct Hn2 as [Hmin | Hn2];
      [pose proof (fexp64_min M); fold e1 in H; lia | ].
    apply Qle_trans with (2 ^ 53 * 2 ^ e1).
    + apply Qmult_le_compat_r; [ | apply Qlt_le_weak, two_to_pos].
      rewrite <- (two_to_inject 53) by lia. now rewrite <- Zle_Qle.
    + apply Qle_trans with (2 ^ 52 * 2 ^ e2).
      * rewrite <- !two_to_plus. apply two_to_le. lia.
      * apply Qmult_le_compat_r; [ | apply Qlt_le_weak, two_to_pos].
        rewrite <- (two_to_inject 52) by lia. now rewrite <- Zle_Qle.
Qed.

(** The rounding error is at most half a unit in the last place. *)
Lemma rnd_error (v : Q) (M : Z) :
  rnd v M - v <= (1 # 2) * 2 ^ fexp64 M
  /\ v - rnd v M <= (1 # 2) * 2 ^ fexp64 M.
Proof.
  unfold rnd. set (e := fexp64 M). set (u := v * 2 ^ (- e)).
  pose proof (rne_error u) as [H1 H2].
  pose proof (two_to_pos e) as He.
  assert (Hv : v == u * 2 ^ e) by (unfold u; now rewrite two_to_cancel).
  split; nra.
Qed.


(** What [round64] returns: zero, a positive double of value [rnd], or
    [+Infinity] on overflow. *)
Lemma round64_cases (v : Q) (M : Z) :
  is_mag v M ->
  (rnd v M == 0 /\ round64 false v M = S754_zero false)
  \/ (0 < rnd v M /\ rnd v M < 2 ^ 1024
      /\ exists m e, round64 false v M = S754_finite false m e
                     /\ inject_Z (Z.pos m) * 2 ^ e == rnd v M)
  \/ (2 ^ 1024 <= rnd v M /\ round64 false v M = S754_infinity false).
Proof.
  intros Hmag. destruct (mantissa_range v M Hmag) as [[Hn0 Hn53] Hn52].
  unfold round64, rnd. set (e := fexp64 M) in *.
  set (n := rne (v * 2 ^ (- e))) in *.
  pose proof (two_to_pos e) as He.
  destruct n as [ | p | p] eqn:Hn; [ | | lia].
  - left. split; [ring | reflexivity].
  - right. cbn [pack].
    destruct (Z.eqb_spec (Z.pos p) (2 ^ 53)) as [Hcarry | Hnocarry].
    + rewrite Hcarry.
      destruct (Z.leb_spec (e + 1) 971) as [Hfit | Hover].
      * left. split; [apply Qmult_lt_0_compat; [reflexivity | exact He] | ].
        split.
        { rewrite two_to_inject by lia. rewrite <- two_to_plus.
          apply two_to_lt. lia. }
        exists (2 ^ 52)%positive, (e + 1)%Z. split; [reflexivity | ].
        rewrite two_to_succ. change (inject_Z (Z.pos (2 ^ 52))) with (inject_Z (2 ^ 52)).
        rewrite !two_to_inject by lia.
        change (2 ^ 53) with (2 * 2 ^ 52). ring.
      * right. split; [ | reflexivity].
        rewrite two_to_inject by lia. rewrite <- two_to_plus.
        apply two_to_le. lia.
    + destruct (Z.leb_spec e 971) as [Hfit | Hover].
      * left. split; [apply finite_value_pos | ]. split.
        { apply Qlt_le_trans with (2 ^ 53 * 2 ^ e).
          - apply Qmult_lt_compat_r; [exact He | ].
            rewrite <- two_to_inject by lia. rewrite <- Zlt_Qlt. lia.
          - rewrite <- two_to_plus. apply two_to_le. lia. }
        exists p, e. split; reflexivity.
      * right. split; [ | reflexivity].
        destruct Hn52 as [Hmin | Hn52]; [lia | ].
        apply Qle_trans with (2 ^ 52 * 2 ^ e).
        { rewrite <- two_to_plus. apply two_to_le. lia. }
        apply Qmult_le_compat_r; [ | lra].
        rewrite <- two_to_inject by lia. now rewrite <- Zle_Qle.
Qed.

Lemma round64_wd (s : bool) (v w : Q) (M : Z) :
  v == w -> round64 s v M = round64 s w M.
Proof.
  intros Hvw. unfold round64. f_equal. apply rne_wd. now rewrite Hvw.
Qed.

Lemma canonical_digits (m : positive) (e : Z) :
  canonical m e ->
  (Z.pos (digits2_pos m) <= 53)%Z /\ (-1074 <= e)%Z
  /\ (Z.pos (digits2_pos m) = 53%Z \/ e = (-1074)%Z).
Proof. intros [Hc _]. unfold fexp64 in Hc. lia. Qed.

Lemma Zdigits2_mul (a b : positive) :
  (Zdigits2 (Z.pos a) + Zdigits2 (Z.pos b) - 1 <= Zdigits2 (Z.pos (a * b)))%Z.
Proof.
  pose proof (Zdigits2_bounds (Z.pos a) eq_refl) as [Ha _].
  pose proof (Zdigits2_bounds (Z.pos b) eq_refl) as [Hb _].
  pose proof (Zdigits2_bounds (Z.pos (a * b)) eq_refl) as [_ Hab].
  pose proof (Zdigits2_pos (Z.pos a) eq_refl) as Hda.
  pose proof (Zdigits2_pos (Z.pos b) eq_refl) as Hdb.
  pose proof (Zdigits2_pos (Z.pos (a * b)) eq_refl) as Hdab.
  set (da := Zdigits2 (Z.pos a)) in *. set (db := Zdigits2 (Z.pos b)) in *.
  set (d := Zdigits2 (Z.pos (a * b))) in *.
  destruct (Z.le_gt_cases (da + db - 1) d) as [Hle | Hgt]; [exact Hle | ].
  assert (Hpow : (2 ^ d <= 2 ^ (da - 1 + (db - 1)))%Z)
    by (apply Z.pow_le_mono_r; lia).
  rewrite Z.pow_add_r in Hpow by lia.
  rewrite Pos2Z.inj_mul in Hab.
  assert (2 ^ (da - 1) * 2 ^ (db - 1) <= Z.pos a * Z.pos b)%Z
    by (apply Z.mul_le_mono_nonneg; lia).
  lia.
Qed.

(** *** Multiplication *)

Theorem SFmul_round (sx sy : bool) (mx my : positive) (ex ey : Z) :
  canonical mx ex -> canonical my ey ->
  exists M,
    is_mag (inject_Z (Z.pos mx) * 2 ^ ex * (inject_Z (Z.pos my) * 2 ^ ey)) M
    /\ SFmul prec emax (S754_finite sx mx ex) (S754_finite sy my ey)
       = round64 (xorb sx sy)
           (inject_Z (Z.pos mx) * 2 ^ ex * (inject_Z (Z.pos my) * 2 ^ ey)) M.
Proof.
  intros Hx Hy.
  destruct (canonical_digits mx ex Hx) as (Hdx & Hex & Hnx).
  destruct (canonical_digits my ey Hy) as (Hdy & Hey & Hny).
  pose proof (Zdigits2_mul mx my) as Hd. cbn [Zdigits2] in Hd.
  set (v := inject_Z (Z.pos mx) * 2 ^ ex * (inject_Z (Z.pos my) * 2 ^ ey)).
  assert (Hv : v == inject_Z (Z.pos (mx * my)) * 2 ^ (ex + ey)).
  { unfold v. rewrite Pos2Z.inj_mul, inject_Z_mult, two_to_plus. ring. }
  exists (Z.pos (digits2_pos (mx * my)) + (ex + ey))%Z. split.
  - apply (is_mag_wd (inject_Z (Z.pos (mx * my)) * 2 ^ (ex + ey)));
      [now symmetry | apply canonical_mag].
  - cbn [SFmul].
    rewrite (binary_round_aux_correct _ _ _ _ (inject_Z (Z.pos (mx * my)))).
    + cbn [Zdigits2]. unfold round64. f_equal. apply rne_wd.
      rewrite Hv, <- Qmult_assoc, <- two_to_plus.
      replace (ex + ey + - fexp64 (Z.pos (digits2_pos (mx * my)) + (ex + ey)))%Z
        with (ex + ey - fexp64 (Z.pos (digits2_pos (mx * my)) + (ex + ey)))%Z
        by lia.
      reflexivity.
    + lia.
    + cbn [inbetween]. reflexivity.
    + cbn [Zdigits2]. unfold fexp64. lia.
    + intros Hzero. discriminate Hzero.
Qed.

(** *** Rounding an integer mantissa: [binary_round], behind addition and
    the conversion from integers *)

Lemma Pos_iter_xO (m d : positive) :
  Z.pos (Pos.iter xO m d) = (Z.pos m * 2 ^ Z.pos d)%Z.
Proof.
  rewrite <- Z.shiftl_mul_pow2 by lia. cbn [Z.shiftl].
  apply (Pos.iter_swap_gen _ _ Z.pos xO (Z.mul 2)). intros a. reflexivity.
Qed.

Lemma shl_align_spec (m : positive) (e e' : Z) :
  let r := shl_align m e e' in
  snd r = Z.min e e'
  /\ Z.pos (fst r) = (Z.pos m * 2 ^ (e - Z.min e e'))%Z.
Proof.
  unfold shl_align. destruct (e' - e)%Z as [ | d | d] eqn:Hd; cbn [fst snd].
  - replace (Z.min e e') with e by lia. rewrite Z.sub_diag. cbn. lia.
  - replace (Z.min e e') with e by lia. rewrite Z.sub_diag. cbn. lia.
  - replace (Z.min e e') with e' by lia. split; [reflexivity | ].
    rewrite Pos_iter_xO. f_equal. f_equal. lia.
Qed.

Theorem binary_round_correct (s : bool) (m : positive) (e : Z) :
  binary_round prec emax s m e
  = round64 s (inject_Z (Z.pos m) * 2 ^ e) (Z.pos (digits2_pos m) + e).
Proof.
  unfold binary_round. rewrite fexp64_eq.
  set (M := (Z.pos (digits2_pos m) + e)%Z).
  pose proof (shl_align_spec m e (fexp64 M)) as [He' Hm'].
  destruct (shl_align m e (fexp64 M)) as [mz ez]. cbn [fst snd] in He', Hm'.
  assert (Hvalue : inject_Z (Z.pos mz) * 2 ^ ez == inject_Z (Z.pos m) * 2 ^ e).
  { rewrite Hm', inject_Z_mult, two_to_inject by lia.
    rewrite <- Qmult_assoc, <- two_to_plus. subst ez.
    replace (e - Z.min e (fexp64 M) + Z.min e (fexp64 M))%Z with e by lia.
    reflexivity. }
  assert (Hmag : (Zdigits2 (Z.pos mz) + ez)%Z = M).
  { apply Z.le_antisymm.
    - apply (is_mag_unique (inject_Z (Z.pos mz) * 2 ^ ez)
               (inject_Z (Z.pos m) * 2 ^ e));
        [apply canonical_mag | apply canonical_mag | lra].
    - apply (is_mag_unique (inject_Z (Z.pos m) * 2 ^ e)
               (inject_Z (Z.pos mz) * 2 ^ ez));
        [apply canonical_mag | apply canonical_mag | lra]. }
  rewrite (binary_round_aux_correct _ _ _ _ (inject_Z (Z.pos mz))).
  - rewrite Hmag. unfold round64. f_equal. apply rne_wd.
    rewrite <- Hvalue, <- Qmult_assoc, <- two_to_plus.
    replace (ez + - fexp64 M)%Z with (ez - fexp64 M)%Z by lia. reflexivity.
  - lia.
  - cbn [inbetween]. reflexivity.
  - rewrite Hmag. lia.
  - intros Hzero. discriminate Hzero.
Qed.

(** *** Addition of two positive doubles *)

Theorem SFadd_round (mx my : positive) (ex ey : Z) :
  exists M,
    is_mag (inject_Z (Z.pos mx) * 2 ^ ex + inject_Z (Z.pos my) * 2 ^ ey) M
    /\ SFadd prec emax (S754_finite false mx ex) (S754_finite false my ey)
       = round64 false
           (inject_Z (Z.pos mx) * 2 ^ ex + inject_Z (Z.pos my) * 2 ^ ey) M.
Proof.
  cbn [SFadd cond_Zopp]. set (ez := Z.min ex ey).
  pose proof (shl_align_spec mx ex ez) as [_ Hx].
  pose proof (shl_align_spec my ey ez) as [_ Hy].
  replace (Z.min ex ez) with ez in Hx by lia.
  replace (Z.min ey ez) with ez in Hy by lia.
  set (ax := fst (shl_align mx ex ez)) in *.
  set (ay := fst (shl_align my ey ez)) in *.
  change (Z.pos ax + Z.pos ay)%Z with (Z.pos (ax + ay)).
  cbn [binary_normalize]. rewrite binary_round_correct.
  assert (Hsum : inject_Z (Z.pos (ax + ay)) * 2 ^ ez
                 == inject_Z (Z.pos mx) * 2 ^ ex + inject_Z (Z.pos my) * 2 ^ ey).
  { rewrite Pos2Z.inj_add, inject_Z_plus, Hx, Hy, !inject_Z_mult.
    rewrite !two_to_inject by lia.
    rewrite Qmult_plus_distr_l, <- !Qmult_assoc, <- !two_to_plus.
    replace (ex - ez + ez)%Z with ex by lia.
    replace (ey - ez + ez)%Z with ey by lia. reflexivity. }
  exists (Z.pos (digits2_pos (ax + ay)) + ez)%Z. split.
  - apply (is_mag_wd (inject_Z (Z.pos (ax + ay)) * 2 ^ ez));
      [exact Hsum | apply canonical_mag].
  - apply round64_wd. exact Hsum.
Qed.

(** *** Division *)

Lemma new_location_inbetween (nb q k : Z) :
  (0 < nb)%Z -> (0 <= k < nb)%Z ->
  inbetween (inject_Z q + inject_Z k / inject_Z nb) q (new_location nb k).
Proof.
  intros Hnb Hk.
  assert (Hnb' : 0 < inject_Z nb)
    by (change 0 with (inject_Z 0); rewrite <- Zlt_Qlt; lia).
  assert (Hk0 : 0 <= inject_Z k)
    by (change 0 with (inject_Z 0); rewrite <- Zle_Qle; lia).
  assert (Hdiv : forall c : Q, inject_Z k / inject_Z nb * inject_Z nb == inject_Z k)
    by (intros _; field; lra).
  set (f := inject_Z k / inject_Z nb) in *.
  assert (Hf : f * inject_Z nb == inject_Z k) by (apply Hdiv; exact 0).
  assert (Hlt_iff : forall a b : Z, (a < b)%Z -> inject_Z a < inject_Z b)
    by (intros a b Hab; now rewrite <- Zlt_Qlt).
  unfold new_location, new_location_even, new_location_odd.
  change IntDef.Z.even with Z.even. change IntDef.Z.eqb with Z.eqb.
  change IntDef.Z.compare with Z.compare. change IntDef.Z.mul with Z.mul.
  change IntDef.Z.add with Z.add. cbv beta.
  assert (Hbeta : forall (b : bool) (g h : Z -> location),
             (if b then g else h) k = if b then g k else h k)
    by (intros [ | ] g h; reflexivity).
  rewrite Hbeta. clear Hbeta.
  destruct (Z.eqb_spec k 0) as [Hzero | Hnz].
  - assert (Hf0 : f == 0) by (subst k; unfold f; change (inject_Z 0) with 0; field; lra).
    destruct (Z.even nb); cbv iota; cbn [inbetween]; lra.
  - assert (Hkpos : 0 < inject_Z k) by (apply (Hlt_iff 0%Z); lia).
    assert (Hfpos : 0 < f) by nra.
    assert (Hf1 : f < 1).
    { assert (inject_Z k < inject_Z nb) by (apply Hlt_iff; lia). nra. }
    assert (H2k : inject_Z (2 * k) == 2 * inject_Z k)
      by (rewrite inject_Z_mult; reflexivity).
    destruct (Z.even nb) eqn:Heven.
    + destruct (Z.compare_spec (2 * k) nb) as [Hc | Hc | Hc];
        cbv iota; cbn [inbetween].
      * assert (inject_Z (2 * k) == inject_Z nb) by (now rewrite Hc). nra.
      * apply Hlt_iff in Hc. split; nra.
      * apply Hlt_iff in Hc. split; nra.
    + assert (Hodd : (2 * k <> nb)%Z).
      { intros Heq. rewrite <- Heq, Z.even_mul in Heven. discriminate. }
      destruct (Z.compare_spec (2 * k + 1) nb) as [Hc | Hc | Hc];
        cbv iota; cbn [inbetween].
      * assert (Hlt : (2 * k < nb)%Z) by lia. apply Hlt_iff in Hlt. split; nra.
      * assert (Hlt : (2 * k < nb)%Z) by lia. apply Hlt_iff in Hlt. split; nra.
      * assert (Hgt : (nb < 2 * k)%Z) by lia. apply Hlt_iff in Hgt. split; nra.
Qed.

(** Every positive rational lies in one binade. *)
Lemma mag_exists (v : Q) : 0 < v -> exists M, is_mag v M.
Proof.
  intros Hv. destruct v as [n d]. unfold Qlt in Hv. cbn in Hv.
  assert (Hn : (0 < n)%Z) by lia.
  pose proof (Z.log2_spec n Hn) as [Hn1 Hn2].
  pose proof (Z.log2_spec (Z.pos d) eq_refl) as [Hd1 Hd2].
  pose proof (Z.log2_nonneg n) as Ha. pose proof (Z.log2_nonneg (Z.pos d)) as Hb.
  set (a := Z.log2 n) in *. set (b := Z.log2 (Z.pos d)) in *.
  assert (Hq : n # d == inject_Z n / inject_Z (Z.pos d)) by apply Qmake_Qdiv.
  assert (Hdpos : 0 < inject_Z (Z.pos d))
    by (change 0 with (inject_Z 0); rewrite <- Zlt_Qlt; lia).
  assert (Hn1' : 2 ^ a <= inject_Z n)
    by (rewrite <- two_to_inject by lia; now rewrite <- Zle_Qle).
  assert (Hn2' : inject_Z n < 2 ^ (a + 1))
    by (rewrite <- two_to_inject by lia; now rewrite <- Zlt_Qlt).
  assert (Hd1' : 2 ^ b <= inject_Z (Z.pos d))
    by (rewrite <- two_to_inject by lia; now rewrite <- Zle_Qle).
  assert (Hd2' : inject_Z (Z.pos d) < 2 ^ (b + 1))
    by (rewrite <- two_to_inject by lia; now rewrite <- Zlt_Qlt).
  set (v := inject_Z n / inject_Z (Z.pos d)) in *.
  assert (Hvd : v * inject_Z (Z.pos d) == inject_Z n) by (unfold v; field; lra).
  pose proof (two_to_pos a) as Hpa. pose proof (two_to_pos b) as Hpb.
  pose proof (two_to_pos (a - b - 1)) as Hpl.
  assert (Hlow : 2 ^ (a - b - 1) < v).
  { assert (Hx : 2 ^ (a - b - 1) * 2 ^ (b + 1) == 2 ^ a).
    { rewrite <- two_to_plus. replace (a - b - 1 + (b + 1))%Z with a by lia.
      reflexivity. }
    destruct (Qlt_le_dec (2 ^ (a - b - 1)) v) as [Hlt | Hge]; [exact Hlt | ].
    exfalso. assert (v * inject_Z (Z.pos d) < 2 ^ (a - b - 1) * 2 ^ (b + 1)).
    { apply Qle_lt_trans with (2 ^ (a - b - 1) * inject_Z (Z.pos d)).
      - apply Qmult_le_compat_r; lra.
      - apply Qmult_lt_l; lra. }
    lra. }
  assert (Hhigh : v < 2 ^ (a - b + 1)).
  { assert (Hx : 2 ^ (a - b + 1) * 2 ^ b == 2 ^ (a + 1)).
    { rewrite <- two_to_plus. replace (a - b + 1 + b)%Z with (a + 1)%Z by lia.
      reflexivity. }
    pose proof (two_to_pos (a - b + 1)) as Hph.
    destruct (Qlt_le_dec v (2 ^ (a - b + 1))) as [Hlt | Hge]; [exact Hlt | ].
    exfalso. assert (2 ^ (a - b + 1) * 2 ^ b <= v * inject_Z (Z.pos d)).
    { apply Qle_trans with (2 ^ (a - b + 1) * inject_Z (Z.pos d)).
      - apply Qmult_le_l; lra.
      - apply Qmult_le_compat_r; lra. }
    lra. }
  destruct (Qlt_le_dec v (2 ^ (a - b))) as [Hlt | Hge].
  - exists (a - b)%Z. apply (is_mag_wd v); [now symmetry | ].
    split; [lra | exact Hlt].
  - exists (a - b + 1)%Z. apply (is_mag_wd v); [now symmetry | ].
    split; [ | exact Hhigh].
    replace (a - b + 1 - 1)%Z with (a - b)%Z by lia. exact Hge.
Qed.

Lemma SFdiv_core_binary_spec (m1 m2 : positive) (e1 e2 : Z) :
  let D := (Z.pos (digits2_pos m1) + e1 - (Z.pos (digits2_pos m2) + e2))%Z in
  let e' := Z.min (fexp64 D) (e1 - e2) in
  let m' := (Z.pos m1 * 2 ^ (e1 - e2 - e'))%Z in
  SFdiv_core_binary prec emax (Z.pos m1) e1 (Z.pos m2) e2
  = ((m' / Z.pos m2)%Z, e', new_location (Z.pos m2) (m' mod Z.pos m2)%Z).
Proof.
  intros D e' m'. unfold SFdiv_core_binary. rewrite fexp64_eq.
  cbn [Zdigits2].
  change (IntDef.Z.min (fexp64 (IntDef.Z.sub
            (IntDef.Z.add (Z.pos (digits2_pos m1)) e1)
            (IntDef.Z.add (Z.pos (digits2_pos m2)) e2)))
            (IntDef.Z.sub e1 e2)) with e'.
  change (IntDef.Z.sub (IntDef.Z.sub e1 e2) e') with (e1 - e2 - e')%Z.
  assert (Hs : (0 <= e1 - e2 - e')%Z) by (unfold e'; lia).
  assert (Hm : match (e1 - e2 - e')%Z with
               | Z.pos _ => IntDef.Z.shiftl (Z.pos m1) (e1 - e2 - e')
               | 0%Z => Z.pos m1
               | Z.neg _ => 0%Z
               end = m').
  { unfold m'. change IntDef.Z.shiftl with Z.shiftl.
    destruct (e1 - e2 - e')%Z as [ | p | p] eqn:Hse.
    - cbn. lia.
    - apply Z.shiftl_mul_pow2. lia.
    - lia. }
  rewrite Hm. change IntDef.Z.div_eucl with Z.div_eucl.
  unfold Z.div, Z.modulo.
  destruct (Z.div_eucl m' (Z.pos m2)) as [q r]. reflexivity.
Qed.

Theorem SFdiv_round (sx sy : bool) (mx my : positive) (ex ey : Z) :
  canonical mx ex -> canonical my ey ->
  exists M,
    is_mag (inject_Z (Z.pos mx) * 2 ^ ex / (inject_Z (Z.pos my) * 2 ^ ey)) M
    /\ SFdiv prec emax (S754_finite sx mx ex) (S754_finite sy my ey)
       = round64 (xorb sx sy)
           (inject_Z (Z.pos mx) * 2 ^ ex / (inject_Z (Z.pos my) * 2 ^ ey)) M.
Proof.
  intros Hx Hy.
  destruct (canonical_digits mx ex Hx) as (Hdx & _ & _).
  pose proof (Zdigits2_bounds (Z.pos mx) eq_refl) as [Hx1 Hx2].
  pose proof (Zdigits2_bounds (Z.pos my) eq_refl) as [Hy1 Hy2].
  pose proof (Zdigits2_pos (Z.pos my) eq_refl) as Hdy.
  cbn [Zdigits2] in Hx1, Hx2, Hy1, Hy2, Hdy.
  set (dx := Z.pos (digits2_pos mx)) in *.
  set (dy := Z.pos (digits2_pos my)) in *.
  cbn [SFdiv]. rewrite SFdiv_core_binary_spec. fold dx dy.
  set (D := (dx + ex - (dy + ey))%Z).
  set (e' := Z.min (fexp64 D) (ex - ey)).
  set (s := (ex - ey - e')%Z).
  set (m' := (Z.pos mx * 2 ^ s)%Z).
  assert (Hs : (0 <= s)%Z) by (unfold s, e'; lia).
  assert (Hm'pos : (0 < m')%Z)
    by (unfold m'; apply Z.mul_pos_pos; [lia | apply Z.pow_pos_nonneg; lia]).
  pose proof (Z.div_mod m' (Z.pos my)) as Hdm.
  pose proof (Z.mod_pos_bound m' (Z.pos my) eq_refl) as Hr.
  assert (Hq0 : (0 <= m' / Z.pos my)%Z) by (apply Z.div_pos; lia).
  set (q := (m' / Z.pos my)%Z) in *. set (r := (m' mod Z.pos my)%Z) in *.
  assert (Hdm' : m' = (Z.pos my * q + r)%Z) by (apply Hdm; lia).
  set (v := inject_Z (Z.pos mx) * 2 ^ ex / (inject_Z (Z.pos my) * 2 ^ ey)).
  set (u := inject_Z q + inject_Z r / inject_Z (Z.pos my)).
  assert (Hmy : 0 < inject_Z (Z.pos my))
    by (change 0 with (inject_Z 0); rewrite <- Zlt_Qlt; lia).
  pose proof (two_to_pos ex) as Hpex. pose proof (two_to_pos ey) as Hpey.
  pose proof (two_to_pos e') as Hpe'.
  assert (Hu : u == inject_Z m' / inject_Z (Z.pos my)).
  { unfold u. rewrite Hdm', inject_Z_plus, inject_Z_mult. field. lra. }
  assert (Hv : v == u * 2 ^ e').
  { rewrite Hu. unfold v, m'. rewrite inject_Z_mult, two_to_inject by lia.
    assert (Hex : 2 ^ ex == 2 ^ s * 2 ^ e' * 2 ^ ey).
    { rewrite <- !two_to_plus. replace (s + e' + ey)%Z with ex by (unfold s; lia).
      reflexivity. }
    rewrite Hex. field. split; lra. }
  assert (Hin : inbetween u q (new_location (Z.pos my) r))
    by (apply new_location_inbetween; lia).
  pose proof (inbetween_bounds _ _ _ Hin) as [Hu1 Hu2].
  assert (Hq00 : 0 <= inject_Z q)
    by (change 0 with (inject_Z 0); now rewrite <- Zle_Qle).
  assert (Hupos : 0 < u).
  { rewrite Hu. apply Qlt_shift_div_l; [exact Hmy | ].
    rewrite Qmult_0_l. change 0 with (inject_Z 0). now rewrite <- Zlt_Qlt. }
  assert (Hvpos : 0 < v) by (rewrite Hv; apply Qmult_lt_0_compat; lra).
  destruct (mag_exists v Hvpos) as [M HM]. exists M. split; [exact HM | ].
  assert (Hnormal : (-1074 < e')%Z -> (2 ^ 52 <= q)%Z).
  { intros He'.
    assert (HeD : e' = (D - 53)%Z) by (unfold e', fexp64 in *; lia).
    assert (Hs' : s = (53 - dx + dy)%Z) by (unfold s, D in *; lia).
    apply Z.div_le_lower_bound; [lia | ].
    unfold m'. rewrite Hs'.
    replace (53 - dx + dy)%Z with (52 + dy + (1 - dx))%Z by lia.
    assert (Hpow : (2 ^ (52 + dy) = 2 ^ (dx - 1) * 2 ^ (52 + dy + (1 - dx)))%Z).
    { rewrite <- Z.pow_add_r by lia. f_equal. lia. }
    assert (H52 : (2 ^ (52 + dy) = 2 ^ 52 * 2 ^ dy)%Z)
      by (rewrite Z.pow_add_r by lia; reflexivity).
    assert (Hp : (0 < 2 ^ (52 + dy + (1 - dx)))%Z)
      by (apply Z.pow_pos_nonneg; lia).
    nia. }
  assert (Hfexp : fexp64 (Zdigits2 q + e') = fexp64 M
                  /\ (e' <= fexp64 (Zdigits2 q + e'))%Z
                  /\ (q = 0%Z -> fexp64 (Zdigits2 q + e') = (-1074)%Z)).
  { destruct (Z.eq_dec q 0) as [Hz | Hnz].
    - assert (He' : (e' <= -1074)%Z).
      { destruct (Z.le_gt_cases e' (-1074)) as [Hle | Hgt]; [exact Hle | ].
        assert (2 ^ 52 <= q)%Z by (apply Hnormal; lia). lia. }
      rewrite Hz. cbn [Zdigits2]. rewrite Z.add_0_l.
      assert (HMe : (M <= e')%Z).
      { destruct HM as [HM1 _]. rewrite Hz in Hu2. change (inject_Z 0) with 0 in Hu2.
        destruct (Z.le_gt_cases M e') as [Hle | Hgt]; [exact Hle | ].
        assert (2 ^ e' <= 2 ^ (M - 1)) by (apply two_to_le; lia).
        assert (v < 2 ^ e') by (rewrite Hv; nra). lra. }
      unfold fexp64. lia.
    - assert (Hqpos : (0 < q)%Z) by lia.
      assert (HMq : M = (Zdigits2 q + e')%Z).
      { pose proof (Zdigits2_Q_bounds q Hqpos) as [Hq1 Hq2].
        assert (Hmagq : is_mag v (Zdigits2 q + e')).
        { split.
          - replace (Zdigits2 q + e' - 1)%Z with (Zdigits2 q - 1 + e')%Z by lia.
            rewrite two_to_plus, Hv. apply Qmult_le_compat_r; lra.
          - rewrite two_to_plus, Hv. apply Qmult_lt_compat_r; lra. }
        apply Z.le_antisymm.
        + apply (is_mag_unique v v); auto; lra.
        + apply (is_mag_unique v v); auto; lra. }
      rewrite <- HMq. split; [reflexivity | ]. split; [ | lia].
      destruct (Z.le_gt_cases e' (-1074)) as [Hle | Hgt].
      + pose proof (fexp64_min M). lia.
      + assert (H52 : (2 ^ 52 <= q)%Z) by (apply Hnormal; lia).
        pose proof (Zdigits2_bounds q Hqpos) as [_ Hqd].
        assert (Hdq : (53 <= Zdigits2 q)%Z).
        { destruct (Z.le_gt_cases 53 (Zdigits2 q)) as [Hle | Hlt]; [exact Hle | ].
          assert (2 ^ Zdigits2 q <= 2 ^ 52)%Z
            by (apply Z.pow_le_mono_r; lia).
          lia. }
        unfold fexp64. lia. }
  destruct Hfexp as (HfM & Hfe & Hfz).
  rewrite (binary_round_aux_correct _ _ _ _ u); auto.
  unfold round64. rewrite HfM. f_equal. apply rne_wd.
  rewrite Hv, <- Qmult_assoc, <- two_to_plus.
  replace (e' + - fexp64 M)%Z with (e' - fexp64 M)%Z by lia. reflexivity.
Qed.

Lemma positive_finite_not_negative (x : float) :
  positive_finite x -> not_negative x.
Proof. intros (m & e & Hx). unfold not_negative. now rewrite Hx. Qed.

Lemma positive_finite_value (x : float) :
  positive_finite x -> 0 < to_Q x /\ to_Q x < 2 ^ 1024.
Proof.
  intros (m & e & Hx). unfold to_Q. rewrite Hx. cbn [B2Q]. split.
  - apply finite_value_pos.
  - apply canonical_below_infinity. now apply (Prim2SF_canonical x false).
Qed.

Lemma not_negative_value (x : float) : not_negative x -> 0 <= to_Q x.
Proof.
  unfold not_negative, to_Q.
  destruct (Prim2SF x) as [s | s | | s m e]; cbn [nonneg B2Q]; intros Hx;
    try contradiction; subst.
  - lra.
  - apply Qlt_le_weak, (two_to_pos 1024).
  - apply Qlt_le_weak, finite_value_pos.
Qed.

Lemma leb_values (x y : float) :
  not_negative x -> not_negative y ->
  (x <=? y)%float = true <-> to_Q x <= to_Q y.
Proof.
  intros Hx Hy. rewrite FloatAxioms.leb_spec.
  apply SFleb_values; auto using Prim2SF_valid.
Qed.

Lemma ltb_values (x y : float) :
  not_negative x -> not_negative y ->
  (x <? y)%float = true <-> to_Q x < to_Q y.
Proof.
  intros Hx Hy. rewrite FloatAxioms.ltb_spec.
  apply SFltb_values; auto using Prim2SF_valid.
Qed.

(** A positive value above zero and below [2^1024] is that of a positive
    finite double. *)
Lemma not_negative_cases (x : float) :
  not_negative x ->
  (to_Q x == 0 /\ exists s, Prim2SF x = S754_zero s)
  \/ positive_finite x
  \/ (to_Q x == 2 ^ 1024 /\ Prim2SF x = S754_infinity false).
Proof.
  unfold not_negative, positive_finite, to_Q.
  destruct (Prim2SF x) as [s | s | | s m e]; cbn [nonneg B2Q]; intros Hx;
    try contradiction; subst.
  - left. split; [reflexivity | now exists s].
  - right. right. split; reflexivity.
  - right. left. now exists m, e.
Qed.

Lemma to_Q_inj (x y : float) :
  positive_finite x -> positive_finite y -> to_Q x == to_Q y -> x = y.
Proof.
  intros (mx & ex & Hx) (my & ey & Hy) Hxy.
  pose proof (Prim2SF_canonical x _ _ _ Hx) as Hcx.
  pose proof (Prim2SF_canonical y _ _ _ Hy) as Hcy.
  unfold to_Q in Hxy. rewrite Hx, Hy in Hxy. cbn [B2Q] in Hxy.
  apply Prim2SF_inj. rewrite Hx, Hy.
  destruct (Z.lt_trichotomy ex ey) as [Hlt | [Heq | Hgt]].
  - pose proof (canonical_lt mx my ex ey Hcx Hcy Hlt). lra.
  - subst ey. f_equal.
    pose proof (two_to_pos ex) as He.
    assert (Hm : inject_Z (Z.pos mx) == inject_Z (Z.pos my)) by nra.
    rewrite inject_Z_injective in Hm. now injection Hm.
  - pose proof (canonical_lt my mx ey ex Hcy Hcx ltac:(lia)). lra.
Qed.

(** The value of a rounded result: the rounding of the exact value, or
    [2^1024] for [+Infinity] on overflow. *)
Lemma round64_value (z : float) (v : Q) (M : Z) :
  is_mag v M -> Prim2SF z = round64 false v M ->
  not_negative z
  /\ ((to_Q z == rnd v M /\ rnd v M < 2 ^ 1024)
      \/ (to_Q z == 2 ^ 1024 /\ 2 ^ 1024 <= rnd v M)).
Proof.
  intros Hmag Hz. unfold not_negative, to_Q. rewrite Hz.
  destruct (round64_cases v M Hmag)
    as [[H0 ->] | [(Hpos & Hlt & m & e & -> & Hv) | [Hinf ->]]];
    cbn [nonneg B2Q].
  - split; [exact I | ]. left. split; [now symmetry | ].
    rewrite H0. apply two_to_pos.
  - split; [reflexivity | ]. left. split; assumption.
  - split; [reflexivity | ]. right. split; [reflexivity | exact Hinf].
Qed.

Lemma round64_positive (z : float) (v : Q) (M : Z) :
  is_mag v M -> Prim2SF z = round64 false v M ->
  0 < rnd v M -> rnd v M < 2 ^ 1024 ->
  positive_finite z /\ to_Q z == rnd v M.
Proof.
  intros Hmag Hz Hpos Hlt. unfold positive_finite, to_Q. rewrite Hz.
  destruct (round64_cases v M Hmag)
    as [[H0 _] | [(_ & _ & m & e & -> & Hv) | [Hinf _]]]; try lra.
  split; [now exists m, e | exact Hv].
Qed.

(** *** The operations on positive finite doubles *)

Lemma mul_round (x y : float) :
  positive_finite x -> positive_finite y ->
  exists M, is_mag (to_Q x * to_Q y) M
            /\ Prim2SF (x * y) = round64 false (to_Q x * to_Q y) M.
Proof.
  intros (mx & ex & Hx) (my & ey & Hy).
  rewrite FloatAxioms.mul_spec. unfold to_Q. rewrite Hx, Hy. cbn [B2Q].
  apply (SFmul_round false false).
  - now apply (Prim2SF_canonical x false).
  - now apply (Prim2SF_canonical y false).
Qed.

Lemma div_round (x y : float) :
  positive_finite x -> positive_finite y ->
  exists M, is_mag (to_Q x / to_Q y) M
            /\ Prim2SF (x / y) = round64 false (to_Q x / to_Q y) M.
Proof.
  intros (mx & ex & Hx) (my & ey & Hy).
  rewrite FloatAxioms.div_spec. unfold to_Q. rewrite Hx, Hy. cbn [B2Q].
  apply (SFdiv_round false false).
  - now apply (Prim2SF_canonical x false).
  - now apply (Prim2SF_canonical y false).
Qed.

Lemma add_round (x y : float) :
  positive_finite x -> positive_finite y ->
  exists M, is_mag (to_Q x + to_Q y) M
            /\ Prim2SF (x + y) = round64 false (to_Q x + to_Q y) M.
Proof.
  intros (mx & ex & Hx) (my & ey & Hy).
  rewrite FloatAxioms.add_spec. unfold to_Q. rewrite Hx, Hy. cbn [B2Q].
  apply SFadd_round.
Qed.

Lemma mul_rounds (x y : float) :
  positive_finite x -> positive_finite y -> rounds_to (to_Q x * to_Q y) (x * y).
Proof. apply mul_round. Qed.

Lemma div_rounds (x y : float) :
  positive_finite x -> positive_finite y -> rounds_to (to_Q x / to_Q y) (x / y).
Proof. apply div_round. Qed.

Lemma add_rounds (x y : float) :
  positive_finite x -> positive_finite y -> rounds_to (to_Q x + to_Q y) (x + y).
Proof. apply add_round. Qed.

Lemma rounds_to_not_negative (v : Q) (z : float) :
  rounds_to v z -> not_negative z.
Proof. intros (M & Hmag & Hz). now destruct (round64_value z v M Hmag Hz). Qed.

Lemma rounds_to_monotone (v w : Q) (y z : float) :
  rounds_to v y -> rounds_to w z -> v <= w -> to_Q y <= to_Q z.
Proof.
  intros (M & HM & Hy) (N & HN & Hz) Hvw.
  pose proof (rnd_monotone v w M N HM HN Hvw) as Hmono.
  destruct (round64_value y v M HM Hy) as [_ [[Hy1 Hy2] | [Hy1 Hy2]]];
    destruct (round64_value z w N HN Hz) as [_ [[Hz1 Hz2] | [Hz1 Hz2]]]; lra.
Qed.


Lemma positive_finite_rounds_to (y : float) :
  positive_finite y -> rounds_to (to_Q y) y.
Proof.
  intros (m & e & Hy). exists (Z.pos (digits2_pos m) + e)%Z.
  pose proof (Prim2SF_canonical y _ _ _ Hy) as Hc.
  assert (Hmag : is_mag (to_Q y) (Z.pos (digits2_pos m) + e)).
  { unfold to_Q. rewrite Hy. apply canonical_mag. }
  split; [exact Hmag | ].
  destruct (canonical_bounds m e Hc) as (Hm53 & He & _).
  destruct Hc as [Hc He'].
  unfold round64. rewrite Hc.
  rewrite (rne_wd _ (inject_Z (Z.pos m))).
  - rewrite rne_inject_Z, Hy. cbn [pack].
    destruct (Z.eqb_spec (Z.pos m) (2 ^ 53)) as [Heq | _]; [lia | ].
    destruct (Z.leb_spec e 971) as [_ | Hgt]; [reflexivity | lia].
  - unfold to_Q. rewrite Hy. cbn [B2Q].
    rewrite <- Qmult_assoc, <- two_to_plus.
    replace (e + - e)%Z with 0%Z by lia. change (2 ^ 0) with 1. ring.
Qed.

(** Rounding keeps a value on its side of a double. *)
Lemma rounds_to_at_least (v : Q) (y z : float) :
  rounds_to v z -> positive_finite y -> to_Q y <= v -> to_Q y <= to_Q z.
Proof.
  intros Hz Hy Hv.
  apply (rounds_to_monotone (to_Q y) v); auto using positive_finite_rounds_to.
Qed.

Lemma rounds_to_at_most (v : Q) (y z : float) :
  rounds_to v z -> positive_finite y -> v <= to_Q y -> to_Q z <= to_Q y.
Proof.
  intros Hz Hy Hv.
  apply (rounds_to_monotone v (to_Q y)); auto using positive_finite_rounds_to.
Qed.

(** Between two positive finite doubles the result is one. *)
Lemma rounds_to_positive_finite (v : Q) (a b z : float) :
  rounds_to v z -> positive_finite a -> positive_finite b ->
  to_Q a <= v -> v <= to_Q b -> positive_finite z.
Proof.
  intros Hz Ha Hb Hav Hvb.
  pose proof (rounds_to_at_least v a z Hz Ha Hav) as Hlow.
  pose proof (rounds_to_at_most v b z Hz Hb Hvb) as Hhigh.
  destruct (positive_finite_value a Ha) as [Hapos _].
  destruct (positive_finite_value b Hb) as [_ Hbfin].
  destruct (not_negative_cases z (rounds_to_not_negative v z Hz))
    as [[H0 _] | [Hf | [Hinf _]]]; [lra | exact Hf | lra].
Qed.

(** The value of a finite result is the rounding of the exact value. *)
Lemma rounds_to_value (v : Q) (z : float) :
  rounds_to v z -> to_Q z < 2 ^ 1024 ->
  exists M, is_mag v M /\ to_Q z == rnd v M.
Proof.
  intros (M & HM & Hz) Hfin. exists M. split; [exact HM | ].
  destruct (round64_value z v M HM Hz) as [_ [[Hv _] | [Hv _]]];
    [exact Hv | lra].
Qed.

(** The absolute error of a finite result below [2^K]. *)
Lemma rounds_to_error (v : Q) (z : float) (K : Z) :
  rounds_to v z -> to_Q z < 2 ^ 1024 -> v < 2 ^ K -> (-1021 <= K)%Z ->
  Qabs (to_Q z - v) <= 2 ^ (K - 54).
Proof.
  intros Hz Hfin HK Hnormal.
  destruct (rounds_to_value v z Hz Hfin) as (M & HM & Hv).
  pose proof (rnd_error v M) as [H1 H2].
  assert (HMK : (M <= K)%Z).
  { destruct HM as [HM1 _].
    destruct (Z.le_gt_cases M K) as [Hle | Hgt]; [exact Hle | ].
    assert (2 ^ K <= 2 ^ (M - 1)) by (apply two_to_le; lia). lra. }
  assert (He : (1 # 2) * 2 ^ fexp64 M <= 2 ^ (K - 54)).
  { rewrite <- two_to_pred. apply two_to_le. unfold fexp64. lia. }
  apply Qabs_Qle_condition. split; lra.
Qed.

(** The relative error of a finite result in the normal range. *)
Lemma rounds_to_relative_error (v : Q) (z : float) :
  rounds_to v z -> to_Q z < 2 ^ 1024 -> 2 ^ (-1022) <= v ->
  Qabs (to_Q z - v) <= v * 2 ^ (-53).
Proof.
  intros Hz Hfin Hnormal.
  destruct (rounds_to_value v z Hz Hfin) as (M & HM & Hv).
  pose proof (rnd_error v M) as [H1 H2].
  destruct HM as [HM1 HM2].
  assert (HMn : (-1022 < M)%Z).
  { destruct (Z.lt_ge_cases (-1022) M) as [Hlt | Hge]; [exact Hlt | ].
    assert (2 ^ M <= 2 ^ (-1022)) by (apply two_to_le; lia). lra. }
  assert (He : (1 # 2) * 2 ^ fexp64 M <= v * 2 ^ (-53)).
  { apply Qle_trans with (2 ^ (M - 1) * 2 ^ (-53)).
    - rewrite <- two_to_pred, <- two_to_plus. apply two_to_le.
      unfold fexp64. lia.
    - apply Qmult_le_compat_r; [exact HM1 | apply Qlt_le_weak, two_to_pos]. }
  apply Qabs_Qle_condition. split; lra.
Qed.

Lemma rnd_exact_int (v : Q) (M k : Z) :
  v * 2 ^ (- fexp64 M) == inject_Z k -> rnd v M == v.
Proof.
  intros Hk. unfold rnd. rewrite (rne_wd _ _ Hk), rne_inject_Z, <- Hk.
  apply two_to_cancel.
Qed.

(** An integer below [2^53] is a double. *)
Lemma of_Z_exact (z : Z) :
  (0 < z < 2 ^ 53)%Z ->
  positive_finite (Binary64.of_Z z) /\ to_Q (Binary64.of_Z z) == inject_Z z.
Proof.
  intros Hz. destruct z as [ | p | p]; try lia. cbn [Binary64.of_Z].
  set (y := of_uint63 (of_Z (Z.pos p))).
  assert (Hy : Prim2SF y
               = round64 false (inject_Z (Z.pos p) * 2 ^ 0)
                   (Z.pos (digits2_pos p) + 0)).
  { unfold y. rewrite of_uint63_spec, Uint63.of_Z_spec.
    rewrite Z.mod_small by (unfold wB; cbn; lia).
    cbn [binary_normalize]. apply binary_round_correct. }
  pose proof (canonical_mag p 0) as Hmag.
  set (M := (Z.pos (digits2_pos p) + 0)%Z) in *.
  pose proof (digits2_pos_bounds p) as [Hd1 Hd2].
  assert (HM : (1 <= M <= 53)%Z).
  { unfold M. split; [lia | ].
    destruct (Z.le_gt_cases (Z.pos (digits2_pos p)) 53) as [Hle | Hgt]; [lia | ].
    assert (2 ^ 53 <= 2 ^ (Z.pos (digits2_pos p) - 1))%Z
      by (apply Z.pow_le_mono_r; lia).
    lia. }
  assert (Hexact : rnd (inject_Z (Z.pos p) * 2 ^ 0) M
                   == inject_Z (Z.pos p) * 2 ^ 0).
  { apply (rnd_exact_int _ _ (Z.pos p * 2 ^ (53 - M))).
    replace (fexp64 M) with (M - 53)%Z by (unfold fexp64; lia).
    rewrite inject_Z_mult, two_to_inject by lia.
    replace (- (M - 53))%Z with (53 - M)%Z by lia.
    change (2 ^ 0) with 1. ring. }
  assert (Hvalue : inject_Z (Z.pos p) * 2 ^ 0 == inject_Z (Z.pos p))
    by (change (2 ^ 0) with 1; ring).
  destruct (round64_positive y _ M Hmag Hy) as [Hfin Hv].
  - rewrite Hexact, Hvalue. change 0 with (inject_Z 0).
    rewrite <- Zlt_Qlt. lia.
  - rewrite Hexact, Hvalue.
    apply Qlt_trans with (2 ^ 53); [ | apply two_to_lt; lia].
    rewrite <- (two_to_inject 53) by lia. rewrite <- Zlt_Qlt. lia.
  - split; [exact Hfin | ]. rewrite Hv, Hexact, Hvalue. reflexivity.
Qed.

Lemma Qceiling_between (v : Q) (k : Z) :
  inject_Z k - 1 < v -> v <= inject_Z k -> Qceiling v = k.
Proof.
  intros Hlow Hhigh. unfold Qceiling.
  rewrite (Qfloor_between (- v) (- k)); [lia | | ].
  - rewrite inject_Z_opp. lra.
  - rewrite inject_Z_opp. lra.
Qed.

(** A positive finite double with a negative exponent, as a quotient. *)
Lemma finite_as_quotient (m : positive) (e : Z) :
  (e < 0)%Z ->
  let d := (2 ^ (- e))%Z in
  (0 < d)%Z
  /\ 0 <= inject_Z (Z.pos m mod d) / inject_Z d
  /\ inject_Z (Z.pos m mod d) / inject_Z d < 1
  /\ ((Z.pos m mod d)%Z = 0%Z <-> inject_Z (Z.pos m mod d) / inject_Z d == 0)
  /\ inject_Z (Z.pos m) * 2 ^ e
     == inject_Z (Z.pos m / d) + inject_Z (Z.pos m mod d) / inject_Z d.
Proof.
  intros He d.
  assert (Hd : (0 < d)%Z) by (apply Z.pow_pos_nonneg; lia).
  pose proof (Z.div_mod (Z.pos m) d ltac:(lia)) as Hdm.
  pose proof (Z.mod_pos_bound (Z.pos m) d Hd) as [Hr0 Hr1].
  set (q := (Z.pos m / d)%Z) in *. set (r := (Z.pos m mod d)%Z) in *.
  assert (Hd' : 0 < inject_Z d)
    by (change 0 with (inject_Z 0); now rewrite <- Zlt_Qlt).
  assert (Hr0' : 0 <= inject_Z r)
    by (change 0 with (inject_Z 0); now rewrite <- Zle_Qle).
  assert (Hr1' : inject_Z r < inject_Z d) by (now rewrite <- Zlt_Qlt).
  assert (Hfd : inject_Z r / inject_Z d * inject_Z d == inject_Z r)
    by (field; lra).
  split; [exact Hd | ]. split; [ | split; [ | split]].
  - apply Qle_shift_div_l; [exact Hd' | lra].
  - apply Qlt_shift_div_r; [exact Hd' | lra].
  - split.
    + intros Hz. rewrite Hz. change (inject_Z 0) with 0. field. lra.
    + intros Hz. assert (Hr : inject_Z r == inject_Z 0)
        by (change (inject_Z 0) with 0; nra).
      rewrite inject_Z_injective in Hr. exact Hr.
  - assert (He2 : 2 ^ e == / inject_Z d).
    { unfold d. rewrite two_to_inject by lia. rewrite <- two_to_opp.
      replace (- - e)%Z with e by lia. reflexivity. }
    rewrite He2, Hdm, inject_Z_plus, inject_Z_mult. field. lra.
Qed.

Lemma canonical_quotient_bound (m : positive) (e : Z) :
  canonical m e -> (e < 0)%Z -> (Z.pos m / 2 ^ (- e) < 2 ^ 52)%Z.
Proof.
  intros Hc He. destruct (canonical_bounds m e Hc) as (Hm & _ & _).
  apply Z.div_lt_upper_bound; [apply Z.pow_pos_nonneg; lia | ].
  assert (2 ^ 1 <= 2 ^ (- e))%Z by (apply Z.pow_le_mono_r; lia).
  change (2 ^ 1)%Z with 2%Z in *. change (2 ^ 53)%Z with (2 * 2 ^ 52)%Z in Hm.
  nia.
Qed.

(** [Math.ceil] of a positive finite double. *)
Lemma ceil_value (x : float) :
  positive_finite x ->
  positive_finite (Binary64.ceil x)
  /\ to_Q (Binary64.ceil x) == inject_Z (Qceiling (to_Q x)).
Proof.
  intros Hx. pose proof Hx as (m & e & Hm).
  pose proof (Prim2SF_canonical x _ _ _ Hm) as Hc.
  unfold Binary64.ceil. rewrite Hm.
  destruct (Z.leb_spec 0 e) as [He | He].
  - split; [exact Hx | ].
    assert (Hv : to_Q x == inject_Z (Z.pos m * 2 ^ e)).
    { unfold to_Q. rewrite Hm. cbn [B2Q].
      rewrite inject_Z_mult, two_to_inject by lia. reflexivity. }
    rewrite (Qceiling_comp _ _ Hv), Qceiling_Z. exact Hv.
  - destruct (finite_as_quotient m e He) as (Hd & Hf0 & Hf1 & Hfz & Hv).
    pose proof (canonical_quotient_bound m e Hc He) as Hq.
    set (d := (2 ^ (- e))%Z) in *.
    assert (Hq0 : (0 <= Z.pos m / d)%Z) by (apply Z.div_pos; lia).
    set (q := (Z.pos m / d)%Z) in *. set (r := (Z.pos m mod d)%Z) in *.
    set (f := inject_Z r / inject_Z d) in *.
    assert (Hx' : to_Q x == inject_Z q + f)
      by (unfold to_Q; rewrite Hm; exact Hv).
    assert (Hq0' : 0 <= inject_Z q)
      by (change 0 with (inject_Z 0); now rewrite <- Zle_Qle).
    destruct (positive_finite_value x Hx) as [Hxpos _].
    destruct (Z.eqb_spec r 0) as [Hr | Hr].
    + assert (Hf : f == 0) by (now apply Hfz).
      assert (Hqpos : (0 < q)%Z).
      { assert (0 < inject_Z q) by lra.
        change 0 with (inject_Z 0) in H. now rewrite <- Zlt_Qlt in H. }
      destruct (of_Z_exact q ltac:(lia)) as [Hfin Hval].
      split; [exact Hfin | ]. rewrite Hval.
      rewrite (Qceiling_between (to_Q x) q); [reflexivity | lra | lra].
    + assert (Hf : ~ f == 0) by (intros H; apply Hr; now apply Hfz).
      destruct (of_Z_exact (q + 1) ltac:(lia)) as [Hfin Hval].
      split; [exact Hfin | ]. rewrite Hval.
      rewrite (Qceiling_between (to_Q x) (q + 1)); [reflexivity | | ];
        rewrite inject_Z_plus; change (inject_Z 1) with 1; lra.
Qed.

(** [Math.round] of a positive finite double: zero or a positive integer. *)
Lemma round_value (x : float) :
  positive_finite x ->
  (Binary64.round x = PrimFloat.zero \/ positive_finite (Binary64.round x))
  /\ to_Q (Binary64.round x) == inject_Z (Qfloor (to_Q x + (1 # 2))).
Proof.
  intros Hx. pose proof Hx as (m & e & Hm).
  pose proof (Prim2SF_canonical x _ _ _ Hm) as Hc.
  unfold Binary64.round. rewrite Hm.
  destruct (Z.leb_spec 0 e) as [He | He].
  - split; [now right | ].
    assert (Hv : to_Q x == inject_Z (Z.pos m * 2 ^ e)).
    { unfold to_Q. rewrite Hm. cbn [B2Q].
      rewrite inject_Z_mult, two_to_inject by lia. reflexivity. }
    rewrite (Qfloor_between _ (Z.pos m * 2 ^ e)); [exact Hv | lra | lra].
  - destruct (finite_as_quotient m e He) as (Hd & Hf0 & Hf1 & Hfz & Hv).
    pose proof (canonical_quotient_bound m e Hc He) as Hq.
    set (d := (2 ^ (- e))%Z) in *.
    assert (Hq0 : (0 <= Z.pos m / d)%Z) by (apply Z.div_pos; lia).
    pose proof (Z.mod_pos_bound (Z.pos m) d Hd) as [Hr0 Hr1].
    set (q := (Z.pos m / d)%Z) in *. set (r := (Z.pos m mod d)%Z) in *.
    assert (Hd' : 0 < inject_Z d)
      by (change 0 with (inject_Z 0); now rewrite <- Zlt_Qlt).
    assert (Hfd : inject_Z r / inject_Z d * inject_Z d == inject_Z r)
      by (field; lra).
    set (f := inject_Z r / inject_Z d) in *.
    assert (Hx' : to_Q x == inject_Z q + f)
      by (unfold to_Q; rewrite Hm; exact Hv).
    assert (H2r : inject_Z (2 * r) == 2 * inject_Z r)
      by (rewrite inject_Z_mult; reflexivity).
    destruct (Z.leb_spec d (2 * r)) as [Hup | Hdown].
    + assert (Hhalf : 1 # 2 <= f).
      { rewrite Zle_Qle, H2r in Hup. nra. }
      destruct (of_Z_exact (q + 1) ltac:(lia)) as [Hfin Hval].
      split; [now right | ]. rewrite Hval.
      rewrite (Qfloor_between _ (q + 1)); [reflexivity | | ];
        rewrite inject_Z_plus; change (inject_Z 1) with 1; lra.
    + assert (Hhalf : f < 1 # 2).
      { rewrite Zlt_Qlt, H2r in Hdown. nra. }
      assert (Hfloor : Qfloor (to_Q x + (1 # 2)) = q)
        by (apply Qfloor_between; lra).
      rewrite Hfloor.
      destruct (Z.eq_dec q 0) as [Hz | Hnz].
      * rewrite Hz. cbn [Binary64.of_Z]. split; [now left | reflexivity].
      * destruct (of_Z_exact q ltac:(lia)) as [Hfin Hval].
        split; [now right | exact Hval].
Qed.

(** *** Bounds by powers of two, and infinite results *)

(** *** Powers of two as bounds *)

Lemma is_mag_two_to (a : Z) : is_mag (2 ^ a) (a + 1).
Proof.
  split.
  - replace (a + 1 - 1)%Z with a by lia. apply Qle_refl.
  - apply two_to_lt. lia.
Qed.

Lemma rnd_two_to (a : Z) : (-1074 <= a)%Z -> rnd (2 ^ a) (a + 1) == 2 ^ a.
Proof.
  intros Ha. apply (rnd_exact_int _ _ (2 ^ (a - fexp64 (a + 1)))).
  rewrite <- two_to_plus, two_to_inject by (unfold fexp64; lia).
  replace (a + - fexp64 (a + 1))%Z with (a - fexp64 (a + 1))%Z by lia.
  reflexivity.
Qed.

Lemma rounds_to_above (v : Q) (z : float) (a : Z) :
  rounds_to v z -> (-1074 <= a <= 1024)%Z -> 2 ^ a <= v -> 2 ^ a <= to_Q z.
Proof.
  intros (M & HM & Hz) Ha Hv.
  pose proof (rnd_monotone _ _ _ _ (is_mag_two_to a) HM Hv) as Hmono.
  rewrite (rnd_two_to a) in Hmono by lia.
  assert (Hfin : 2 ^ a <= 2 ^ 1024) by (apply two_to_le; lia).
  destruct (round64_value z v M HM Hz) as [_ [[Hv1 _] | [Hv1 Hv2]]]; lra.
Qed.

Lemma rounds_to_below (v : Q) (z : float) (b : Z) :
  rounds_to v z -> (-1074 <= b <= 1023)%Z -> v <= 2 ^ b -> to_Q z <= 2 ^ b.
Proof.
  intros (M & HM & Hz) Hb Hv.
  pose proof (rnd_monotone _ _ _ _ HM (is_mag_two_to b) Hv) as Hmono.
  rewrite (rnd_two_to b) in Hmono by lia.
  assert (Hfin : 2 ^ b < 2 ^ 1024) by (apply two_to_lt; lia).
  destruct (round64_value z v M HM Hz) as [_ [[Hv1 _] | [Hv1 Hv2]]]; lra.
Qed.

(** Between two powers of two the result is a positive finite double. *)
Lemma rounds_to_finite (v : Q) (z : float) (a b : Z) :
  rounds_to v z -> (-1074 <= a <= 1024)%Z -> (-1074 <= b <= 1023)%Z ->
  2 ^ a <= v -> v <= 2 ^ b -> positive_finite z.
Proof.
  intros Hz Ha Hb Hav Hvb.
  pose proof (rounds_to_above v z a Hz Ha Hav) as Hlow.
  pose proof (rounds_to_below v z b Hz Hb Hvb) as Hhigh.
  pose proof (two_to_pos a) as Hpa.
  assert (Hfin : 2 ^ b < 2 ^ 1024) by (apply two_to_lt; lia).
  destruct (not_negative_cases z (rounds_to_not_negative v z Hz))
    as [[H0 _] | [Hf | [Hinf _]]]; [lra | exact Hf | lra].
Qed.

(** *** Infinities *)

Lemma leb_positive (a x : float) :
  positive_finite a -> (a <=? x)%float = true -> positive_or_infinite x.
Proof.
  intros (m & e & Ha). rewrite FloatAxioms.leb_spec, Ha.
  unfold positive_or_infinite, positive_finite.
  destruct (Prim2SF x) as [[ | ] | [ | ] | | [ | ] m' e']; cbn;
    try discriminate; intros _.
  - now right.
  - left. now exists m', e'.
Qed.


Lemma add_infinite (x y : float) :
  not_negative y -> Prim2SF x = S754_infinity false ->
  Prim2SF (x + y) = S754_infinity false.
Proof.
  unfold not_negative. intros Hy Hx. rewrite FloatAxioms.add_spec, Hx.
  destruct (Prim2SF y) as [s | s | | s m e]; cbn in Hy |- *;
    try contradiction; subst; reflexivity.
Qed.

Lemma infinity_not_below (x b : float) :
  Prim2SF x = S754_infinity false -> positive_finite b ->
  (x <=? b)%float = false.
Proof.
  intros Hx (m & e & Hb). now rewrite FloatAxioms.leb_spec, Hx, Hb.
Qed.

(** *** Literals *)

Lemma lit_10 : positive_finite (lit 10 : float) /\ to_Q (lit 10 : float) == 10.
Proof.
  split; [eexists; eexists; vm_compute; reflexivity | vm_compute; reflexivity].
Qed.

Lemma lit_5 : positive_finite (lit 5 : float) /\ to_Q (lit 5 : float) == 5.
Proof.
  split; [eexists; eexists; vm_compute; reflexivity | vm_compute; reflexivity].
Qed.


Lemma positive_finite_least (x : float) :
  positive_finite x -> 2 ^ (-1074) <= to_Q x.
Proof.
  intros (m & e & Hx). pose proof (Prim2SF_canonical x _ _ _ Hx) as Hc.
  destruct (canonical_bounds m e Hc) as (_ & He & _).
  unfold to_Q. rewrite Hx. cbn [B2Q].
  assert (H1 : 1 <= inject_Z (Z.pos m))
    by (change 1 with (inject_Z 1); rewrite <- Zle_Qle; lia).
  assert (H2 : 2 ^ (-1074) <= 2 ^ e) by (apply two_to_le; lia).
  pose proof (two_to_pos (-1074)). nra.
Qed.

(** *** Rounding up to one decimal, in doubles *)

Lemma times_10 (x : float) :
  positive_finite x -> to_Q x <= 2 ^ 1000 ->
  positive_finite (x * lit 10)%js
  /\ rounds_to (to_Q x * 10) (x * lit 10)%js.
Proof.
  intros Hx Hbound. destruct lit_10 as [H10 V10].
  pose proof (mul_rounds x (lit 10) Hx H10) as Hr.
  assert (Hr' : rounds_to (to_Q x * 10) (x * lit 10)%js).
  { destruct Hr as (M & HM & Hz). exists M. split.
    - apply (is_mag_wd (to_Q x * to_Q (lit 10 : float))); [now rewrite V10 | exact HM].
    - change (x * lit 10)%js with (x * lit 10)%float. rewrite Hz.
      apply round64_wd. now rewrite V10. }
  split; [ | exact Hr'].
  pose proof (positive_finite_least x Hx) as Hleast.
  apply (rounds_to_finite _ _ (-1074) 1004 Hr'); try lia.
  - lra.
  - apply Qle_trans with (2 ^ 1000 * 2 ^ 4).
    + change (2 ^ 4) with 16. pose proof (two_to_pos 1000). nra.
    + rewrite <- two_to_plus. apply two_to_le. lia.
Qed.

Lemma over_10 (k : float) :
  positive_finite k -> 1 <= to_Q k ->
  positive_finite (k / lit 10)%js
  /\ rounds_to (to_Q k / 10) (k / lit 10)%js.
Proof.
  intros Hk Hone. destruct lit_10 as [H10 V10].
  pose proof (div_rounds k (lit 10) Hk H10) as Hr.
  assert (Hr' : rounds_to (to_Q k / 10) (k / lit 10)%js).
  { destruct Hr as (M & HM & Hz). exists M. split.
    - apply (is_mag_wd (to_Q k / to_Q (lit 10 : float))); [now rewrite V10 | exact HM].
    - change (k / lit 10)%js with (k / lit 10)%float. rewrite Hz.
      apply round64_wd. now rewrite V10. }
  split; [ | exact Hr'].
  destruct (positive_finite_value k Hk) as [_ Hfin].
  apply (rounds_to_finite _ _ (-4) 1023 Hr'); try lia.
  - change (2 ^ (-4)) with (1 # 16). unfold Qdiv. change (/ 10) with (1 # 10). lra.
  - assert (H : 2 ^ 1024 == 2 * 2 ^ 1023) by (rewrite <- two_to_succ; reflexivity).
    pose proof (two_to_pos 1023). unfold Qdiv. change (/ 10) with (1 # 10). lra.
Qed.

(** What [ceil1] computes on a positive finite double: the product with
    10 rounded, its ceiling, and the quotient by 10 rounded. *)
Lemma ceil1_rounds (x : float) :
  positive_finite x -> to_Q x <= 2 ^ 1000 ->
  positive_finite (ceil1 x)
  /\ rounds_to (to_Q x * 10) (x * lit 10)%js
  /\ rounds_to (inject_Z (Qceiling (to_Q (x * lit 10)%js)) / 10) (ceil1 x).
Proof.
  intros Hx Hbound. destruct (times_10 x Hx Hbound) as [Hy Hyr].
  destruct (ceil_value _ Hy) as [Hk Hkv].
  destruct (positive_finite_value _ Hy) as [Hypos _].
  assert (Hone : 1 <= to_Q (Binary64.ceil (x * lit 10)%js)).
  { rewrite Hkv. change 1 with (inject_Z 1). rewrite <- Zle_Qle.
    assert (0 < Qceiling (to_Q (x * lit 10)%js))%Z; [ | lia].
    rewrite Zlt_Qlt. pose proof (Qle_ceiling (to_Q (x * lit 10)%js)).
    change (inject_Z 0) with 0. lra. }
  destruct (over_10 _ Hk Hone) as [Hw Hwr].
  split; [exact Hw | ]. split; [exact Hyr | ].
  destruct Hwr as (M & HM & Hz). exists M. split.
  - apply (is_mag_wd (to_Q (Binary64.ceil (x * lit 10)%js) / 10));
      [now rewrite Hkv | exact HM].
  - unfold ceil1. change (Math_ceil (x * lit 10)%js) with (Binary64.ceil (x * lit 10)%js).
    rewrite Hz. apply round64_wd. now rewrite Hkv.
Qed.







(** *** Zeros and signs *)

Lemma add_zero_r (x w : float) (s : bool) :
  positive_finite x -> Prim2SF w = S754_zero s -> (x + w)%float = x.
Proof.
  intros (m & e & Hx) Hw. apply Prim2SF_inj.
  rewrite FloatAxioms.add_spec, Hx, Hw. reflexivity.
Qed.

Lemma lit_0 : Prim2SF (lit 0 : float) = S754_zero false.
Proof. vm_compute. reflexivity. Qed.

Lemma ltb_positive (x : float) :
  (lit 0 < x)%js = true -> positive_or_infinite x.
Proof.
  change (lit 0 < x)%js with (lit 0 <? x)%float.
  rewrite FloatAxioms.ltb_spec, lit_0.
  unfold positive_or_infinite, positive_finite.
  destruct (Prim2SF x) as [[ | ] | [ | ] | | [ | ] m' e']; cbn;
    try discriminate; intros _.
  - now right.
  - left. now exists m', e'.
Qed.

Lemma positive_finite_gtb (x : float) :
  positive_finite x -> (x > lit 0)%js = true.
Proof.
  intros (m & e & Hx). change (x > lit 0)%js with (lit 0 <? x)%float.
  rewrite FloatAxioms.ltb_spec, lit_0, Hx. reflexivity.
Qed.



Lemma lit_tenth :
  positive_finite (lit 0.1 : float)
  /\ to_Q (lit 0.1 : float) == 3602879701896397 # 36028797018963968.
Proof.
  split; [eexists; eexists; vm_compute; reflexivity | vm_compute; reflexivity].
Qed.









Lemma rounds_to_within (v : Q) (z : float) (K : Z) :
  rounds_to v z -> to_Q z < 2 ^ 1024 -> v < 2 ^ K -> (-1021 <= K)%Z ->
  v - 2 ^ (K - 54) <= to_Q z /\ to_Q z <= v + 2 ^ (K - 54).
Proof.
  intros Hr Hfin Hv HK.
  pose proof (rounds_to_error v z K Hr Hfin Hv HK) as Herr.
  apply Qabs_Qle_condition in Herr. split; lra.
Qed.

(** [ceil1] in doubles, below [2^41]: at least its argument and less than
    a tenth above it, up to [2^-11]. *)
Lemma ceil1_error (x : float) :
  positive_finite x -> to_Q x <= 2 ^ 41 ->
  to_Q x - 2 ^ (-11) <= to_Q (ceil1 x)
  /\ to_Q (ceil1 x) <= to_Q x + (1 # 10) + 2 ^ (-11).
Proof.
  intros Hx H41.
  assert (Hbound : to_Q x <= 2 ^ 1000).
  { apply Qle_trans with (2 ^ 41); [exact H41 | apply two_to_le; lia]. }
  destruct (times_10 x Hx Hbound) as [Hy _].
  destruct (ceil1_rounds x Hx Hbound) as (Hc & Hyr & Hr).
  destruct (positive_finite_value _ Hy) as [_ Hyfin].
  destruct (positive_finite_value _ Hc) as [_ Hcfin].
  assert (E41 : 2 ^ 41 == 2199023255552) by reflexivity.
  assert (E45 : 2 ^ 45 == 35184372088832) by reflexivity.
  assert (E42 : 2 ^ 42 == 4398046511104) by reflexivity.
  assert (E9 : 2 ^ (45 - 54) == 1 # 512) by reflexivity.
  assert (E12 : 2 ^ (42 - 54) == 1 # 4096) by reflexivity.
  assert (E11 : 2 ^ (-11) == 1 # 2048) by reflexivity.
  destruct (rounds_to_within _ _ 45 Hyr Hyfin ltac:(lra) ltac:(lia))
    as [Hy1 Hy2].
  set (y := to_Q (x * lit 10)%js) in *.
  pose proof (Qle_ceiling y) as Hk1.
  pose proof (Qceiling_lt y) as Hk2.
  unfold Z.sub in Hk2. rewrite inject_Z_plus in Hk2.
  change (inject_Z (- (1))) with (- (1)) in Hk2.
  set (k := inject_Z (Qceiling y)) in *.
  assert (Hk42 : k / 10 < 2 ^ 42).
  { unfold Qdiv. change (/ 10) with (1 # 10). lra. }
  destruct (rounds_to_within _ _ 42 Hr Hcfin Hk42 ltac:(lia)) as [Hc1 Hc2].
  unfold Qdiv in Hc1, Hc2. change (/ 10) with (1 # 10) in Hc1, Hc2.
  split; lra.
Qed.

(** *** Signs *)

Lemma is_mag_same (v : Q) (M N : Z) : is_mag v M -> is_mag v N -> M = N.
Proof.
  intros HM HN.
  pose proof (is_mag_unique v v M N HM HN ltac:(lra)).
  pose proof (is_mag_unique v v N M HN HM ltac:(lra)). lia.
Qed.

Lemma round64_opp (v : Q) (M : Z) :
  round64 true v M = SFopp (round64 false v M).
Proof.
  unfold round64, pack.
  destruct (rne (v * 2 ^ (- fexp64 M))) as [ | p | p]; cbn [SFopp negb];
    try reflexivity.
  destruct (Z.pos p =? 2 ^ 53)%Z.
  - destruct (fexp64 M + 1 <=? 971)%Z; reflexivity.
  - destruct (fexp64 M <=? 971)%Z; reflexivity.
Qed.

Lemma mul_opp_r (x y : float) :
  positive_finite x -> positive_finite y -> (x * - y)%float = (- (x * y))%float.
Proof.
  intros (mx & ex & Hx) (my & ey & Hy). apply Prim2SF_inj.
  rewrite FloatAxioms.opp_spec, !FloatAxioms.mul_spec, FloatAxioms.opp_spec.
  rewrite Hx, Hy. cbn [SFopp negb].
  pose proof (Prim2SF_canonical x _ _ _ Hx) as Hcx.
  pose proof (Prim2SF_canonical y _ _ _ Hy) as Hcy.
  destruct (SFmul_round false true mx my ex ey Hcx Hcy) as (M & HM & HM').
  destruct (SFmul_round false false mx my ex ey Hcx Hcy) as (N & HN & HN').
  unfold SF64mul. rewrite HM', HN'. rewrite (is_mag_same _ _ _ HM HN).
  apply round64_opp.
Qed.

Lemma div_opp_l (x y : float) :
  positive_finite x -> positive_finite y -> (- x / y)%float = (- (x / y))%float.
Proof.
  intros (mx & ex & Hx) (my & ey & Hy). apply Prim2SF_inj.
  rewrite FloatAxioms.opp_spec, !FloatAxioms.div_spec, FloatAxioms.opp_spec.
  rewrite Hx, Hy. cbn [SFopp negb].
  pose proof (Prim2SF_canonical x _ _ _ Hx) as Hcx.
  pose proof (Prim2SF_canonical y _ _ _ Hy) as Hcy.
  destruct (SFdiv_round true false mx my ex ey Hcx Hcy) as (M & HM & HM').
  destruct (SFdiv_round false false mx my ex ey Hcx Hcy) as (N & HN & HN').
  unfold SF64div. rewrite HM', HN'. rewrite (is_mag_same _ _ _ HM HN).
  apply round64_opp.
Qed.

Lemma div_opp_opp (x y : float) :
  positive_finite x -> positive_finite y -> (- x / - y)%float = (x / y)%float.
Proof.
  intros (mx & ex & Hx) (my & ey & Hy). apply Prim2SF_inj.
  rewrite !FloatAxioms.div_spec, !FloatAxioms.opp_spec.
  rewrite Hx, Hy. cbn [SFopp negb].
  pose proof (Prim2SF_canonical x _ _ _ Hx) as Hcx.
  pose proof (Prim2SF_canonical y _ _ _ Hy) as Hcy.
  destruct (SFdiv_round true true mx my ex ey Hcx Hcy) as (M & HM & HM').
  destruct (SFdiv_round false false mx my ex ey Hcx Hcy) as (N & HN & HN').
  unfold SF64div. rewrite HM', HN'. now rewrite (is_mag_same _ _ _ HM HN).
Qed.

Lemma lit_1604 :
  positive_finite (lit 1604 : float) /\ to_Q (lit 1604 : float) == 1604.
Proof.
  split; [eexists; eexists; vm_compute; reflexivity | vm_compute; reflexivity].
Qed.

Lemma lit_100 :
  positive_finite (lit 100 : float) /\ to_Q (lit 100 : float) == 100.
Proof.
  split; [eexists; eexists; vm_compute; reflexivity | vm_compute; reflexivity].
Qed.

(** The sign of the volume solids cancels, whatever is rounded. *)
Lemma calculateSpreadingRate_opp (w t : float) :
  positive_finite w -> positive_finite t ->
  positive_finite (w * t)%float ->
  positive_finite (w * t / lit 100)%float ->
  positive_finite (lit 1604 * t)%float ->
  calculateSpreadingRate w (- t)%float = calculateSpreadingRate w t.
Proof.
  intros Hw Ht Hwt Hdft Hnum.
  unfold calculateSpreadingRate, CONSTANTS.COVERAGE_CONSTANT.
  cbn [mul div binary64].
  rewrite (mul_opp_r w t Hw Ht).
  rewrite (mul_opp_r (lit 1604) t (proj1 lit_1604) Ht).
  rewrite (div_opp_l (w * t) (lit 100) Hwt (proj1 lit_100)).
  now rewrite (div_opp_opp _ _ Hnum Hdft).
Qed.

(** A double whose magnitude lies between two positive doubles is one of
    them up to its sign. *)
Lemma abs_cases (s lo hi : float) :
  positive_finite lo -> positive_finite hi ->
  (lo <=? abs s)%float = true -> (abs s <=? hi)%float = true ->
  exists t, positive_finite t
            /\ to_Q lo <= to_Q t /\ to_Q t <= to_Q hi
            /\ (s = t \/ s = (- t)%float).
Proof.
  intros Hlo Hhi Hlow Hhigh. exists (abs s).
  assert (Hpf : positive_finite (abs s)).
  { destruct (leb_positive lo (abs s) Hlo Hlow) as [Hpf | Hinf]; [exact Hpf | ].
    rewrite (infinity_not_below _ hi Hinf Hhi) in Hhigh. discriminate. }
  split; [exact Hpf | ].
  split; [apply leb_values; auto using positive_finite_not_negative | ].
  split; [apply leb_values; auto using positive_finite_not_negative | ].
  destruct Hpf as (m & e & Habs).
  rewrite FloatAxioms.abs_spec in Habs.
  destruct (Prim2SF s) as [ | | | [ | ] m' e'] eqn:Hs; try discriminate;
    cbn [SFabs] in Habs.
  - right. apply Prim2SF_inj.
    rewrite FloatAxioms.opp_spec, FloatAxioms.abs_spec, Hs. reflexivity.
  - left. apply Prim2SF_inj. rewrite FloatAxioms.abs_spec, Hs. reflexivity.
Qed.

(** *** Products and quotients that stay in the normal range *)

Lemma two_to_le_inv (a b : Z) : 2 ^ a <= 2 ^ b -> (a <= b)%Z.
Proof.
  intros H. destruct (Z_le_gt_dec a b) as [Hle | Hgt]; [assumption | ].
  pose proof (two_to_lt b a ltac:(lia)). lra.
Qed.

Lemma Qdiv_le_compat (x1 x2 y1 y2 : Q) :
  0 < x1 -> x1 <= x2 -> 0 < y1 -> y1 <= y2 -> x1 / y2 <= x2 / y1.
Proof.
  intros Hx1 Hx Hy1 Hy.
  apply Qle_shift_div_l; [exact Hy1 | ].
  assert (E : x1 / y2 * y1 == x1 * y1 / y2) by (field; lra).
  rewrite E. apply Qle_shift_div_r; [lra | ]. nra.
Qed.

Lemma rounds_to_in_range (v : Q) (z : float) (a b : Z) :
  rounds_to v z -> (-1022 <= a)%Z -> (b <= 1023)%Z ->
  2 ^ a <= v -> v <= 2 ^ b ->
  positive_finite z
  /\ (2 ^ a <= to_Q z /\ to_Q z <= 2 ^ b)
  /\ (1 - 2 ^ (-53)) * v <= to_Q z /\ to_Q z <= (1 + 2 ^ (-53)) * v.
Proof.
  intros Hr Ha Hb Hav Hvb.
  assert (Hab : (a <= b)%Z) by (apply two_to_le_inv; lra).
  pose proof (rounds_to_finite v z a b Hr ltac:(lia) ltac:(lia) Hav Hvb) as Hz.
  split; [exact Hz | ].
  split.
  { split; [apply (rounds_to_above v z a Hr); [lia | exact Hav]
           | apply (rounds_to_below v z b Hr); [lia | exact Hvb]]. }
  destruct (positive_finite_value z Hz) as [_ Hfin].
  assert (Hnormal : 2 ^ (-1022) <= v).
  { apply Qle_trans with (2 ^ a); [apply two_to_le; lia | exact Hav]. }
  pose proof (rounds_to_relative_error v z Hr Hfin Hnormal) as Herr.
  apply Qabs_Qle_condition in Herr. split; lra.
Qed.

Lemma mul_in_range (x y : float) (a b c d : Z) :
  positive_finite x -> positive_finite y ->
  2 ^ a <= to_Q x -> to_Q x <= 2 ^ b ->
  2 ^ c <= to_Q y -> to_Q y <= 2 ^ d ->
  (-1022 <= a + c)%Z -> (b + d <= 1023)%Z ->
  positive_finite (x * y)%float
  /\ (2 ^ (a + c) <= to_Q (x * y)%float /\ to_Q (x * y)%float <= 2 ^ (b + d))
  /\ (1 - 2 ^ (-53)) * (to_Q x * to_Q y) <= to_Q (x * y)%float
  /\ to_Q (x * y)%float <= (1 + 2 ^ (-53)) * (to_Q x * to_Q y).
Proof.
  intros Hx Hy Hxa Hxb Hyc Hyd Hlow Hhigh.
  pose proof (two_to_pos a). pose proof (two_to_pos c).
  apply (rounds_to_in_range _ _ (a + c) (b + d) (mul_rounds x y Hx Hy));
    try assumption; rewrite two_to_plus; nra.
Qed.

Lemma div_in_range (x y : float) (a b c d : Z) :
  positive_finite x -> positive_finite y ->
  2 ^ a <= to_Q x -> to_Q x <= 2 ^ b ->
  2 ^ c <= to_Q y -> to_Q y <= 2 ^ d ->
  (-1022 <= a - d)%Z -> (b - c <= 1023)%Z ->
  positive_finite (x / y)%float
  /\ (2 ^ (a - d) <= to_Q (x / y)%float /\ to_Q (x / y)%float <= 2 ^ (b - c))
  /\ (1 - 2 ^ (-53)) * (to_Q x / to_Q y) <= to_Q (x / y)%float
  /\ to_Q (x / y)%float <= (1 + 2 ^ (-53)) * (to_Q x / to_Q y).
Proof.
  intros Hx Hy Hxa Hxb Hyc Hyd Hlow Hhigh.
  pose proof (two_to_pos a). pose proof (two_to_pos c).
  destruct (positive_finite_value x Hx) as [Hxpos _].
  destruct (positive_finite_value y Hy) as [Hypos _].
  apply (rounds_to_in_range _ _ (a - d) (b - c) (div_rounds x y Hx Hy));
    try assumption; rewrite two_to_minus; apply Qdiv_le_compat;
    try assumption; lra.
Qed.

(** Bounds on a quotient whose numerator and denominator both carry the
    factor [b]. *)
Lemma quotient_upper (A B a b hA lB : Q) :
  0 < a -> 0 < b -> 0 < A -> 0 < B ->
  A <= hA * b -> lB * (a * b) <= B -> lB * (A / B) <= hA * / a.
Proof.
  intros Ha Hb HA0 HB HA HlBB.
  assert (Hv : A / B * B == A) by (field; lra).
  assert (Hvpos : 0 < A / B) by (apply Qlt_shift_div_l; lra).
  set (v := A / B) in *.
  assert (Hia : 0 < / a) by now apply Qinv_lt_0_compat.
  assert (H1 : lB * (a * b) * v <= B * v)
    by (apply Qmult_le_compat_r; [exact HlBB | lra]).
  assert (H2 : (lB * a * v) * b <= hA * b).
  { assert (E : lB * a * v * b == lB * (a * b) * v) by ring.
    assert (E' : B * v == A) by (rewrite <- Hv; ring). lra. }
  assert (H3 : lB * a * v <= hA) by (apply (Qmult_le_r _ _ b Hb); exact H2).
  assert (H4 : (lB * a * v) * / a <= hA * / a)
    by (apply Qmult_le_compat_r; [exact H3 | lra]).
  assert (H5 : (lB * a * v) * / a == lB * v) by (field; lra).
  lra.
Qed.

Lemma quotient_lower (A B a b lA hB : Q) :
  0 < a -> 0 < b -> 0 < A -> 0 < B ->
  lA * b <= A -> B <= hB * (a * b) -> lA * / a <= hB * (A / B).
Proof.
  intros Ha Hb HA0 HB HA HhBB.
  assert (Hv : A / B * B == A) by (field; lra).
  assert (Hvpos : 0 < A / B) by (apply Qlt_shift_div_l; lra).
  set (v := A / B) in *.
  assert (Hia : 0 < / a) by now apply Qinv_lt_0_compat.
  assert (H1 : B * v <= hB * (a * b) * v)
    by (apply Qmult_le_compat_r; [exact HhBB | lra]).
  assert (H2 : lA * b <= (hB * a * v) * b).
  { assert (E : hB * a * v * b == hB * (a * b) * v) by ring.
    assert (E' : B * v == A) by (rewrite <- Hv; ring). lra. }
  assert (H3 : lA <= hB * a * v) by (apply (Qmult_le_r _ _ b Hb); exact H2).
  assert (H4 : lA * / a <= (hB * a * v) * / a)
    by (apply Qmult_le_compat_r; [exact H3 | lra]).
  assert (H5 : (hB * a * v) * / a == hB * v) by (field; lra).
  lra.
Qed.

Lemma literal_ranges :
  (2 ^ 6 <= to_Q (lit 100 : float) /\ to_Q (lit 100 : float) <= 2 ^ 7)
  /\ (2 ^ 10 <= to_Q (lit 1604 : float) /\ to_Q (lit 1604 : float) <= 2 ^ 11)
  /\ (2 ^ 3 <= to_Q (lit 10 : float) /\ to_Q (lit 10 : float) <= 2 ^ 4).
Proof. repeat split; vm_compute; discriminate. Qed.

(** The spreading rate before [Math.round], times ten: within six units in
    the last place of [1604000 / w], whatever the volume solids. *)
Lemma coverage_times_ten (w t : float) :
  positive_finite w -> positive_finite t ->
  2 ^ (-27) <= to_Q w -> to_Q w <= 2 ^ 333 ->
  2 ^ (-333) <= to_Q t -> to_Q t <= 2 ^ 333 ->
  positive_finite (w * t)%float
  /\ positive_finite (w * t / lit 100)%float
  /\ positive_finite (lit 1604 * t)%float
  /\ positive_finite (lit 1604 * t / (w * t / lit 100) * lit 10)%float
  /\ (1 - (6 # 9007199254740992)) * (1604000 * / to_Q w)
     <= to_Q (lit 1604 * t / (w * t / lit 100) * lit 10)%float
  /\ to_Q (lit 1604 * t / (w * t / lit 100) * lit 10)%float
     <= (1 + (6 # 9007199254740992)) * (1604000 * / to_Q w).
Proof.
  intros Hw Ht Hw1 Hw2 Ht1 Ht2.
  destruct lit_100 as [H100 V100]. destruct lit_1604 as [H1604 V1604].
  destruct lit_10 as [H10 V10].
  destruct literal_ranges as ([R100 R100'] & [R1604 R1604'] & [R10 R10']).
  assert (E53 : 2 ^ (-53) == 1 # 9007199254740992) by reflexivity.
  destruct (mul_in_range w t (-27) 333 (-333) 333 Hw Ht Hw1 Hw2 Ht1 Ht2
              ltac:(lia) ltac:(lia)) as (HB1 & [B1a B1b] & B1l & B1h).
  destruct (div_in_range _ _ _ _ 6 7 HB1 H100 B1a B1b R100 R100'
              ltac:(lia) ltac:(lia)) as (HB2 & [B2a B2b] & B2l & B2h).
  destruct (mul_in_range _ t 10 11 (-333) 333 H1604 Ht R1604 R1604' Ht1 Ht2
              ltac:(lia) ltac:(lia)) as (HA & [Aa Ab] & Al & Ah).
  destruct (div_in_range _ _ _ _ _ _ HA HB2 Aa Ab B2a B2b
              ltac:(lia) ltac:(lia)) as (HC & [Ca Cb] & Cl & Ch).
  destruct (mul_in_range _ _ _ _ 3 4 HC H10 Ca Cb R10 R10'
              ltac:(lia) ltac:(lia)) as (HY & _ & Yl & Yh).
  repeat (split; [assumption | ]).
  destruct (positive_finite_value w Hw) as [Hwpos _].
  destruct (positive_finite_value t Ht) as [Htpos _].
  destruct (positive_finite_value _ HA) as [HApos _].
  destruct (positive_finite_value _ HB2) as [HB2pos _].
  rewrite E53, V100 in B2l, B2h. rewrite E53 in B1l, B1h, Cl, Ch.
  rewrite E53, V1604 in Al, Ah. rewrite E53, V10 in Yl, Yh.
  unfold Qdiv in B2l, B2h. change (/ 100) with (1 # 100) in B2l, B2h.
  set (u := 1 # 9007199254740992) in *.
  pose proof (quotient_upper (to_Q (lit 1604 * t)%float)
                (to_Q (w * t / lit 100)%float) (to_Q w) (to_Q t)
                (1604 * (1 + u)) ((1 - u) * (1 - u) * (1 # 100))
                Hwpos Htpos HApos HB2pos) as Hup.
  pose proof (quotient_lower (to_Q (lit 1604 * t)%float)
                (to_Q (w * t / lit 100)%float) (to_Q w) (to_Q t)
                (1604 * (1 - u)) ((1 + u) * (1 + u) * (1 # 100))
                Hwpos Htpos HApos HB2pos) as Hdown.
  assert (Hia : 0 < / to_Q w) by now apply Qinv_lt_0_compat.
  set (qa := to_Q w) in *. set (qb := to_Q t) in *.
  set (qB1 := to_Q (w * t)%float) in *.
  set (qB2 := to_Q (w * t / lit 100)%float) in *.
  set (qA := to_Q (lit 1604 * t)%float) in *.
  set (qC := to_Q (lit 1604 * t / (w * t / lit 100))%float) in *.
  set (qY := to_Q (lit 1604 * t / (w * t / lit 100) * lit 10)%float) in *.
  set (p := qa * qb) in *. set (v := qA / qB2) in *. set (ia := / qa) in *.
  unfold u in *.
  specialize (Hup ltac:(lra) ltac:(lra)).
  specialize (Hdown ltac:(lra) ltac:(lra)).
  split; lra.
Qed.

(** *** Negative doubles, by symmetry *)

Lemma to_Q_opp (x : float) : to_Q (- x)%float == - to_Q x.
Proof.
  unfold to_Q. rewrite FloatAxioms.opp_spec.
  destruct (Prim2SF x) as [s | [ | ] | | [ | ] m e]; cbn [SFopp B2Q negb];
    try reflexivity; ring.
Qed.

Lemma mul_opp_l (x y : float) :
  positive_finite x -> positive_finite y -> (- x * y)%float = (- (x * y))%float.
Proof.
  intros (mx & ex & Hx) (my & ey & Hy). apply Prim2SF_inj.
  rewrite FloatAxioms.opp_spec, !FloatAxioms.mul_spec, FloatAxioms.opp_spec.
  rewrite Hx, Hy. cbn [SFopp negb].
  pose proof (Prim2SF_canonical x _ _ _ Hx) as Hcx.
  pose proof (Prim2SF_canonical y _ _ _ Hy) as Hcy.
  destruct (SFmul_round true false mx my ex ey Hcx Hcy) as (M & HM & HM').
  destruct (SFmul_round false false mx my ex ey Hcx Hcy) as (N & HN & HN').
  unfold SF64mul. rewrite HM', HN'. rewrite (is_mag_same _ _ _ HM HN).
  apply round64_opp.
Qed.

Lemma add_opp_opp (x y : float) :
  positive_finite x -> positive_finite y ->
  (- x + - y)%float = (- (x + y))%float.
Proof.
  intros (mx & ex & Hx) (my & ey & Hy). apply Prim2SF_inj.
  rewrite FloatAxioms.opp_spec, !FloatAxioms.add_spec, !FloatAxioms.opp_spec.
  rewrite Hx, Hy. cbn [SFopp negb]. unfold SF64add.
  cbn [SFadd cond_Zopp]. set (ez := Z.min ex ey).
  set (ax := fst (shl_align mx ex ez)). set (ay := fst (shl_align my ey ez)).
  change (Z.pos ax + Z.pos ay)%Z with (Z.pos (ax + ay)).
  change (- Z.pos ax + - Z.pos ay)%Z with (Z.neg (ax + ay)).
  cbn [binary_normalize]. rewrite !binary_round_correct.
  apply round64_opp.
Qed.

Lemma add_opp_zero (x w : float) :
  positive_finite x -> Prim2SF w = S754_zero false ->
  (- x + - w)%float = (- x)%float.
Proof.
  intros (m & e & Hx) Hw. apply Prim2SF_inj.
  rewrite FloatAxioms.add_spec, !FloatAxioms.opp_spec, Hx, Hw. reflexivity.
Qed.

(** [Math.ceil] of a negative double: minus the floor of its magnitude. *)
Lemma ceil_opp (y : float) :
  positive_finite y ->
  exists z,
    Binary64.ceil (- y)%float = (- z)%float
    /\ (z = PrimFloat.zero \/ positive_finite z)
    /\ to_Q z == inject_Z (Qfloor (to_Q y)).
Proof.
  intros Hy. pose proof Hy as (m & e & Hm).
  pose proof (Prim2SF_canonical y _ _ _ Hm) as Hc.
  unfold Binary64.ceil. rewrite FloatAxioms.opp_spec, Hm. cbn [SFopp negb].
  destruct (Z.leb_spec 0 e) as [He | He].
  - exists y. split; [reflexivity | ]. split; [now right | ].
    assert (Hv : to_Q y == inject_Z (Z.pos m * 2 ^ e)).
    { unfold to_Q. rewrite Hm. cbn [B2Q].
      rewrite inject_Z_mult, two_to_inject by lia. reflexivity. }
    rewrite (Qfloor_comp _ _ Hv), Qfloor_Z. exact Hv.
  - destruct (finite_as_quotient m e He) as (Hd & Hf0 & Hf1 & Hfz & Hv).
    pose proof (canonical_quotient_bound m e Hc He) as Hq.
    set (d := (2 ^ (- e))%Z) in *.
    assert (Hq0 : (0 <= Z.pos m / d)%Z) by (apply Z.div_pos; lia).
    set (q := (Z.pos m / d)%Z) in *. set (r := (Z.pos m mod d)%Z) in *.
    set (f := inject_Z r / inject_Z d) in *.
    assert (Hy' : to_Q y == inject_Z q + f)
      by (unfold to_Q; rewrite Hm; exact Hv).
    assert (Hfloor : Qfloor (to_Q y) = q) by (apply Qfloor_between; lra).
    exists (Binary64.of_Z q). split; [reflexivity | ]. rewrite Hfloor.
    destruct (Z.eq_dec q 0) as [Hz | Hnz].
    + rewrite Hz. split; [now left | reflexivity].
    + destruct (of_Z_exact q ltac:(lia)) as [Hfin Hval].
      split; [now right | exact Hval].
Qed.

(** [ceil1] of a negative double, down to [-2^41]: as for positive ones,
    at least its argument and less than a tenth above it, up to [2^-11]. *)
Lemma ceil1_error_opp (y : float) :
  positive_finite y -> to_Q y <= 2 ^ 41 ->
  - to_Q y - 2 ^ (-11) <= to_Q (ceil1 (- y)%float)
  /\ to_Q (ceil1 (- y)%float) <= - to_Q y + (1 # 10) + 2 ^ (-11).
Proof.
  intros Hy H41.
  assert (Hbound : to_Q y <= 2 ^ 1000).
  { apply Qle_trans with (2 ^ 41); [exact H41 | apply two_to_le; lia]. }
  destruct lit_10 as [H10 V10].
  destruct (times_10 y Hy Hbound) as [HY HYr].
  destruct (positive_finite_value _ HY) as [HYpos HYfin].
  assert (E41 : 2 ^ 41 == 2199023255552) by reflexivity.
  assert (E45 : 2 ^ 45 == 35184372088832) by reflexivity.
  assert (E42 : 2 ^ 42 == 4398046511104) by reflexivity.
  assert (E9 : 2 ^ (45 - 54) == 1 # 512) by reflexivity.
  assert (E12 : 2 ^ (42 - 54) == 1 # 4096) by reflexivity.
  assert (E11 : 2 ^ (-11) == 1 # 2048) by reflexivity.
  destruct (rounds_to_within _ _ 45 HYr HYfin ltac:(lra) ltac:(lia))
    as [HY1 HY2].
  unfold ceil1. cbn [mul div Math_ceil binary64].
  rewrite (mul_opp_l y (lit 10) Hy H10).
  change (y * lit 10)%js with (y * lit 10)%float in *.
  set (Y := (y * lit 10)%float) in *.
  destruct (ceil_opp Y HY) as (z & -> & Hz & Vz).
  pose proof (Qfloor_le (to_Q Y)) as Hq1.
  pose proof (Qlt_floor (to_Q Y)) as Hq2.
  rewrite inject_Z_plus in Hq2. change (inject_Z 1) with 1 in Hq2.
  rewrite <- Vz in Hq1, Hq2.
  destruct Hz as [-> | Hz].
  - assert (E0 : to_Q (- PrimFloat.zero / lit 10)%float == 0)
      by (vm_compute; reflexivity).
    assert (E0' : to_Q PrimFloat.zero == 0) by reflexivity.
    rewrite E0. rewrite E0' in Hq1, Hq2. split; lra.
  - rewrite (div_opp_l z (lit 10) Hz H10), to_Q_opp.
    assert (Hone : 1 <= to_Q z).
    { destruct (positive_finite_value z Hz) as [Hzpos _].
      rewrite Vz in Hzpos |- *. change 0 with (inject_Z 0) in Hzpos.
      rewrite <- Zlt_Qlt in Hzpos. change 1 with (inject_Z 1).
      rewrite <- Zle_Qle. lia. }
    destruct (over_10 z Hz Hone) as [Hc Hr].
    destruct (positive_finite_value _ Hc) as [_ Hcfin].
    assert (Hk42 : to_Q z / 10 < 2 ^ 42).
    { unfold Qdiv. change (/ 10) with (1 # 10). lra. }
    change (z / lit 10)%js with (z / lit 10)%float in *.
    destruct (rounds_to_within _ _ 42 Hr Hcfin Hk42 ltac:(lia)) as [Hc1 Hc2].
    unfold Qdiv in Hc1, Hc2. change (/ 10) with (1 # 10) in Hc1, Hc2.
    split; lra.
Qed.

(** The total with waste of a positive total, and of its opposite. *)
Lemma total_with_waste (t : float) :
  positive_finite t -> to_Q t <= 1000000000000 ->
  exists x,
    positive_finite x
    /\ (t + t * lit 0.1)%float = x
    /\ (- t + - t * lit 0.1)%float = (- x)%float
    /\ to_Q t * (11 # 10) - (1 # 4096) <= to_Q x
    /\ to_Q x <= to_Q t * (11 # 10) + (1 # 4096).
Proof.
  intros Ht Ht12. destruct lit_tenth as [H01 V01].
  destruct (positive_finite_value t Ht) as [Htpos Htfin].
  assert (E41 : 2 ^ 41 == 2199023255552) by reflexivity.
  assert (E37 : 2 ^ 37 == 137438953472) by reflexivity.
  assert (E17 : 2 ^ (37 - 54) == 1 # 131072) by reflexivity.
  assert (E13 : 2 ^ (41 - 54) == 1 # 8192) by reflexivity.
  pose proof (mul_rounds t (lit 0.1) Ht H01) as HrW.
  rewrite (mul_opp_l t (lit 0.1) Ht H01).
  set (w := (t * lit 0.1)%float) in *.
  assert (Hwt : to_Q w <= to_Q t).
  { apply (rounds_to_at_most _ _ _ HrW Ht). rewrite V01. lra. }
  assert (Hwfin : to_Q w < 2 ^ 1024) by lra.
  assert (Hw37 : to_Q t * to_Q (lit 0.1 : float) < 2 ^ 37)
    by (rewrite V01; lra).
  destruct (rounds_to_within _ _ 37 HrW Hwfin Hw37 ltac:(lia)) as [Hw1 Hw2].
  rewrite V01 in Hw1, Hw2.
  destruct (not_negative_cases w (rounds_to_not_negative _ _ HrW))
    as [[Hw0 [s Hz]] | [Hwf | [Hwinf _]]]; [ | | lra].
  - assert (Hs : s = false).
    { destruct HrW as (M & HM & HrW). rewrite Hz in HrW.
      destruct (round64_cases _ M HM)
        as [[_ Hc] | [(_ & _ & m & e & Hc & _) | [_ Hc]]];
        rewrite Hc in HrW; congruence. }
    subst s. exists t. split; [exact Ht | ].
    split; [apply (add_zero_r t w false Ht Hz) | ].
    split; [apply (add_opp_zero t w Ht Hz) | ]. split; lra.
  - exists (t + w)%float.
    pose proof (add_rounds t w Ht Hwf) as HrS.
    destruct (positive_finite_value w Hwf) as [Hwpos _].
    assert (Hxf : positive_finite (t + w)%float).
    { apply (rounds_to_finite _ _ (-1074) 41 HrS); try lia.
      - pose proof (positive_finite_least t Ht). lra.
      - lra. }
    split; [exact Hxf | ]. split; [reflexivity | ].
    split; [apply (add_opp_opp t w Ht Hwf) | ].
    assert (Hxfin : to_Q (t + w)%float < 2 ^ 1024)
      by apply (positive_finite_value _ Hxf).
    assert (Hx41 : to_Q t + to_Q w < 2 ^ 41) by lra.
    destruct (rounds_to_within _ _ 41 HrS Hxfin Hx41 ltac:(lia)) as [Hx1 Hx2].
    split; lra.
Qed.

Lemma lit_1e12 :
  positive_finite (lit 1000000000000 : float)
  /\ to_Q (lit 1000000000000 : float) == 1000000000000.
Proof.
  split; [eexists; eexists; vm_compute; reflexivity | vm_compute; reflexivity].
Qed.

(** The waste allowance in doubles: the returned total with waste is the
    returned total times 1.10, up to the rounding of the two fields. *)
Lemma waste_allowance (t : float) :
  (abs t <=? lit 1000000000000)%float = true ->
  Qabs (to_Q (ceil1 (t + t * lit 0.1)%js) - to_Q (ceil1 t) * 1.10)
  <= 12 # 100.
Proof.
  intros Hmax. destruct lit_1e12 as [Hbf Hbv].
  change (t + t * lit 0.1)%js with (t + t * lit 0.1)%float.
  assert (E41 : 2 ^ 41 == 2199023255552) by reflexivity.
  assert (E11 : 2 ^ (-11) == 1 # 2048) by reflexivity.
  assert (Hside : forall t' : float,
             positive_finite t' -> to_Q t' <= 1000000000000 ->
             Qabs (to_Q (ceil1 (t' + t' * lit 0.1)%float)
                   - to_Q (ceil1 t') * 1.10) <= 12 # 100
             /\ Qabs (to_Q (ceil1 (- t' + - t' * lit 0.1)%float)
                      - to_Q (ceil1 (- t')%float) * 1.10) <= 12 # 100).
  { intros t' Ht Ht12.
    destruct (total_with_waste t' Ht Ht12) as (x & Hx & -> & -> & Hx1 & Hx2).
    destruct (positive_finite_value t' Ht) as [Htpos _].
    destruct (ceil1_error t' Ht ltac:(lra)) as [Ht1 Ht2].
    destruct (ceil1_error x Hx ltac:(lra)) as [Hc1 Hc2].
    destruct (ceil1_error_opp t' Ht ltac:(lra)) as [Ht3 Ht4].
    destruct (ceil1_error_opp x Hx ltac:(lra)) as [Hc3 Hc4].
    split; apply Qabs_Qle_condition; split; lra. }
  pose proof (FloatAxioms.abs_spec t) as Habs.
  rewrite FloatAxioms.leb_spec, Habs in Hmax.
  destruct Hbf as (mb & eb & Hb). rewrite Hb in Hmax.
  destruct (Prim2SF t) as [s | [ | ] | | [ | ] m e] eqn:Ht;
    cbn [SFabs] in Hmax; try discriminate Hmax.
  - assert (Hz : t = 0%float \/ t = (-0)%float).
    { destruct s; [right | left]; apply Prim2SF_inj; rewrite Ht;
        vm_compute; reflexivity. }
    destruct Hz as [-> | ->]; vm_compute; discriminate.
  - assert (Ht' : positive_finite (abs t)).
    { exists m, e. now rewrite Habs. }
    assert (Ht12 : to_Q (abs t) <= 1000000000000).
    { rewrite <- Hbv. apply leb_values;
        [now apply positive_finite_not_negative
        | apply positive_finite_not_negative; now exists mb, eb | ].
      now rewrite FloatAxioms.leb_spec, Habs, Hb. }
    assert (Hopp : t = (- abs t)%float).
    { apply Prim2SF_inj. now rewrite FloatAxioms.opp_spec, Habs, Ht. }
    rewrite Hopp at 1 2 3. apply (Hside (abs t) Ht' Ht12).
  - assert (Ht' : positive_finite t) by now exists m, e.
    assert (Ht12 : to_Q t <= 1000000000000).
    { rewrite <- Hbv. apply leb_values;
        [now apply positive_finite_not_negative
        | apply positive_finite_not_negative; now exists mb, eb | ].
      now rewrite FloatAxioms.leb_spec, Ht, Hb. }
    apply (Hside t Ht' Ht12).
Qed.

(** *** Operations that keep the order of doubles that are not negative *)

Lemma not_negative_at_most (x : float) : not_negative x -> to_Q x <= 2 ^ 1024.
Proof.
  intros Hx. pose proof (two_to_pos 1024).
  destruct (not_negative_cases x Hx) as [[H0 _] | [Hpf | [Hinf _]]].
  - lra.
  - destruct (positive_finite_value x Hpf). lra.
  - lra.
Qed.

Lemma infinite_value (x : float) :
  Prim2SF x = S754_infinity false -> to_Q x == 2 ^ 1024.
Proof. intros Hx. unfold to_Q. rewrite Hx. reflexivity. Qed.

Lemma infinite_not_negative (x : float) :
  Prim2SF x = S754_infinity false -> not_negative x.
Proof. intros Hx. unfold not_negative. rewrite Hx. reflexivity. Qed.

Lemma zero_value (x : float) (s : bool) :
  Prim2SF x = S754_zero s -> to_Q x == 0.
Proof. intros Hx. unfold to_Q. rewrite Hx. reflexivity. Qed.

Lemma zero_not_negative (x : float) (s : bool) :
  Prim2SF x = S754_zero s -> not_negative x.
Proof. intros Hx. unfold not_negative. rewrite Hx. exact I. Qed.

Lemma ordered_refl (x : float) : not_negative x -> ordered x x.
Proof. intros Hx. repeat split; try assumption. lra. Qed.

Lemma ordered_leb (x y : float) : ordered x y -> (x <=? y)%float = true.
Proof. intros (Hx & Hy & Hxy). now apply leb_values. Qed.

Lemma leb_ordered (x y : float) :
  not_negative x -> (x <=? y)%float = true -> ordered x y.
Proof.
  intros Hx Hxy.
  assert (Hy : not_negative y).
  { revert Hx Hxy. unfold not_negative. rewrite FloatAxioms.leb_spec.
    destruct (Prim2SF x) as [sx | [ | ] | | [ | ] mx ex];
      destruct (Prim2SF y) as [sy | [ | ] | | [ | ] my ey]; cbn;
      try discriminate; try tauto; try (intros H; discriminate H); auto. }
  split; [exact Hx | ]. split; [exact Hy | ]. now apply leb_values.
Qed.

Lemma zero_leb_not_negative (x : float) :
  (lit 0 <= x)%js = true -> not_negative x.
Proof.
  intros Hx. apply (leb_ordered (lit 0) x); [ | exact Hx].
  apply (zero_not_negative _ false). apply lit_0.
Qed.

(** The three kinds of doubles that are not negative, and what a
    multiplication or a division by a positive finite double does. *)
Lemma mul_not_negative (x y : float) :
  not_negative x -> positive_finite y ->
  ((exists s, Prim2SF x = S754_zero s)
   /\ exists s, Prim2SF (x * y)%float = S754_zero s)
  \/ (positive_finite x /\ rounds_to (to_Q x * to_Q y) (x * y)%float)
  \/ (Prim2SF x = S754_infinity false
      /\ Prim2SF (x * y)%float = S754_infinity false).
Proof.
  intros Hx Hy.
  destruct (not_negative_cases x Hx) as [[_ [s Hz]] | [Hpf | [_ Hinf]]].
  - left. split; [now exists s | ]. destruct Hy as (m & e & Hy).
    rewrite FloatAxioms.mul_spec, Hz, Hy. cbn. eauto.
  - right. left. split; [exact Hpf | now apply mul_rounds].
  - right. right. split; [exact Hinf | ]. destruct Hy as (m & e & Hy).
    rewrite FloatAxioms.mul_spec, Hinf, Hy. reflexivity.
Qed.

Lemma div_not_negative (x y : float) :
  not_negative x -> positive_finite y ->
  ((exists s, Prim2SF x = S754_zero s)
   /\ exists s, Prim2SF (x / y)%float = S754_zero s)
  \/ (positive_finite x /\ rounds_to (to_Q x / to_Q y) (x / y)%float)
  \/ (Prim2SF x = S754_infinity false
      /\ Prim2SF (x / y)%float = S754_infinity false).
Proof.
  intros Hx Hy.
  destruct (not_negative_cases x Hx) as [[_ [s Hz]] | [Hpf | [_ Hinf]]].
  - left. split; [now exists s | ]. destruct Hy as (m & e & Hy).
    rewrite FloatAxioms.div_spec, Hz, Hy. cbn. eauto.
  - right. left. split; [exact Hpf | now apply div_rounds].
  - right. right. split; [exact Hinf | ]. destruct Hy as (m & e & Hy).
    rewrite FloatAxioms.div_spec, Hinf, Hy. reflexivity.
Qed.

(** Whatever is not negative is at most a result that is [+Infinity], and
    at least one that is zero. *)
Lemma ordered_infinite (z z' : float) :
  not_negative z -> Prim2SF z' = S754_infinity false -> ordered z z'.
Proof.
  intros Hz Hinf. split; [exact Hz | ].
  split; [now apply infinite_not_negative | ].
  rewrite (infinite_value z' Hinf). now apply not_negative_at_most.
Qed.

Lemma ordered_zero (z z' : float) (s : bool) :
  Prim2SF z = S754_zero s -> not_negative z' -> ordered z z'.
Proof.
  intros Hzero Hz'. split; [now apply (zero_not_negative z s) | ].
  split; [exact Hz' | ].
  rewrite (zero_value z s Hzero). now apply not_negative_value.
Qed.

Lemma infinite_above (x x' : float) :
  ordered x x' -> Prim2SF x = S754_infinity false ->
  Prim2SF x' = S754_infinity false.
Proof.
  intros (_ & Hx' & Hle) Hinf. rewrite (infinite_value x Hinf) in Hle.
  destruct (not_negative_cases x' Hx') as [[H0 _] | [Hpf | [_ H]]];
    [ | | exact H].
  - pose proof (two_to_pos 1024). lra.
  - destruct (positive_finite_value x' Hpf). lra.
Qed.

Lemma positive_above (x x' : float) :
  ordered x x' -> positive_finite x ->
  positive_finite x' \/ Prim2SF x' = S754_infinity false.
Proof.
  intros (_ & Hx' & Hle) Hpf. destruct (positive_finite_value x Hpf) as [Hpos _].
  destruct (not_negative_cases x' Hx') as [[H0 _] | [Hpf' | [_ H]]];
    [lra | now left | now right].
Qed.

Lemma mul_not_negative_result (x y : float) :
  not_negative x -> positive_finite y -> not_negative (x * y)%float.
Proof.
  intros Hx Hy.
  destruct (mul_not_negative x y Hx Hy) as [[_ [s H]] | [[_ H] | [_ H]]].
  - now apply (zero_not_negative _ s).
  - now apply (rounds_to_not_negative _ _ H).
  - now apply infinite_not_negative.
Qed.

Lemma div_not_negative_result (x y : float) :
  not_negative x -> positive_finite y -> not_negative (x / y)%float.
Proof.
  intros Hx Hy.
  destruct (div_not_negative x y Hx Hy) as [[_ [s H]] | [[_ H] | [_ H]]].
  - now apply (zero_not_negative _ s).
  - now apply (rounds_to_not_negative _ _ H).
  - now apply infinite_not_negative.
Qed.

(** Multiplication by a positive finite double keeps the order. *)
Lemma mul_ordered (x x' y : float) :
  ordered x x' -> positive_finite y -> ordered (x * y)%float (x' * y)%float.
Proof.
  intros Hxx Hy. pose proof Hxx as (Hx & Hx' & Hle).
  pose proof (mul_not_negative_result x y Hx Hy) as Hz.
  pose proof (mul_not_negative_result x' y Hx' Hy) as Hz'.
  destruct (positive_finite_value y Hy) as [Hypos _].
  destruct (mul_not_negative x y Hx Hy)
    as [[_ [s H]] | [[Hpf Hr] | [Hinf H]]].
  - now apply (ordered_zero _ _ s).
  - destruct (mul_not_negative x' y Hx' Hy)
      as [[[s' H0] _] | [[Hpf' Hr'] | [_ H']]].
    + destruct (positive_finite_value x Hpf) as [Hpos _].
      rewrite (zero_value x' s' H0) in Hle. lra.
    + split; [exact Hz | ]. split; [exact Hz' | ].
      apply (rounds_to_monotone _ _ _ _ Hr Hr'). nra.
    + now apply ordered_infinite.
  - apply ordered_infinite; [exact Hz | ].
    pose proof (infinite_above x x' Hxx Hinf) as Hinf'.
    destruct (mul_not_negative x' y Hx' Hy)
      as [[[s' H0] _] | [[[m [e Hpf']] _] | [_ H']]]; [ | | exact H'];
      congruence.
Qed.

(** Division by a positive finite double keeps the order. *)
Lemma div_ordered (x x' y : float) :
  ordered x x' -> positive_finite y -> ordered (x / y)%float (x' / y)%float.
Proof.
  intros Hxx Hy. pose proof Hxx as (Hx & Hx' & Hle).
  pose proof (div_not_negative_result x y Hx Hy) as Hz.
  pose proof (div_not_negative_result x' y Hx' Hy) as Hz'.
  destruct (positive_finite_value y Hy) as [Hypos _].
  destruct (div_not_negative x y Hx Hy)
    as [[_ [s H]] | [[Hpf Hr] | [Hinf H]]].
  - now apply (ordered_zero _ _ s).
  - destruct (div_not_negative x' y Hx' Hy)
      as [[[s' H0] _] | [[Hpf' Hr'] | [_ H']]].
    + destruct (positive_finite_value x Hpf) as [Hpos _].
      rewrite (zero_value x' s' H0) in Hle. lra.
    + split; [exact Hz | ]. split; [exact Hz' | ].
      apply (rounds_to_monotone _ _ _ _ Hr Hr').
      unfold Qdiv. apply Qmult_le_compat_r; [exact Hle | ].
      apply Qlt_le_weak. now apply Qinv_lt_0_compat.
    + now apply ordered_infinite.
  - apply ordered_infinite; [exact Hz | ].
    pose proof (infinite_above x x' Hxx Hinf) as Hinf'.
    destruct (div_not_negative x' y Hx' Hy)
      as [[[s' H0] _] | [[[m [e Hpf']] _] | [_ H']]]; [ | | exact H'];
      congruence.
Qed.

Lemma add_infinite_r (x y : float) :
  not_negative x -> Prim2SF y = S754_infinity false ->
  Prim2SF (x + y)%float = S754_infinity false.
Proof.
  intros Hx Hy. rewrite FloatAxioms.add_spec, Hy.
  unfold not_negative in Hx.
  destruct (Prim2SF x) as [s | [ | ] | | [ | ] m e]; cbn in Hx |- *;
    try reflexivity; try discriminate; contradiction.
Qed.

(** The sum of two finite doubles that are not negative: zero, or the
    exact sum rounded. *)
Lemma add_not_negative (x y : float) :
  not_negative x -> not_negative y ->
  to_Q x < 2 ^ 1024 -> to_Q y < 2 ^ 1024 ->
  (to_Q x + to_Q y == 0 /\ exists s, Prim2SF (x + y)%float = S754_zero s)
  \/ (0 < to_Q x + to_Q y /\ rounds_to (to_Q x + to_Q y) (x + y)%float).
Proof.
  intros Hx Hy Hxfin Hyfin.
  destruct (not_negative_cases x Hx) as [[Vx [sx Hzx]] | [Hpx | [Vx _]]];
    [ | | lra];
    destruct (not_negative_cases y Hy) as [[Vy [sy Hzy]] | [Hpy | [Vy _]]];
    try lra.
  - left. split; [lra | ].
    rewrite FloatAxioms.add_spec, Hzx, Hzy. destruct sx, sy; cbn; eauto.
  - right. destruct (positive_finite_value y Hpy) as [Hpos _].
    split; [lra | ].
    assert (E : (x + y)%float = y).
    { apply Prim2SF_inj. destruct Hpy as (m & e & Hy').
      rewrite FloatAxioms.add_spec, Hzx, Hy'. reflexivity. }
    rewrite E. destruct (positive_finite_rounds_to y Hpy) as (M & HM & Hr).
    exists M. split; [apply (is_mag_wd (to_Q y)); [lra | exact HM] | ].
    rewrite Hr. apply round64_wd. lra.
  - right. destruct (positive_finite_value x Hpx) as [Hpos _].
    split; [lra | ].
    rewrite (add_zero_r x y sy Hpx Hzy).
    destruct (positive_finite_rounds_to x Hpx) as (M & HM & Hr).
    exists M. split; [apply (is_mag_wd (to_Q x)); [lra | exact HM] | ].
    rewrite Hr. apply round64_wd. lra.
  - right. destruct (positive_finite_value x Hpx) as [Hposx _].
    destruct (positive_finite_value y Hpy) as [Hposy _].
    split; [lra | ]. now apply add_rounds.
Qed.

Lemma finite_or_infinite (x : float) :
  not_negative x -> to_Q x < 2 ^ 1024 \/ Prim2SF x = S754_infinity false.
Proof.
  intros Hx. pose proof (two_to_pos 1024).
  destruct (not_negative_cases x Hx) as [[H0 _] | [Hpf | [_ Hinf]]].
  - left. lra.
  - left. apply (positive_finite_value x Hpf).
  - now right.
Qed.

Lemma add_not_negative_result (x y : float) :
  not_negative x -> not_negative y -> not_negative (x + y)%float.
Proof.
  intros Hx Hy.
  destruct (finite_or_infinite x Hx) as [Hxfin | Hxinf].
  - destruct (finite_or_infinite y Hy) as [Hyfin | Hyinf].
    + destruct (add_not_negative x y Hx Hy Hxfin Hyfin) as [[_ [s H]] | [_ H]].
      * now apply (zero_not_negative _ s).
      * now apply (rounds_to_not_negative _ _ H).
    + apply infinite_not_negative. now apply add_infinite_r.
  - apply infinite_not_negative. now apply add_infinite.
Qed.

(** Addition keeps the order. *)
Lemma add_ordered (x x' y y' : float) :
  ordered x x' -> ordered y y' -> ordered (x + y)%float (x' + y')%float.
Proof.
  intros Hxx Hyy. pose proof Hxx as (Hx & Hx' & Hxle).
  pose proof Hyy as (Hy & Hy' & Hyle).
  pose proof (add_not_negative_result x y Hx Hy) as Hz.
  pose proof (add_not_negative_result x' y' Hx' Hy') as Hz'.
  destruct (finite_or_infinite x' Hx') as [Hxfin' | Hxinf'];
    [ | apply ordered_infinite; [exact Hz | now apply add_infinite]].
  destruct (finite_or_infinite y' Hy') as [Hyfin' | Hyinf'];
    [ | apply ordered_infinite; [exact Hz | now apply add_infinite_r]].
  destruct (add_not_negative x y Hx Hy ltac:(lra) ltac:(lra))
    as [[_ [s H]] | [Hpos Hr]].
  - now apply (ordered_zero _ _ s).
  - destruct (add_not_negative x' y' Hx' Hy' Hxfin' Hyfin')
      as [[H0 _] | [_ Hr']]; [lra | ].
    split; [exact Hz | ]. split; [exact Hz' | ].
    apply (rounds_to_monotone _ _ _ _ Hr Hr'). lra.
Qed.

(** [Math.ceil] and [Math.round] keep the order. *)
Lemma ceil_not_negative (x : float) :
  not_negative x ->
  (exists s, Prim2SF x = S754_zero s) /\ Binary64.ceil x = x
  \/ positive_finite x
  \/ Prim2SF x = S754_infinity false /\ Binary64.ceil x = x.
Proof.
  intros Hx.
  destruct (not_negative_cases x Hx) as [[_ [s Hz]] | [Hpf | [_ Hinf]]].
  - left. split; [now exists s | ]. unfold Binary64.ceil. now rewrite Hz.
  - right. now left.
  - right. right. split; [exact Hinf | ]. unfold Binary64.ceil. now rewrite Hinf.
Qed.

Lemma ceil_ordered (x x' : float) :
  ordered x x' -> ordered (Binary64.ceil x) (Binary64.ceil x').
Proof.
  intros Hxx. pose proof Hxx as (Hx & Hx' & Hle).
  assert (Hc : forall z, not_negative z -> not_negative (Binary64.ceil z)).
  { intros z Hz. destruct (ceil_not_negative z Hz) as [[_ E] | [Hpf | [_ E]]];
      [now rewrite E | | now rewrite E].
    apply positive_finite_not_negative. now apply ceil_value. }
  destruct (ceil_not_negative x Hx) as [[[s Hz] E] | [Hpf | [Hinf E]]].
  - rewrite E. apply (ordered_zero _ _ s Hz). now apply Hc.
  - destruct (ceil_not_negative x' Hx') as [[[s Hz] E'] | [Hpf' | [Hinf' E']]].
    + destruct (positive_finite_value x Hpf) as [Hpos _].
      rewrite (zero_value x' s Hz) in Hle. lra.
    + destruct (ceil_value x Hpf) as [Hcx Vx].
      destruct (ceil_value x' Hpf') as [Hcx' Vx'].
      split; [now apply positive_finite_not_negative | ].
      split; [now apply positive_finite_not_negative | ].
      rewrite Vx, Vx', <- Zle_Qle. now apply Qceiling_resp_le.
    + rewrite E'. apply ordered_infinite; [now apply Hc | exact Hinf'].
  - pose proof (infinite_above x x' Hxx Hinf) as Hinf'.
    destruct (ceil_not_negative x' Hx') as [[[s Hz] _] | [[m [e Hpf']] | [_ E']]];
      congruence.
Qed.

Lemma round_not_negative (x : float) :
  not_negative x ->
  (exists s, Prim2SF x = S754_zero s) /\ Binary64.round x = x
  \/ positive_finite x
  \/ Prim2SF x = S754_infinity false /\ Binary64.round x = x.
Proof.
  intros Hx.
  destruct (not_negative_cases x Hx) as [[_ [s Hz]] | [Hpf | [_ Hinf]]].
  - left. split; [now exists s | ]. unfold Binary64.round. now rewrite Hz.
  - right. now left.
  - right. right. split; [exact Hinf | ]. unfold Binary64.round. now rewrite Hinf.
Qed.

Lemma round_positive_not_negative (x : float) :
  positive_finite x -> not_negative (Binary64.round x).
Proof.
  intros Hx. destruct (round_value x Hx) as [[Hz | Hpf] _].
  - rewrite Hz. apply (zero_not_negative _ false). reflexivity.
  - now apply positive_finite_not_negative.
Qed.

Lemma round_ordered (x x' : float) :
  ordered x x' -> ordered (Binary64.round x) (Binary64.round x').
Proof.
  intros Hxx. pose proof Hxx as (Hx & Hx' & Hle).
  assert (Hc : forall z, not_negative z -> not_negative (Binary64.round z)).
  { intros z Hz. destruct (round_not_negative z Hz) as [[_ E] | [Hpf | [_ E]]];
      [now rewrite E | | now rewrite E].
    now apply round_positive_not_negative. }
  destruct (round_not_negative x Hx) as [[[s Hz] E] | [Hpf | [Hinf E]]].
  - rewrite E. apply (ordered_zero _ _ s Hz). now apply Hc.
  - destruct (round_not_negative x' Hx') as [[[s Hz] E'] | [Hpf' | [Hinf' E']]].
    + destruct (positive_finite_value x Hpf) as [Hpos _].
      rewrite (zero_value x' s Hz) in Hle. lra.
    + destruct (round_value x Hpf) as [_ Vx].
      destruct (round_value x' Hpf') as [_ Vx'].
      split; [now apply Hc | ]. split; [now apply Hc | ].
      rewrite Vx, Vx', <- Zle_Qle. apply Qfloor_resp_le. lra.
    + rewrite E'. apply ordered_infinite; [now apply Hc | exact Hinf'].
  - pose proof (infinite_above x x' Hxx Hinf) as Hinf'.
    destruct (round_not_negative x' Hx') as [[[s Hz] _] | [[m [e Hpf']] | [_ E']]];
      congruence.
Qed.

(** The roundings to one and to two decimals keep the order. *)
Lemma round1_ordered (x x' : float) :
  ordered x x' -> ordered (round1 x) (round1 x').
Proof.
  intros Hxx. unfold round1.
  apply (div_ordered _ _ (lit 10)); [ | apply lit_10].
  apply round_ordered. apply (mul_ordered _ _ (lit 10)); [exact Hxx | apply lit_10].
Qed.

Lemma round2_ordered (x x' : float) :
  ordered x x' -> ordered (round2 x) (round2 x').
Proof.
  intros Hxx. unfold round2.
  apply (div_ordered _ _ (lit 100)); [ | apply lit_100].
  apply round_ordered.
  apply (mul_ordered _ _ (lit 100)); [exact Hxx | apply lit_100].
Qed.

Lemma ceil1_ordered (x x' : float) :
  ordered x x' -> ordered (ceil1 x) (ceil1 x').
Proof.
  intros Hxx. unfold ceil1.
  apply (div_ordered _ _ (lit 10)); [ | apply lit_10].
  apply ceil_ordered. apply (mul_ordered _ _ (lit 10)); [exact Hxx | apply lit_10].
Qed.

(** A double above zero and below [Infinity] is positive and finite. *)
Lemma between_zero_and_infinity (x : float) :
  (lit 0 < x)%js = true -> (x <? infinity)%float = true -> positive_finite x.
Proof.
  intros Hpos Hfin. destruct (ltb_positive x Hpos) as [Hpf | Hinf];
    [exact Hpf | ].
  rewrite FloatAxioms.ltb_spec, Hinf in Hfin. discriminate.
Qed.


Lemma spreading_ranges :
  (positive_finite 1e-8%float /\ 2 ^ (-27) <= to_Q 1e-8%float)
  /\ (positive_finite 1e-100%float /\ 2 ^ (-333) <= to_Q 1e-100%float)
  /\ (positive_finite 1e100%float /\ to_Q 1e100%float <= 2 ^ 333).
Proof.
  repeat split; try (eexists; eexists; vm_compute; reflexivity);
    vm_compute; discriminate.
Qed.

Lemma round_of_Z (y : float) :
  positive_finite y -> to_Q y < 2 ^ 52 ->
  Binary64.round y = Binary64.of_Z (Qfloor (to_Q y + (1 # 2))).
Proof.
  intros Hy Hy52. destruct (round_value y Hy) as [Hcases Hval].
  set (k := Qfloor (to_Q y + (1 # 2))) in *.
  destruct Hcases as [Hz | Hpf].
  - rewrite Hz in Hval |- *.
    assert (Hk : inject_Z 0 == inject_Z k) by (rewrite <- Hval; reflexivity).
    rewrite inject_Z_injective in Hk. now rewrite <- Hk.
  - destruct (positive_finite_value _ Hpf) as [Hpos _].
    rewrite Hval in Hpos. change 0 with (inject_Z 0) in Hpos.
    rewrite <- Zlt_Qlt in Hpos.
    assert (Hk53 : (k < 2 ^ 53)%Z).
    { rewrite Zlt_Qlt. pose proof (Qfloor_le (to_Q y + (1 # 2))) as Hfl.
      fold k in Hfl. rewrite (two_to_inject 53) by lia.
      assert (E : 2 ^ 53 == 2 * 2 ^ 52)
        by (rewrite <- two_to_succ; reflexivity).
      assert (E52 : 1 <= 2 ^ 52) by (vm_compute; discriminate). lra. }
    destruct (of_Z_exact k ltac:(lia)) as [Hkf Vk].
    apply to_Q_inj; [exact Hpf | exact Hkf | ]. now rewrite Hval, Vk.
Qed.

(** The spreading rate of a positive volume solids: a count of tenths
    that is [1604000 / w] rounded, up to the rounding of the products. *)
Lemma calculateSpreadingRate_tenths (w t : float) :
  positive_finite w -> positive_finite t ->
  2 ^ (-27) <= to_Q w -> to_Q w <= 2 ^ 333 ->
  2 ^ (-333) <= to_Q t -> to_Q t <= 2 ^ 333 ->
  exists k : Z,
    calculateSpreadingRate w t = (Binary64.of_Z k / lit 10)%js
    /\ 1604000 * / to_Q w - (3 # 4) < inject_Z k
    /\ inject_Z k < 1604000 * / to_Q w + (3 # 4).
Proof.
  intros Hw Ht Hw1 Hw2 Ht1 Ht2.
  destruct (coverage_times_ten w t Hw Ht Hw1 Hw2 Ht1 Ht2)
    as (_ & _ & _ & HY & Yl & Yh).
  destruct (positive_finite_value w Hw) as [Hwpos _].
  assert (Hia : 0 < / to_Q w) by now apply Qinv_lt_0_compat.
  assert (Hia27 : / to_Q w <= 134217728).
  { apply (Qmult_le_r _ _ (to_Q w) Hwpos).
    assert (E : / to_Q w * to_Q w == 1) by (field; lra).
    assert (E27 : 2 ^ (-27) == 1 # 134217728) by reflexivity.
    rewrite E. lra. }
  set (y := (lit 1604 * t / (w * t / lit 100) * lit 10)%float) in *.
  assert (Hy52 : to_Q y < 2 ^ 52).
  { assert (E52 : 2 ^ 52 == 4503599627370496) by reflexivity. lra. }
  exists (Qfloor (to_Q y + (1 # 2))). split.
  - unfold calculateSpreadingRate, CONSTANTS.COVERAGE_CONSTANT.
    cbn [mul div Math_round binary64]. fold y.
    now rewrite (round_of_Z y HY Hy52).
  - pose proof (Qfloor_le (to_Q y + (1 # 2))) as Hfl.
    pose proof (Qlt_floor (to_Q y + (1 # 2))) as Hfl'.
    rewrite inject_Z_plus in Hfl'. change (inject_Z 1) with 1 in Hfl'.
    split; lra.
Qed.

Lemma calculateSpreadingRate_magnitude (w s : float) :
  positive_finite w ->
  2 ^ (-27) <= to_Q w -> to_Q w <= 2 ^ 333 ->
  (1e-100 <=? abs s)%float = true -> (abs s <=? 1e100)%float = true ->
  exists k : Z,
    calculateSpreadingRate w s = (Binary64.of_Z k / lit 10)%js
    /\ 1604000 * / to_Q w - (3 # 4) < inject_Z k
    /\ inject_Z k < 1604000 * / to_Q w + (3 # 4).
Proof.
  intros Hw Hw1 Hw2 Hs1 Hs2.
  destruct spreading_ranges as (_ & [Hlo Vlo] & [Hhi Vhi]).
  destruct (abs_cases s _ _ Hlo Hhi Hs1 Hs2) as (t & Ht & Ht1 & Ht2 & Hst).
  assert (Ht1' : 2 ^ (-333) <= to_Q t) by lra.
  assert (Ht2' : to_Q t <= 2 ^ 333) by lra.
  destruct Hst as [-> | ->].
  - now apply calculateSpreadingRate_tenths.
  - destruct (coverage_times_ten w t Hw Ht Hw1 Hw2 Ht1' Ht2')
      as (HB1 & HB2 & HA & _).
    rewrite (calculateSpreadingRate_opp w t Hw Ht HB1 HB2 HA).
    now apply calculateSpreadingRate_tenths.
Qed.

(** ** The comparisons of both instances *)

Lemma SFcompare_antisym (a b : spec_float) :
  SFcompare b a = option_map CompOpp (SFcompare a b).
Proof.
  destruct a as [sa | sa | | sa ma ea], b as [sb | sb | | sb mb eb];
    try reflexivity;
    try (destruct sa; reflexivity);
    try (destruct sb; reflexivity);
    try (destruct sa, sb; reflexivity).
  cbn. destruct sa, sb; cbn; try reflexivity;
    rewrite (Z.compare_antisym ea eb);
    destruct (ea ?= eb)%Z; cbn; try reflexivity;
    replace (Pos.compare_cont Eq mb ma)
      with (CompOpp (Pos.compare_cont Eq ma mb))
      by apply (Pos.compare_cont_antisym ma mb Eq);
    destruct (Pos.compare_cont Eq ma mb); reflexivity.
Qed.

#[export] Instance binary64_order : JsOrder float.
Proof.
  split; intros x y; cbn;
    rewrite FloatAxioms.ltb_spec, FloatAxioms.leb_spec; unfold SFltb, SFleb;
    rewrite (SFcompare_antisym (Prim2SF x) (Prim2SF y));
    destruct (SFcompare (Prim2SF x) (Prim2SF y)) as [[ | | ] | ];
    cbn; congruence.
Qed.

#[export] Instance exact_order : JsOrder Q.
Proof.
  split; intros x y; cbn.
  - intros Hlt. now apply negb_true_iff in Hlt.
  - intros Hle. now rewrite Hle.
Qed.

(** ** The host functions on samples *)

(** [Math.round] breaks ties upwards and keeps the sign of zero;
    [Math.ceil] rounds up. *)
Lemma Math_round_samples :
  map Binary64.round
    [0.5; 1.5; 2.5; -0.5; -1.5; -2.5; 0.49999999999999994; -0.2;
     2.4999999999999996; 4503599627370497; nan; infinity]%float
  = [1; 2; 3; -0; -1; -2; 0; -0; 2; 4503599627370497; nan; infinity]%float.
Proof. vm_compute. reflexivity. Qed.

Lemma Math_ceil_samples :
  map Binary64.ceil
    [0.5; 1.5; 2; -0.5; -1.5; 5e-324; -5e-324; -0; 14.756; nan;
     neg_infinity]%float
  = [1; 2; 2; -0; -1; 1; -0; -0; 15; nan; neg_infinity]%float.
Proof. vm_compute. reflexivity. Qed.

Lemma Number_toString_samples :
  map NumberToString.Number_toString
    [3; 7.5; 65.1; 0.1; 0.30000000000000004; -2.5; 100; 1e21; 1e-7;
     0.000001; 123456789012345680000; 5e-324; 1.7976931348623157e308;
     -0; nan; neg_infinity]%float
  = ["3"; "7.5"; "65.1"; "0.1"; "0.30000000000000004"; "-2.5"; "100";
     "1e+21"; "1e-7"; "0.000001"; "123456789012345680000"; "5e-324";
     "1.7976931348623157e+308"; "0"; "NaN"; "-Infinity"]%string.
Proof. vm_compute. reflexivity. Qed.

(** The constants of the fdlibm logarithm, by their bits. *)
Lemma Fdlibm_constants :
  map Fdlibm.bits
    [Fdlibm.ln2_hi; Fdlibm.ln2_lo; Fdlibm.two54; Fdlibm.Lg1; Fdlibm.Lg2;
     Fdlibm.Lg3; Fdlibm.Lg4; Fdlibm.Lg5; Fdlibm.Lg6; Fdlibm.Lg7]
  = [0x3fe62e42fee00000; 0x3dea39ef35793c76; 0x4350000000000000;
     0x3fe5555555555593; 0x3fd999999997fa04; 0x3fd2492494229359;
     0x3fcc71c51d8e78af; 0x3fc7466496cb03de; 0x3fc39a09d078c69f;
     0x3fc2f112df3e5244]%Z.
Proof. vm_compute. reflexivity. Qed.

Lemma Fdlibm_log_samples :
  map Fdlibm.log [1; 2; 0.5; 10; 0; -1; infinity; nan]%float
  = [0; 0.6931471805599453; -0.6931471805599453; 2.302585092994046;
     neg_infinity; nan; infinity; nan]%float.
Proof. vm_compute. reflexivity. Qed.

(** ** Coverage engine *)

Section CoverageFacts.

Context {T : Type} `{JsNum T}.

(** An input that passes the three guards is computed by the formulas of
    the design document and rounded field by field. *)
Lemma calculatePaintCoverage_accepts (input : CoverageInput.t T) :
  rejectedCoverageInput input = false ->
  calculatePaintCoverage input
  = Ok (roundedCoverage (coverageFormulas input)).
Proof.
  unfold rejectedCoverageInput, calculatePaintCoverage.
  intros Hguards.
  apply orb_false_elim in Hguards as [Hguards Hdft].
  apply orb_false_elim in Hguards as [Hguards Hmax].
  apply orb_false_elim in Hguards as [Harea Hmin].
  rewrite Harea, Hmin, Hmax, Hdft. reflexivity.
Qed.

Lemma calculatePaintCoverage_rejects (input : CoverageInput.t T) :
  rejectedCoverageInput input = true ->
  exists e, calculatePaintCoverage input = Throw e.
Proof.
  unfold rejectedCoverageInput, calculatePaintCoverage.
  destruct (leb (CoverageInput.surfaceArea input) (lit 0));
    [intros _; eexists; reflexivity | ].
  destruct (leb (CoverageInput.volumeSolids input) (lit 0));
    [intros _; eexists; reflexivity | ].
  destruct (ltb (lit 100) (CoverageInput.volumeSolids input));
    [intros _; eexists; reflexivity | ].
  destruct (leb (CoverageInput.targetDFT input) (lit 0));
    [intros _; eexists; reflexivity | ].
  cbn. intros Hnone. discriminate Hnone.
Qed.

Lemma calculatePaintCoverage_throws_iff (input : CoverageInput.t T) :
  (exists e, calculatePaintCoverage input = Throw e)
  <-> rejectedCoverageInput input = true.
Proof.
  split; [ | apply calculatePaintCoverage_rejects].
  intros [e He].
  destruct (rejectedCoverageInput input) eqn:Hguards; [reflexivity | ].
  rewrite (calculatePaintCoverage_accepts _ Hguards) in He. discriminate.
Qed.

Context `{!JsOrder T}.

Lemma valid_not_rejected (input : CoverageInput.t T) :
  validCoverageInput input = true -> rejectedCoverageInput input = false.
Proof.
  unfold validCoverageInput, rejectedCoverageInput. intros Hvalid.
  apply andb_prop in Hvalid as [Hvalid Hdft].
  apply andb_prop in Hvalid as [Hvalid Hmax].
  apply andb_prop in Hvalid as [Harea Hmin].
  rewrite (ltb_not_geb _ _ Harea), (ltb_not_geb _ _ Hmin),
    (leb_not_gtb _ _ Hmax), (ltb_not_geb _ _ Hdft).
  reflexivity.
Qed.

Lemma calculatePaintCoverage_valid (input : CoverageInput.t T) :
  validCoverageInput input = true ->
  calculatePaintCoverage input
  = Ok (roundedCoverage (coverageFormulas input)).
Proof.
  intros Hvalid.
  apply calculatePaintCoverage_accepts, valid_not_rejected, Hvalid.
Qed.

End CoverageFacts.

(** ** Exact arithmetic: comparisons and rounding *)

Lemma Qceiling_upper (x : Q) : inject_Z (Qceiling x) < x + 1.
Proof.
  pose proof (Qceiling_lt x) as Hc. unfold Z.sub in Hc.
  rewrite inject_Z_plus, inject_Z_opp in Hc.
  change (inject_Z 1) with 1 in Hc. lra.
Qed.

Lemma Qfloor_upper (x : Q) : x < inject_Z (Qfloor x) + 1.
Proof. pose proof (Qlt_floor x) as Hf. now rewrite inject_Z_plus in Hf. Qed.

Lemma Math_round_exact (x : Q) : nearest_multiple 1 x (Math_round x).
Proof.
  exists (Qfloor (x + (1 # 2))). exact_ops. split; [ring | ].
  pose proof (Qfloor_le (x + (1 # 2))).
  pose proof (Qfloor_upper (x + (1 # 2))).
  apply Qabs_Qle_condition. literal_inverses. split; lra.
Qed.

Lemma round1_exact (x : Q) : nearest_multiple 0.1 x (round1 x).
Proof.
  exists (Qfloor (x * 10 + (1 # 2))). exact_ops. split; [field | ].
  pose proof (Qfloor_le (x * 10 + (1 # 2))).
  pose proof (Qfloor_upper (x * 10 + (1 # 2))).
  apply Qabs_Qle_condition. literal_inverses. split; lra.
Qed.

Lemma round2_exact (x : Q) : nearest_multiple 0.01 x (round2 x).
Proof.
  exists (Qfloor (x * 100 + (1 # 2))). exact_ops. split; [field | ].
  pose proof (Qfloor_le (x * 100 + (1 # 2))).
  pose proof (Qfloor_upper (x * 100 + (1 # 2))).
  apply Qabs_Qle_condition. literal_inverses. split; lra.
Qed.

Lemma ceil1_exact (x : Q) : multiple_above 0.1 x (ceil1 x).
Proof.
  exists (Qceiling (x * 10)). exact_ops. split; [field | ].
  pose proof (Qle_ceiling (x * 10)).
  pose proof (Qceiling_upper (x * 10)).
  literal_inverses. split; lra.
Qed.

(** ** Claims on the coverage engine *)

(** C4.  [calculatePaintCoverage] throws exactly when [surfaceArea <= 0], or
    [volumeSolids <= 0], or [volumeSolids > 100], or [targetDFT <= 0], in
    every arithmetic; in binary64, area 0, solids 0, solids 101 and DFT 0
    each throw, while solids 100 and DFT 0.0001 each return a result. *)
Theorem calculatePaintCoverage_invalid_input :
  (forall (T : Type) (N : JsNum T) (input : CoverageInput.t T),
      (exists e, calculatePaintCoverage input = Throw e)
      <-> rejectedCoverageInput input = true)
  /\ calculatePaintCoverage (coverageWith 0 65 5 : CoverageInput.t float)
     = Throw (Error "Surface area must be greater than 0")
  /\ calculatePaintCoverage (coverageWith 1000 0 5 : CoverageInput.t float)
     = Throw (Error "Volume solids must be between 0 and 100")
  /\ calculatePaintCoverage (coverageWith 1000 101 5 : CoverageInput.t float)
     = Throw (Error "Volume solids must be between 0 and 100")
  /\ calculatePaintCoverage (coverageWith 1000 65 0 : CoverageInput.t float)
     = Throw (Error "Target DFT must be greater than 0")
  /\ (exists r,
        calculatePaintCoverage (coverageWith 1000 100 5 : CoverageInput.t float)
        = Ok r)
  /\ (exists r,
        calculatePaintCoverage
          (coverageWith 1000 65 0.0001 : CoverageInput.t float)
        = Ok r).
Proof.
  split; [intros T N input; apply calculatePaintCoverage_throws_iff | ].
  repeat split; try (vm_compute; reflexivity);
    eexists; vm_compute; reflexivity.
Qed.

(** With a surface of 1e18 square feet the returned total with waste is
    3.2 gallons short of the returned total times 1.10, in binary64. *)
Lemma calculatePaintCoverage_waste_allowance_lost :
  validCoverageInput (coverageWith 1000000000000000000 65 5
                      : CoverageInput.t float) = true
  /\ exists r,
       calculatePaintCoverage (coverageWith 1000000000000000000 65 5
                               : CoverageInput.t float) = Ok r
       /\ CoverageResult.totalGallons r = 14756009384821972%float
       /\ CoverageResult.totalWithWaste r = 16231610323304166%float
       /\ to_Q (CoverageResult.totalWithWaste r)
          - to_Q (CoverageResult.totalGallons r) * 1.10 == - (16 # 5).
Proof.
  split; [vm_compute; reflexivity | ].
  eexists. split; [vm_compute; reflexivity | ].
  repeat split; vm_compute; reflexivity.
Qed.

(** C1, amended.  A valid input is computed by the formulas of the design
    document (theoretical coverage [(1604 * solids / 100) / DFT], practical
    coverage, gallons per coat, total, a waste of [total * 0.1], total with
    waste, and the cost when the price is positive), each field then
    rounded, in every arithmetic with ordered comparisons.  In binary64,
    when the total before rounding is at most 1e12 gallons in magnitude,
    the returned total with waste is the returned total times 1.10 up to
    the rounding of the two fields: they differ by 0.12 at most. *)
Theorem calculatePaintCoverage_formulas :
  (forall (T : Type) (N : JsNum T) (O : JsOrder T) (input : CoverageInput.t T),
      validCoverageInput input = true ->
      calculatePaintCoverage input
      = Ok (roundedCoverage (coverageFormulas input)))
  /\ (forall (input : CoverageInput.t float) (r : CoverageResult.t float),
        calculatePaintCoverage input = Ok r ->
        (abs (CoverageFormulas.totalGallons (coverageFormulas input))
         <=? lit 1000000000000)%float = true ->
        Qabs (to_Q (CoverageResult.totalWithWaste r)
              - to_Q (CoverageResult.totalGallons r) * 1.10) <= 12 # 100).
Proof.
  split; [intros T N O input; apply calculatePaintCoverage_valid | ].
  intros input r Hr Hmax.
  destruct (rejectedCoverageInput input) eqn:Hguards.
  - apply calculatePaintCoverage_rejects in Hguards as [e He]. congruence.
  - rewrite (calculatePaintCoverage_accepts _ Hguards) in Hr.
    injection Hr as <-.
    cbn [roundedCoverage CoverageResult.totalWithWaste
           CoverageResult.totalGallons].
    unfold coverageFormulas in *.
    cbn [CoverageFormulas.totalWithWaste CoverageFormulas.totalGallons] in *.
    now apply waste_allowance.
Qed.

(** The sample input is computed as C1 says, in binary64, and its returned
    total with waste is within 0.12 of its returned total times 1.10. *)
Lemma calculatePaintCoverage_formulas_witness :
  calculatePaintCoverage (sampleCoverage : CoverageInput.t float)
  = Ok (roundedCoverage (coverageFormulas sampleCoverage))
  /\ Qabs (to_Q (CoverageResult.totalWithWaste
                   (roundedCoverage
                      (coverageFormulas
                         (sampleCoverage : CoverageInput.t float))))
           - to_Q (CoverageResult.totalGallons
                     (roundedCoverage
                        (coverageFormulas
                           (sampleCoverage : CoverageInput.t float))))
             * 1.10) <= 12 # 100.
Proof.
  split.
  - apply (proj1 calculatePaintCoverage_formulas float binary64 binary64_order).
    vm_compute. reflexivity.
  - apply (proj2 calculatePaintCoverage_formulas sampleCoverage).
    + vm_compute. reflexivity.
    + vm_compute. reflexivity.
Defined.

(** C5.  For a valid input each returned field is its quantity rounded by
    the field's own rule: the two coverage rates by [Math.round] to one
    decimal, the four gallon quantities by [Math.ceil] to one decimal, the
    cost by [Math.round] to two decimals, the coverage per gallon by
    [Math.round] to a whole unit.  In exact arithmetic these roundings give
    the nearest multiple of 0.1, the least multiple of 0.1 above, the
    nearest multiple of 0.01 and the nearest integer. *)
Theorem calculatePaintCoverage_rounding :
  (forall (T : Type) (N : JsNum T) (O : JsOrder T) (input : CoverageInput.t T),
      validCoverageInput input = true ->
      exists r,
        calculatePaintCoverage input = Ok r
        /\ CoverageResult.theoreticalCoverage r
           = round1 (CoverageFormulas.theoreticalCoverage
                       (coverageFormulas input))
        /\ CoverageResult.practicalCoverage r
           = round1 (CoverageFormulas.practicalCoverage
                       (coverageFormulas input))
        /\ CoverageResult.gallonsPerCoat r
           = ceil1 (CoverageFormulas.gallonsPerCoat (coverageFormulas input))
        /\ CoverageResult.totalGallons r
           = ceil1 (CoverageFormulas.totalGallons (coverageFormulas input))
        /\ CoverageResult.totalWithWaste r
           = ceil1 (CoverageFormulas.totalWithWaste (coverageFormulas input))
        /\ CoverageResult.wasteFactorGallons r
           = ceil1 (CoverageFormulas.wasteFactorGallons
                      (coverageFormulas input))
        /\ CoverageResult.estimatedCost r
           = round2 (CoverageFormulas.estimatedCost (coverageFormulas input))
        /\ CoverageResult.coveragePerGallon r
           = Math_round (CoverageFormulas.practicalCoverage
                           (coverageFormulas input)))
  /\ (forall x : Q,
        nearest_multiple 0.1 x (round1 x)
        /\ multiple_above 0.1 x (ceil1 x)
        /\ nearest_multiple 0.01 x (round2 x)
        /\ nearest_multiple 1 x (Math_round x)).
Proof.
  split.
  - intros T N O input Hvalid.
    exists (roundedCoverage (coverageFormulas input)).
    split; [now apply calculatePaintCoverage_valid | ].
    repeat split.
  - intros x.
    auto using round1_exact, ceil1_exact, round2_exact, Math_round_exact.
Qed.

(** The sample input is rounded as C5 says, in binary64. *)
Lemma calculatePaintCoverage_rounding_witness :
  exists r,
    calculatePaintCoverage (sampleCoverage : CoverageInput.t float) = Ok r
    /\ CoverageResult.theoreticalCoverage r = 208.5%float
    /\ CoverageResult.totalGallons r = 14.800000000000001%float
    /\ CoverageResult.estimatedCost r = 730.41999999999996%float
    /\ CoverageResult.coveragePerGallon r = 136%float.
Proof.
  assert (Hvalid : validCoverageInput (sampleCoverage : CoverageInput.t float)
                   = true) by (vm_compute; reflexivity).
  destruct (proj1 calculatePaintCoverage_rounding float binary64
              binary64_order sampleCoverage Hvalid)
    as (r & Hr & Htc & _ & _ & Htg & _ & _ & Hcost & Hcpg).
  exists r. rewrite Htc, Htg, Hcost, Hcpg.
  repeat split; try assumption; vm_compute; reflexivity.
Defined.




(** The coverage example of the README, in binary64: a theoretical coverage
    of 208.52 returned as 208.5, 7.4 gallons per coat, 14.8 gallons in all,
    16.3 with waste, in 4 buckets of five gallons or 17 cans. *)
Lemma calculatePaintCoverage_sample :
  calculatePaintCoverage (sampleCoverage : CoverageInput.t float)
  = Ok {|
      CoverageResult.theoreticalCoverage := 208.5;
      CoverageResult.practicalCoverage := 135.5;
      CoverageResult.gallonsPerCoat := 7.4;
      CoverageResult.totalGallons := 14.8;
      CoverageResult.totalWithWaste := 16.3;
      CoverageResult.wasteFactorGallons := 1.5;
      CoverageResult.fiveGallonBuckets := 4;
      CoverageResult.oneGallonCans := 17;
      CoverageResult.estimatedCost := 730.42;
      CoverageResult.coveragePerGallon := 136
    |}%float.
Proof. vm_compute. reflexivity. Qed.

(** ** Claims on the multi-coat system *)

Section MultiCoatFacts.

Context {T : Type} `{JsNum T}.

Variable Number_toString : T -> string.

(** One step of the loop, in the words of the design document. *)
Lemma processLayer_included (area efficiency : T)
    (system : Layers.t (CoatingLayer.t T)) (acc : Totals.t T)
    (k : LayerType.t) :
  processLayer area efficiency system acc k
  = match includedLayer system k with
    | Some layer =>
        c <- layerCoverage area efficiency layer ;;
        Ok {| Totals.layers :=
                Layers.set (Totals.layers acc) k (layerResult layer c);
              Totals.totalCost := (Totals.totalCost acc + layerCost layer c)%js;
              Totals.totalDFT := (Totals.totalDFT acc + layerTotalDFT layer)%js;
              Totals.totalGallons :=
                (Totals.totalGallons acc + CoverageResult.totalGallons c)%js |}
    | None => Ok acc
    end.
Proof.
  unfold processLayer, includedLayer.
  destruct (Layers.get system k) as [layer | ]; [ | reflexivity].
  destruct (ltb (lit 0) (CoatingLayer.coats layer)); reflexivity.
Qed.

Lemma calculateMultiCoatSystem_formulas (input : MultiCoatInput.t T) :
  calculateMultiCoatSystem Number_toString input
  = multiCoatFormulas Number_toString input.
Proof.
  unfold calculateMultiCoatSystem, multiCoatFormulas, includedLayers, layerOrder.
  cbn [forEach flat_map].
  destruct (includedLayer (MultiCoatInput.system input) LayerType.primer)
    as [p | ] eqn:Hp;
    destruct (includedLayer (MultiCoatInput.system input)
                LayerType.intermediate) as [i | ] eqn:Hi;
    destruct (includedLayer (MultiCoatInput.system input) LayerType.topcoat)
      as [t | ] eqn:Ht;
    repeat first
      [ rewrite processLayer_included
      | rewrite Hp | rewrite Hi | rewrite Ht
      | match goal with
        | Hc : layerCoverage ?a ?e ?l = _
          |- context [layerCoverage ?a ?e ?l] => rewrite Hc
        | |- context [layerCoverage ?a ?e ?l] =>
            destruct (layerCoverage a e l) eqn:?
        end
      | progress cbn [bind app coverages] ];
    reflexivity.
Qed.

End MultiCoatFacts.

Section MultiCoatClaims.

Context {T : Type} `{JsNum T}.

Variable Number_toString : T -> string.

(** The layers of a successful result are those of the included layers,
    each with the coverage engine's result for it. *)
Lemma multiCoatFormulas_layers (input : MultiCoatInput.t T)
    (r : MultiCoatResult.t T) (k : LayerType.t) :
  multiCoatFormulas Number_toString input = Ok r ->
  Layers.get (MultiCoatResult.layers r) k
  = match includedLayer (MultiCoatInput.system input) k with
    | Some layer =>
        match layerCoverage (MultiCoatInput.surfaceArea input)
                (default (lit 65) (MultiCoatInput.transferEfficiency input))
                layer with
        | Ok c => Some (layerResult layer c)
        | Throw _ => None
        end
    | None => None
    end.
Proof.
  unfold multiCoatFormulas, includedLayers, layerOrder. cbn [flat_map].
  destruct (includedLayer (MultiCoatInput.system input) LayerType.primer)
    as [p | ] eqn:Hp;
    destruct (includedLayer (MultiCoatInput.system input)
                LayerType.intermediate) as [i | ] eqn:Hi;
    destruct (includedLayer (MultiCoatInput.system input) LayerType.topcoat)
      as [t | ] eqn:Ht;
    cbn [app coverages bind];
    repeat match goal with
      | |- context [layerCoverage ?a ?e ?l] =>
          destruct (layerCoverage a e l) eqn:?; cbn [bind]
      end;
    intros Hr; try discriminate Hr; injection Hr as <-;
    destruct k; cbn [MultiCoatResult.layers Layers.get Layers.primer
                       Layers.intermediate Layers.topcoat layerOf];
    repeat match goal with
      | Hx : includedLayer _ _ = _ |- _ => rewrite Hx
      | Hx : layerCoverage _ _ _ = _ |- _ => rewrite Hx
      end;
    reflexivity.
Qed.

(** C6.  [calculateMultiCoatSystem] is the computation the design document
    describes: the layers that are present with a coat count above zero,
    in the order primer, intermediate, topcoat; the coverage engine on each
    with the system's transfer efficiency; per layer, total DFT
    [dft * coats] and cost [totalGallons * price]; the sums of these and of
    the gallons over the included layers, rounded; cost per square foot
    from the total cost; and the description, the included layers' names
    and total DFTs joined by [" | "].  Every layer of a successful result
    is the coverage engine's result for an included layer, with that
    layer's total DFT and cost, and a successful result has a layer exactly
    where one is included. *)
Theorem calculateMultiCoatSystem_design (input : MultiCoatInput.t T) :
  calculateMultiCoatSystem Number_toString input
  = multiCoatFormulas Number_toString input
  /\ (forall r,
         calculateMultiCoatSystem Number_toString input = Ok r ->
         forall k l,
           Layers.get (MultiCoatResult.layers r) k = Some l ->
           exists layer c,
             includedLayer (MultiCoatInput.system input) k = Some layer
             /\ layerCoverage (MultiCoatInput.surfaceArea input)
                  (default (lit 65) (MultiCoatInput.transferEfficiency input))
                  layer = Ok c
             /\ LayerResult.coverage l = c
             /\ LayerResult.totalDFT l
                = (CoatingLayer.dft layer * CoatingLayer.coats layer)%js
             /\ LayerResult.cost l
                = round2 (CoverageResult.totalGallons c
                          * or_zero (CoatingLayer.pricePerGallon layer))%js)
  /\ forall r,
       calculateMultiCoatSystem Number_toString input = Ok r ->
       forall k,
         (exists l, Layers.get (MultiCoatResult.layers r) k = Some l)
         <-> (exists layer,
                 Layers.get (MultiCoatInput.system input) k = Some layer
                 /\ (CoatingLayer.coats layer > lit 0)%js = true).
Proof.
  split; [apply calculateMultiCoatSystem_formulas | ].
  split.
  { intros r Hr k l. rewrite calculateMultiCoatSystem_formulas in Hr.
    rewrite (multiCoatFormulas_layers input r k Hr).
    destruct (includedLayer (MultiCoatInput.system input) k)
      as [layer | ] eqn:Hincluded; [ | discriminate].
    destruct (layerCoverage (MultiCoatInput.surfaceArea input)
                (default (lit 65) (MultiCoatInput.transferEfficiency input))
                layer) as [c | e] eqn:Hc; [ | discriminate].
    intros Hl. injection Hl as <-. exists layer, c.
    repeat split; assumption. }
  intros r Hr k. rewrite calculateMultiCoatSystem_formulas in Hr.
  pose proof Hr as Hall.
  rewrite (multiCoatFormulas_layers input r k Hr).
  unfold includedLayer.
  destruct (Layers.get (MultiCoatInput.system input) k) as [layer | ] eqn:Hk.
  - destruct (ltb (lit 0) (CoatingLayer.coats layer)) eqn:Hcoats.
    + split; [intros _; exists layer; auto | intros _].
      destruct (layerCoverage (MultiCoatInput.surfaceArea input)
                  (default (lit 65) (MultiCoatInput.transferEfficiency input))
                  layer) as [c | e] eqn:Hc; [eexists; reflexivity | ].
      exfalso. revert Hall.
      unfold multiCoatFormulas, includedLayers, layerOrder. cbn [flat_map].
      unfold includedLayer at 1 2 3.
      destruct k; rewrite Hk, Hcoats;
        repeat match goal with
          | |- context [match Layers.get ?s ?j with _ => _ end] =>
              destruct (Layers.get s j) as [? | ]
          | |- context [if ltb ?a ?b then _ else _] => destruct (ltb a b)
          end;
        cbn [app coverages bind];
        repeat match goal with
          | Hx : layerCoverage ?a ?e ?l = _
            |- context [layerCoverage ?a ?e ?l] => rewrite Hx; cbn [bind]
          | |- context [layerCoverage ?a ?e ?l] =>
              destruct (layerCoverage a e l) eqn:?; cbn [bind]
          end;
        discriminate.
    + split; [intros [l Hl]; discriminate Hl | ].
      intros (layer' & Hlayer & Hpos).
      injection Hlayer as <-. congruence.
  - split; [intros [l Hl]; discriminate Hl | ].
    intros (layer' & Hlayer & _). discriminate Hlayer.
Qed.

End MultiCoatClaims.

(** The primer and topcoat example of the design document, in binary64:
    system total DFT 9, both layers described, no intermediate layer. *)
Lemma calculateMultiCoatSystem_design_witness :
  exists r,
    calculateMultiCoatSystem NumberToString.Number_toString primerAndTopcoat
    = Ok r
    /\ MultiCoatSummary.totalDFT (MultiCoatResult.summary r) = 9%float
    /\ MultiCoatSummary.systemDescription (MultiCoatResult.summary r)
       = "Primer: 3 mils DFT | Topcoat: 6 mils DFT"%string
    /\ ((exists l,
           Layers.get (MultiCoatResult.layers r) LayerType.intermediate
           = Some l)
        <-> (exists layer,
                Layers.get (MultiCoatInput.system primerAndTopcoat)
                  LayerType.intermediate = Some layer
                /\ (CoatingLayer.coats layer > lit 0)%js = true)).
Proof.
  destruct (calculateMultiCoatSystem NumberToString.Number_toString
              primerAndTopcoat) as [r | e] eqn:Hr;
    [ | vm_compute in Hr; discriminate Hr].
  exists r. split; [reflexivity | ].
  pose proof (proj2 (proj2 (calculateMultiCoatSystem_design
                              NumberToString.Number_toString primerAndTopcoat))
                r Hr LayerType.intermediate) as Hiff.
  vm_compute in Hr. injection Hr as <-.
  repeat split; try (vm_compute; reflexivity); apply Hiff.
Defined.

Section MultiCoatFailure.

Context {T : Type} `{JsNum T}.

Variable Number_toString : T -> string.

(** The coverage engine rejects a layer with rejected parameters, whatever
    the area and the transfer efficiency. *)
Lemma layerCoverage_rejects (area efficiency : T) (layer : CoatingLayer.t T) :
  rejectedLayer layer = true ->
  exists e, layerCoverage area efficiency layer = Throw e.
Proof.
  intros Hlayer. apply calculatePaintCoverage_rejects.
  unfold rejectedLayer in Hlayer. unfold rejectedCoverageInput.
  cbn [CoverageInput.surfaceArea CoverageInput.volumeSolids
         CoverageInput.targetDFT].
  apply orb_true_iff in Hlayer as [Hlayer | Hdft];
    [apply orb_true_iff in Hlayer as [Hmin | Hmax] | ].
  - rewrite Hmin. now rewrite !orb_true_r.
  - rewrite Hmax. now rewrite !orb_true_r.
  - rewrite Hdft. now rewrite !orb_true_r.
Qed.

(** C8.  When a layer that is present with a coat count above zero has
    parameters the coverage engine rejects, the whole multi-coat
    calculation throws: there is no result, partial or other. *)
Theorem calculateMultiCoatSystem_propagates (input : MultiCoatInput.t T)
    (k : LayerType.t) (layer : CoatingLayer.t T) :
  Layers.get (MultiCoatInput.system input) k = Some layer ->
  (CoatingLayer.coats layer > lit 0)%js = true ->
  rejectedLayer layer = true ->
  (exists e, calculateMultiCoatSystem Number_toString input = Throw e)
  /\ forall r, calculateMultiCoatSystem Number_toString input <> Ok r.
Proof.
  intros Hk Hcoats Hlayer.
  assert (Hthrows :
            exists e, calculateMultiCoatSystem Number_toString input = Throw e).
  { rewrite calculateMultiCoatSystem_formulas.
    destruct (layerCoverage_rejects (MultiCoatInput.surfaceArea input)
                (default (lit 65) (MultiCoatInput.transferEfficiency input))
                layer Hlayer) as [e He].
    assert (Hincluded :
              includedLayer (MultiCoatInput.system input) k = Some layer).
    { unfold includedLayer. now rewrite Hk, Hcoats. }
    unfold multiCoatFormulas, includedLayers, layerOrder. cbn [flat_map].
    destruct k; rewrite Hincluded;
      repeat match goal with
        | |- context [match includedLayer ?s ?j with _ => _ end] =>
            destruct (includedLayer s j) as [? | ]
        end;
      cbn [app coverages bind];
      repeat match goal with
        | Hx : layerCoverage ?a ?f ?l = _
          |- context [layerCoverage ?a ?f ?l] => rewrite Hx; cbn [bind]
        | |- context [layerCoverage ?a ?f ?l] =>
            destruct (layerCoverage a f l) eqn:?; cbn [bind]
        end;
      eexists; reflexivity. }
  split; [exact Hthrows | ].
  destruct Hthrows as [e He]. intros r Hr. congruence.
Qed.

End MultiCoatFailure.

(** A system whose topcoat has volume solids 101 throws, although its
    primer is computed first and is fine; the intermediate layer of zero
    coats is skipped. *)
Lemma calculateMultiCoatSystem_propagates_witness :
  (exists e,
      calculateMultiCoatSystem NumberToString.Number_toString topcoatOutOfRange
      = Throw e)
  /\ forall r,
       calculateMultiCoatSystem NumberToString.Number_toString topcoatOutOfRange
       <> Ok r.
Proof.
  apply (calculateMultiCoatSystem_propagates NumberToString.Number_toString
           topcoatOutOfRange LayerType.topcoat
           (CoatingLayer.mk 101 3 2 (Some 45) None)%float).
  - reflexivity.
  - vm_compute. reflexivity.
  - vm_compute. reflexivity.
Defined.

(** ** Claims on the dew point *)

(** C2.  For every temperature and humidity (those with a humidity in
    (0, 100] among them), every arithmetic and every [Math.log],
    [calculateDewPoint] returns a result whose dew point is the Magnus
    formula's, rounded to one decimal; whose minimum surface temperature is
    the dew point plus 5, rounded to one decimal; whose current margin is
    the surface temperature (5 below the air's) minus the dew point, rounded
    to one decimal; and which is safe exactly when the margin, before
    rounding, is at least 5. *)
Theorem calculateDewPoint_magnus (T : Type) (N : JsNum T) (Math_log : T -> T)
    (Number_toString : T -> string) (input : DewPointInput.t T) :
  exists r,
    calculateDewPoint Math_log Number_toString input = Ok r
    /\ DewPointResult.dewPoint r
       = round1 (magnusDewPoint Math_log (DewPointInput.temperature input)
                   (DewPointInput.humidity input))
    /\ DewPointResult.minimumSurfaceTemp r
       = round1 (magnusDewPoint Math_log (DewPointInput.temperature input)
                   (DewPointInput.humidity input) + lit 5)%js
    /\ DewPointResult.currentMargin r
       = round1 (surfaceTemperature (DewPointInput.temperature input)
                 - magnusDewPoint Math_log (DewPointInput.temperature input)
                     (DewPointInput.humidity input))%js
    /\ (DewPointResult.isSafe r = true
        <-> (dewPointMargin Math_log (DewPointInput.temperature input)
               (DewPointInput.humidity input) >= lit 5)%js = true).
Proof.
  eexists. split; [reflexivity | ].
  cbn [DewPointResult.dewPoint DewPointResult.minimumSurfaceTemp
         DewPointResult.currentMargin DewPointResult.isSafe].
  repeat split; intros Hsafe; exact Hsafe.
Qed.

(** The safety test reads the margin before it is rounded: at 70 degrees
    and 64 percent the returned margin is 5.0 and [isSafe] is false (the
    margin is 4.96). *)
Lemma calculateDewPoint_margin_rounds_to_five :
  exists r,
    calculateDewPoint Fdlibm.log NumberToString.Number_toString
      (DewPointInput.mk 70 64)%float = Ok r
    /\ DewPointResult.currentMargin r = 5%float
    /\ DewPointResult.isSafe r = false.
Proof.
  eexists. split; [reflexivity | ]. split; vm_compute; reflexivity.
Qed.

(** The literals of the code are the doubles JavaScript reads them as. *)
Lemma binary64_literals :
  (lit 17.27 : float) = 17.27%float
  /\ (lit 237.7 : float) = 237.7%float
  /\ (lit 0.1 : float) = 0.1%float
  /\ (lit 1604 : float) = 1604%float
  /\ (lit 0.0015 : float) = 0.0015%float
  /\ (lit 0.12 : float) = 0.12%float
  /\ (lit 0.01 : float) = 0.01%float
  /\ (lit 0.05 : float) = 0.05%float.
Proof. repeat split; vm_compute; reflexivity. Qed.

(** The fdlibm logarithm of 0.65 is the nearest double to ln 0.65. *)
Lemma Fdlibm_log_065 : Fdlibm.log 0.65 = ln_065.
Proof. vm_compute. reflexivity. Qed.

(** At 75 degrees and 65 percent the code returns a dew point of 65.1, not
    one within 0.1 of 61.6, a margin of 4.9 and [isSafe = false]. *)
Lemma calculateDewPoint_sample_unsafe :
  calculateDewPoint Fdlibm.log NumberToString.Number_toString sampleConditions
  = Ok sampleDewPoint
  /\ (PrimFloat.abs (DewPointResult.dewPoint sampleDewPoint - 61.6)
      <=? 0.1)%float = false
  /\ DewPointResult.currentMargin sampleDewPoint = 4.9%float
  /\ DewPointResult.isSafe sampleDewPoint = false.
Proof. repeat split; vm_compute; reflexivity. Qed.

Lemma sampleDewPointIs_sound (l : float) :
  sampleDewPointIs l = true -> sampleDewPointWith l = Ok sampleDewPoint.
Proof.
  unfold sampleDewPointIs.
  destruct (sampleDewPointWith l) as [[dp ms cm safe rec] | e];
    [ | discriminate].
  cbn [DewPointResult.dewPoint DewPointResult.minimumSurfaceTemp
         DewPointResult.currentMargin DewPointResult.isSafe
         DewPointResult.recommendation].
  intros Hsame.
  apply andb_prop in Hsame as [Hsame Hrec].
  apply andb_prop in Hsame as [Hsame Hsafe].
  apply andb_prop in Hsame as [Hsame Hcm].
  apply andb_prop in Hsame as [Hdp Hms].
  apply FloatAxioms.Leibniz.eqb_spec in Hdp, Hms, Hcm.
  apply Bool.eqb_prop in Hsafe. apply String.eqb_eq in Hrec.
  subst. reflexivity.
Qed.

Lemma sampleDewPointIs_near_ln_065 :
  forallb sampleDewPointIs (neighbours 1000 ln_065) = true.
Proof. vm_compute. reflexivity. Qed.

(** C3, amended.  At 75 degrees and 65 percent, with any [Math.log] whose
    value at 0.65 is within 1000 doubles of ln 0.65, [calculateDewPoint]
    returns dew point 65.1, minimum surface temperature 70.1, current
    margin 4.9 (the surface is at 70), [isSafe = false] and the advice to
    wait until the surface is above 70 degrees. *)
Theorem calculateDewPoint_sample (Math_log : float -> float) :
  In (Math_log 0.65%float) (neighbours 1000 ln_065) ->
  calculateDewPoint Math_log NumberToString.Number_toString sampleConditions
  = Ok sampleDewPoint
  /\ surfaceTemperature (DewPointInput.temperature sampleConditions)
     = 70%float.
Proof.
  intros Hnear. split; [ | vm_compute; reflexivity].
  change (calculateDewPoint Math_log NumberToString.Number_toString
            sampleConditions)
    with (sampleDewPointWith (Math_log 0.65%float)).
  apply sampleDewPointIs_sound.
  pose proof sampleDewPointIs_near_ln_065 as Hall.
  rewrite forallb_forall in Hall. now apply Hall.
Qed.

(** The amended C3 with the fdlibm logarithm. *)
Lemma calculateDewPoint_sample_witness :
  calculateDewPoint Fdlibm.log NumberToString.Number_toString sampleConditions
  = Ok sampleDewPoint
  /\ surfaceTemperature (DewPointInput.temperature sampleConditions)
     = 70%float.
Proof.
  apply (calculateDewPoint_sample Fdlibm.log).
  left. vm_compute. reflexivity.
Defined.

(** ** Claims on the functions without validation *)

Lemma float_zero_cases (y : float) :
  (y =? 0)%float = true -> exists s, Prim2SF y = S754_zero s.
Proof.
  rewrite FloatAxioms.eqb_spec.
  change (Prim2SF 0) with (S754_zero false).
  destruct (Prim2SF y) as [s | s | | s m e]; cbn;
    try discriminate; try (destruct s; discriminate).
  intros _. now exists s.
Qed.

Lemma float_of_class (x : float) (c : spec_float) :
  Prim2SF x = c -> x = SF2Prim c.
Proof. intros <-. symmetry. apply SF2Prim_Prim2SF. Qed.

(** A division by zero gives [NaN] or an infinity. *)
Lemma div_zero_nonfinite (x y : float) :
  (y =? 0)%float = true ->
  (x / y)%float = nan \/ (x / y)%float = infinity
  \/ (x / y)%float = neg_infinity.
Proof.
  intros Hy. destruct (float_zero_cases y Hy) as [s Hs].
  pose proof (FloatAxioms.div_spec x y) as Hdiv. rewrite Hs in Hdiv.
  destruct (Prim2SF x) as [sx | sx | | sx m e];
    apply float_of_class in Hdiv; rewrite Hdiv;
    try destruct sx; destruct s; cbn; auto.
Qed.

(** A division by [NaN] gives [NaN]. *)
Lemma div_nan (x : float) : (x / nan)%float = nan.
Proof.
  pose proof (FloatAxioms.div_spec x nan) as Hdiv.
  change (Prim2SF nan) with S754_nan in Hdiv.
  apply float_of_class in Hdiv. rewrite Hdiv.
  destruct (Prim2SF x); reflexivity.
Qed.

(** A product with zero is a zero or [NaN]. *)
Lemma mul_zero_cases (x : float) :
  (x * 0)%float = 0%float \/ (x * 0)%float = (-0)%float
  \/ (x * 0)%float = nan.
Proof.
  pose proof (FloatAxioms.mul_spec x 0) as Hmul.
  change (Prim2SF 0) with (S754_zero false) in Hmul.
  apply float_of_class in Hmul. rewrite Hmul.
  destruct (Prim2SF x) as [sx | sx | | sx m e];
    try destruct sx; cbn; auto.
Qed.

(** Scaling and rounding keep [NaN] and the infinities what they are. *)
Lemma round1_nonfinite (z : float) :
  z = nan \/ z = infinity \/ z = neg_infinity ->
  nonfinite (round1 z) = true.
Proof. intros [-> | [-> | ->]]; vm_compute; reflexivity. Qed.

Lemma times_100_nonfinite (z : float) :
  z = nan \/ z = infinity \/ z = neg_infinity ->
  (z * lit 100)%js = nan \/ (z * lit 100)%js = infinity
  \/ (z * lit 100)%js = neg_infinity.
Proof. intros [-> | [-> | ->]]; vm_compute; auto. Qed.

(** With a thinning of 100 percent the wet film thickness is not finite. *)
Lemma calculateWFT_full_thinning (Number_toString : float -> string)
    (targetDFT volumeSolids : float) :
  exists r,
    calculateWFT Number_toString (fullThinning targetDFT volumeSolids) = Ok r
    /\ nonfinite (WFTResult.wetFilmThickness r) = true.
Proof.
  eexists. split; [reflexivity | ].
  cbn [WFTResult.wetFilmThickness].
  apply round1_nonfinite, times_100_nonfinite.
  cbn [fullThinning WFTInput.targetDFT WFTInput.volumeSolids
         WFTInput.reductionPercent default].
  change (lit 1 - 100%float / lit 100)%js with 0%float.
  cbn [mul div binary64].
  destruct (mul_zero_cases volumeSolids) as [-> | [-> | ->]].
  - now apply div_zero_nonfinite.
  - now apply div_zero_nonfinite.
  - left. apply div_nan.
Qed.

(** With annual savings of zero the payback period is not finite. *)
Lemma calculateROI_zero_savings (Math_pow : float -> float -> float)
    (input : ROIInput.t float) :
  (annualSavingsOf input =? 0)%float = true ->
  exists r,
    calculateROI Math_pow input = Ok r
    /\ nonfinite (ROIResult.paybackPeriod (ROIResult.roi r)) = true.
Proof.
  intros Hzero. eexists. split; [reflexivity | ].
  cbn [ROIResult.roi ROIResult.paybackPeriod].
  apply round1_nonfinite.
  now apply (div_zero_nonfinite _ (annualSavingsOf input)).
Qed.

(** C9.  [calculateDewPoint], [calculateROI] and [calculateWFT] return a
    result for every input, in every arithmetic and with every host
    function: they validate nothing.  In binary64, annual savings of zero
    make the payback period of [calculateROI] [NaN] or an infinity, and a
    thinning of 100 percent makes the wet film thickness of [calculateWFT]
    [NaN] or an infinity; two examples give [Infinity]. *)
Theorem no_validation_elsewhere :
  (forall (T : Type) (N : JsNum T) (Math_log : T -> T)
          (Number_toString : T -> string) (input : DewPointInput.t T),
      exists r, calculateDewPoint Math_log Number_toString input = Ok r)
  /\ (forall (T : Type) (N : JsNum T) (Math_pow : T -> T -> T)
             (input : ROIInput.t T),
         exists r, calculateROI Math_pow input = Ok r)
  /\ (forall (T : Type) (N : JsNum T) (Number_toString : T -> string)
             (input : WFTInput.t T),
         exists r, calculateWFT Number_toString input = Ok r)
  /\ (forall (Math_pow : float -> float -> float) (input : ROIInput.t float),
         (annualSavingsOf input =? 0)%float = true ->
         exists r,
           calculateROI Math_pow input = Ok r
           /\ nonfinite (ROIResult.paybackPeriod (ROIResult.roi r)) = true)
  /\ (forall (Number_toString : float -> string)
             (targetDFT volumeSolids : float),
         exists r,
           calculateWFT Number_toString (fullThinning targetDFT volumeSolids)
           = Ok r
           /\ nonfinite (WFTResult.wetFilmThickness r) = true)
  /\ (forall Math_pow : float -> float -> float,
         exists r,
           calculateROI Math_pow zeroSavings = Ok r
           /\ ROIResult.paybackPeriod (ROIResult.roi r) = infinity)
  /\ (exists r,
         calculateWFT NumberToString.Number_toString (fullThinning 5 65) = Ok r
         /\ WFTResult.wetFilmThickness r = infinity
         /\ WFTResult.adjustedSolids r = 0%float
         /\ WFTResult.wetFilmGauge r
            = "Use multiple passes or special gauge"%string
         /\ In "Thinning by 100% may affect coating properties"%string
              (WFTResult.applicationTips r)).
Proof.
  split; [intros; eexists; reflexivity | ].
  split; [intros; eexists; reflexivity | ].
  split; [intros; eexists; reflexivity | ].
  split; [exact calculateROI_zero_savings | ].
  split; [exact calculateWFT_full_thinning | ].
  split.
  - intros Math_pow. eexists. split; [reflexivity | ].
    vm_compute. reflexivity.
  - eexists. split; [reflexivity | ].
    repeat split; try (vm_compute; reflexivity).
    vm_compute. auto.
Qed.

(** ** Claims on the spreading rate *)

(** In binary64, a wet film of 64 mils spreads at 2506.3 with 50 percent
    volume solids and at 2506.2 with 56 percent. *)
Lemma calculateSpreadingRate_depends_on_solids :
  (0 <? 64)%float = true
  /\ (50 =? 0)%float = false
  /\ (56 =? 0)%float = false
  /\ calculateSpreadingRate 64%float 50%float = 2506.3%float
  /\ calculateSpreadingRate 64%float 56%float = 2506.2%float
  /\ (calculateSpreadingRate 64%float 50%float
      =? calculateSpreadingRate 64%float 56%float)%float = false.
Proof. repeat split; vm_compute; reflexivity. Qed.

(** Outside these ranges the rates are further apart: below a wet film of
    1e-8 the doubles no longer carry tenths, and a volume solids near the
    least or the greatest double underflows or overflows on the way. *)
Lemma calculateSpreadingRate_out_of_range :
  calculateSpreadingRate 1e-11%float 33%float = 16040000000000000%float
  /\ calculateSpreadingRate 1e-11%float 50%float = 16040000000000004%float
  /\ calculateSpreadingRate 64%float 5e-324%float = 1604%float
  /\ calculateSpreadingRate 64%float 1e308%float = nan.
Proof. repeat split; vm_compute; reflexivity. Qed.

(** C10, amended.  In binary64, for a wet film thickness between 1e-8 and
    1e100 and two volume solids of magnitude between 1e-100 and 1e100, of
    either sign, the two spreading rates are counts of tenths that differ
    by one at most: the volume solids cancel up to the rounding of the
    intermediate products. *)
Theorem calculateSpreadingRate_cancels (w s1 s2 : float) :
  (1e-8 <=? w)%float = true -> (w <=? 1e100)%float = true ->
  (1e-100 <=? abs s1)%float = true -> (abs s1 <=? 1e100)%float = true ->
  (1e-100 <=? abs s2)%float = true -> (abs s2 <=? 1e100)%float = true ->
  exists k1 k2 : Z,
    calculateSpreadingRate w s1 = (Binary64.of_Z k1 / lit 10)%js
    /\ calculateSpreadingRate w s2 = (Binary64.of_Z k2 / lit 10)%js
    /\ (Z.abs (k1 - k2) <= 1)%Z.
Proof.
  intros Hw1 Hw2 Hs1 Hs1' Hs2 Hs2'.
  destruct spreading_ranges as ([Hlo Vlo] & _ & [Hhi Vhi]).
  assert (Hw : positive_finite w).
  { destruct (leb_positive _ _ Hlo Hw1) as [Hpf | Hinf]; [exact Hpf | ].
    rewrite (infinity_not_below _ _ Hinf Hhi) in Hw2. discriminate. }
  assert (Hwlow : 2 ^ (-27) <= to_Q w).
  { apply Qle_trans with (to_Q 1e-8%float); [exact Vlo | ].
    apply leb_values; auto using positive_finite_not_negative. }
  assert (Hwhigh : to_Q w <= 2 ^ 333).
  { apply Qle_trans with (to_Q 1e100%float); [ | exact Vhi].
    apply leb_values; auto using positive_finite_not_negative. }
  destruct (calculateSpreadingRate_magnitude w s1 Hw Hwlow Hwhigh Hs1 Hs1')
    as (k1 & Hk1 & Hk1l & Hk1h).
  destruct (calculateSpreadingRate_magnitude w s2 Hw Hwlow Hwhigh Hs2 Hs2')
    as (k2 & Hk2 & Hk2l & Hk2h).
  exists k1, k2. split; [exact Hk1 | ]. split; [exact Hk2 | ].
  assert (H12 : inject_Z k1 < inject_Z (k2 + 2)).
  { rewrite inject_Z_plus. change (inject_Z 2) with 2. lra. }
  assert (H21 : inject_Z k2 < inject_Z (k1 + 2)).
  { rewrite inject_Z_plus. change (inject_Z 2) with 2. lra. }
  rewrite <- Zlt_Qlt in H12, H21. lia.
Qed.

(** At 64 mils, volume solids of 50 and of 56 percent give adjacent
    counts of tenths. *)
Lemma calculateSpreadingRate_cancels_witness :
  exists k1 k2 : Z,
    calculateSpreadingRate 64%float 50%float = (Binary64.of_Z k1 / lit 10)%js
    /\ calculateSpreadingRate 64%float 56%float
       = (Binary64.of_Z k2 / lit 10)%js
    /\ (Z.abs (k1 - k2) <= 1)%Z.
Proof.
  apply (calculateSpreadingRate_cancels 64 50 56); vm_compute; reflexivity.
Defined.

(** * Properties of the other calculators *)

(** ** Primer *)

(** X1.  In binary64, [calculatePrimerNeeded] throws exactly when the
    surface area is [<= 0], and then always with the surface-area message:
    its fixed volume solids 35 and DFT 1.5 pass the other guards, whatever
    the substrate type and the porosity. *)
Theorem calculatePrimerNeeded_throws_iff (surfaceArea : float)
    (substrateType porosity : option string) :
  ((exists e,
       calculatePrimerNeeded surfaceArea substrateType porosity = Throw e)
   <-> (surfaceArea <=? 0)%float = true)
  /\ forall e,
       calculatePrimerNeeded surfaceArea substrateType porosity = Throw e ->
       e = Error "Surface area must be greater than 0".
Proof.
  unfold calculatePrimerNeeded, calculatePaintCoverage.
  cbn [CoverageInput.surfaceArea CoverageInput.volumeSolids
         CoverageInput.targetDFT CoverageInput.coats
         CoverageInput.transferEfficiency CoverageInput.pricePerGallon].
  change (leb surfaceArea (lit 0)) with (surfaceArea <=? 0)%float.
  change ((lit 35 <= lit 0)%js || (lit 35 > lit 100)%js) with false.
  change (lit 1.5 <= lit 0)%js with false.
  destruct (surfaceArea <=? 0)%float; cbn iota.
  - split; [split; [reflexivity | intros _; eexists; reflexivity] | ].
    intros e He. now injection He as <-.
  - split; [split; [intros [e He]; discriminate He | discriminate] | ].
    intros e He. discriminate He.
Qed.

(** X2.  In binary64, whenever [calculatePrimerNeeded] returns, the result
    reports the same coverage for every area, substrate type and porosity:
    374.3 theoretical, 280.7 practical, 281 per gallon, and no cost. *)
Theorem calculatePrimerNeeded_rates (surfaceArea : float)
    (substrateType porosity : option string) (r : CoverageResult.t float) :
  calculatePrimerNeeded surfaceArea substrateType porosity = Ok r ->
  CoverageResult.theoreticalCoverage r = 374.3%float
  /\ CoverageResult.practicalCoverage r = 280.7%float
  /\ CoverageResult.coveragePerGallon r = 281%float
  /\ CoverageResult.estimatedCost r = 0%float.
Proof.
  unfold calculatePrimerNeeded, calculatePaintCoverage.
  cbn [CoverageInput.surfaceArea CoverageInput.volumeSolids
         CoverageInput.targetDFT CoverageInput.coats
         CoverageInput.transferEfficiency CoverageInput.pricePerGallon].
  change ((lit 35 <= lit 0)%js || (lit 35 > lit 100)%js) with false.
  change (lit 1.5 <= lit 0)%js with false.
  destruct (leb surfaceArea (lit 0)); cbn iota; [discriminate | ].
  intros Hr. injection Hr as <-.
  cbn [CoverageResult.theoreticalCoverage CoverageResult.practicalCoverage
         CoverageResult.coveragePerGallon CoverageResult.estimatedCost].
  repeat split; vm_compute; reflexivity.
Qed.

(** A primer for 1000 square feet of masonry. *)
Lemma calculatePrimerNeeded_rates_witness :
  exists r,
    calculatePrimerNeeded 1000%float (Some "masonry"%string)
      (Some "high"%string) = Ok r
    /\ CoverageResult.theoreticalCoverage r = 374.3%float
    /\ CoverageResult.practicalCoverage r = 280.7%float
    /\ CoverageResult.coveragePerGallon r = 281%float
    /\ CoverageResult.estimatedCost r = 0%float.
Proof.
  destruct (calculatePrimerNeeded 1000%float (Some "masonry"%string)
              (Some "high"%string)) as [r | e] eqn:Hr;
    [ | vm_compute in Hr; discriminate Hr].
  exists r. split; [reflexivity | ].
  exact (calculatePrimerNeeded_rates _ _ _ r Hr).
Defined.

(** ** VOC emissions *)

(** Above 150 is above 50, for a double that is not [NaN]. *)
Lemma Prim2SF_150 : Prim2SF 150 = S754_finite false 5277655813324800 (-45).
Proof. vm_compute. reflexivity. Qed.

Lemma Prim2SF_50 : Prim2SF 50 = S754_finite false 7036874417766400 (-47).
Proof. vm_compute. reflexivity. Qed.

Lemma above_150_above_50 (v : float) :
  (v <=? 150)%float = false -> (v =? v)%float = true ->
  (50 <? v)%float = true.
Proof.
  rewrite FloatAxioms.leb_spec, FloatAxioms.eqb_spec, FloatAxioms.ltb_spec.
  rewrite Prim2SF_150, Prim2SF_50.
  unfold SFleb, SFeqb, SFltb.
  destruct (Prim2SF v) as [s | s | | s m e]; unfold SFcompare;
    try discriminate; try (destruct s; try discriminate; reflexivity).
  destruct s; [discriminate | ].
  destruct (Z.compare_spec e (-45)) as [He | He | He]; try discriminate.
  - subst e. intros _ _. reflexivity.
  - intros _ _. destruct (Z.compare_spec (-47) e) as [Hf | Hf | Hf];
      try reflexivity; lia.
Qed.

(** X3.  In binary64, when the ventilation rate is absent or not above
    zero, [calculateVOC] reports 0 air changes per hour and a clear time of
    0, and always advises to increase the ventilation. *)
Theorem calculateVOC_without_ventilation (input : VOCInput.t float) :
  (default (lit 0) (VOCInput.ventilationRate input) > lit 0)%js = false ->
  exists r,
    calculateVOC input = Ok r
    /\ VOCResult.airChangesPerHour r = 0%float
    /\ VOCResult.estimatedClearTime r = 0%float
    /\ In "Increase ventilation to minimum 4 air changes per hour"%string
         (VOCResult.recommendations r).
Proof.
  intros Hrate. unfold calculateVOC. rewrite Hrate.
  eexists. split; [reflexivity | ].
  cbn [VOCResult.airChangesPerHour VOCResult.estimatedClearTime
         VOCResult.recommendations].
  split; [vm_compute; reflexivity | ].
  split; [vm_compute; reflexivity | ].
  change (lit 0 < lit 4)%js with true. cbn iota.
  destruct (negb (VOCInput.vocContent input <= VOC_LIMITS.NON_FLAT)%js),
    (VOCInput.vocContent input > lit 50)%js;
    unfold push; cbn [app]; cbn; auto.
Qed.

(** A coating applied with no ventilation given. *)
Lemma calculateVOC_without_ventilation_witness :
  exists r,
    calculateVOC (VOCInput.mk 10 120 1000 None None)%float = Ok r
    /\ VOCResult.airChangesPerHour r = 0%float
    /\ VOCResult.estimatedClearTime r = 0%float
    /\ In "Increase ventilation to minimum 4 air changes per hour"%string
         (VOCResult.recommendations r).
Proof.
  apply (calculateVOC_without_ventilation
           (VOCInput.mk 10 120 1000 None None)%float).
  vm_compute. reflexivity.
Defined.

(** X4.  In binary64, a VOC content that [calculateVOC] finds not
    compliant (above the limit of 150, which it uses for every coating) and
    that is a number gets both the warning that it exceeds the limit and
    the advice to use a low-VOC alternative. *)
Theorem calculateVOC_not_compliant (input : VOCInput.t float)
    (r : VOCResult.t float) :
  calculateVOC input = Ok r ->
  VOCResult.isCompliant r = false ->
  (VOCInput.vocContent input =? VOCInput.vocContent input)%float = true ->
  VOCResult.regulatoryLimit r = 150%float
  /\ (VOCInput.vocContent input <=? 150)%float = false
  /\ In "⚠️ VOC content exceeds regulatory limits"%string
       (VOCResult.recommendations r)
  /\ In "Consider using low-VOC alternatives (<50 g/L)"%string
       (VOCResult.recommendations r).
Proof.
  intros Hr Hcompliant Hnumber.
  assert (Hlimit : (VOCInput.vocContent input <= VOC_LIMITS.NON_FLAT)%js
                   = false).
  { unfold calculateVOC in Hr.
    destruct (default (lit 0) (VOCInput.ventilationRate input) > lit 0)%js;
      injection Hr as <-; exact Hcompliant. }
  assert (Habove : (VOCInput.vocContent input > lit 50)%js = true)
    by (apply above_150_above_50; assumption).
  unfold calculateVOC in Hr. rewrite Hlimit, Habove in Hr.
  destruct (default (lit 0) (VOCInput.ventilationRate input) > lit 0)%js;
    injection Hr as <-;
    cbn [VOCResult.regulatoryLimit VOCResult.recommendations negb];
    (split; [vm_compute; reflexivity | ]);
    (split; [exact Hlimit | ]);
    try match goal with
      | |- context [if ?b then _ else _] => destruct b
      end;
    unfold push; cbn [app]; cbn; auto.
Qed.

(** A coating of 250 g/L in a ventilated room. *)
Lemma calculateVOC_not_compliant_witness :
  exists r,
    calculateVOC (VOCInput.mk 10 250 1000 (Some 2000) None)%float = Ok r
    /\ VOCResult.regulatoryLimit r = 150%float
    /\ In "⚠️ VOC content exceeds regulatory limits"%string
         (VOCResult.recommendations r)
    /\ In "Consider using low-VOC alternatives (<50 g/L)"%string
         (VOCResult.recommendations r).
Proof.
  destruct (calculateVOC (VOCInput.mk 10 250 1000 (Some 2000) None)%float)
    as [r | e] eqn:Hr; [ | vm_compute in Hr; discriminate Hr].
  exists r. split; [reflexivity | ].
  assert (Hlimit : VOCResult.isCompliant r = false).
  { vm_compute in Hr. injection Hr as <-. reflexivity. }
  destruct (calculateVOC_not_compliant _ r Hr Hlimit) as (H1 & _ & H3 & H4).
  - vm_compute. reflexivity.
  - auto.
Defined.

(** ** Project cost *)

Section ProjectCostFacts.

Context {T : Type} `{JsNum T}.

Variable Number_toString : T -> string.

Variable inheritedRate : string -> string -> option T.

(** A rejected layer that is present with a coat count above zero makes the
    multi-coat calculation throw. *)
Lemma calculateMultiCoatSystem_rejected_layer (input : MultiCoatInput.t T)
    (k : LayerType.t) (layer : CoatingLayer.t T) :
  Layers.get (MultiCoatInput.system input) k = Some layer ->
  (CoatingLayer.coats layer > lit 0)%js = true ->
  rejectedLayer layer = true ->
  exists e, calculateMultiCoatSystem Number_toString input = Throw e.
Proof.
  intros Hk Hcoats Hlayer.
  rewrite calculateMultiCoatSystem_formulas.
  destruct (layerCoverage_rejects (MultiCoatInput.surfaceArea input)
              (default (lit 65) (MultiCoatInput.transferEfficiency input))
              layer Hlayer) as [e He].
  assert (Hincluded :
            includedLayer (MultiCoatInput.system input) k = Some layer).
  { unfold includedLayer. now rewrite Hk, Hcoats. }
  unfold multiCoatFormulas, includedLayers, layerOrder. cbn [flat_map].
  destruct k; rewrite Hincluded;
    repeat match goal with
      | |- context [match includedLayer ?s ?j with _ => _ end] =>
          destruct (includedLayer s j) as [? | ]
      end;
    cbn [app coverages bind];
    repeat match goal with
      | Hx : layerCoverage ?a ?f ?l = _
        |- context [layerCoverage ?a ?f ?l] => rewrite Hx; cbn [bind]
      | |- context [layerCoverage ?a ?f ?l] =>
          destruct (layerCoverage a f l) eqn:?; cbn [bind]
      end;
    eexists; reflexivity.
Qed.

(** The loop over the surfaces stops at the first one that throws. *)
Lemma mapWithState_throws {A B S : Type} (f : S -> A -> result (B * S))
    (l : list A) (a : A) :
  In a l ->
  (forall s, exists e, f s a = Throw e) ->
  forall s, exists e, mapWithState f l s = Throw e.
Proof.
  intros Hin Hthrows.
  induction l as [ | b rest IH]; [contradiction | ].
  intros s. cbn [mapWithState].
  destruct (f s b) as [[entry s'] | e] eqn:Hb; [ | eexists; reflexivity].
  cbn [bind snd].
  destruct Hin as [-> | Hin].
  - destruct (Hthrows s) as [e He]. congruence.
  - destruct (IH Hin s') as [e He]. rewrite He. eexists. reflexivity.
Qed.

(** X7.  [estimateProjectCost] throws, and so returns no estimate at all,
    as soon as one of its surfaces has a layer that is present with a coat
    count above zero and with volume solids or DFT that the coverage engine
    rejects. *)
Theorem estimateProjectCost_propagates (input : ProjectCostInput.t T)
    (surface : ProjectSurface.t T) (k : LayerType.t)
    (layer : CoatingLayer.t T) :
  In surface (ProjectCostInput.surfaces input) ->
  Layers.get (ProjectSurface.coatingSystem surface) k = Some layer ->
  (CoatingLayer.coats layer > lit 0)%js = true ->
  rejectedLayer layer = true ->
  exists e, estimateProjectCost Number_toString inheritedRate input = Throw e.
Proof.
  intros Hin Hk Hcoats Hlayer. unfold estimateProjectCost.
  destruct (mapWithState_throws
              (surfaceCost Number_toString inheritedRate
                 (ProjectCostInput.laborRate input)
                 (ProjectCostInput.crewSize input))
              (ProjectCostInput.surfaces input) surface Hin) with
    (s := {| ProjectTotals.totalMaterialCost := lit 0;
             ProjectTotals.totalLaborHours := lit 0;
             ProjectTotals.totalSurfaceArea := lit 0 |}) as [e He].
  - intros s. unfold surfaceCost.
    destruct (calculateMultiCoatSystem_rejected_layer
                {| MultiCoatInput.surfaceArea := ProjectSurface.area surface;
                   MultiCoatInput.system :=
                     ProjectSurface.coatingSystem surface;
                   MultiCoatInput.transferEfficiency :=
                     Some (or_number
                             (ProjectSurface.transferEfficiency surface)
                             (lit 65)) |} k layer Hk Hcoats Hlayer)
      as [e He].
    rewrite He. eexists. reflexivity.
  - rewrite He. eexists. reflexivity.
Qed.

(** The entries the loop returns follow the surfaces. *)
Lemma mapWithState_surfaceCost (laborRate crewSize : T)
    (surfaces : list (ProjectSurface.t T)) :
  forall (s s' : ProjectTotals.t T) (entries : list (SurfaceCost.t T)),
    mapWithState (surfaceCost Number_toString inheritedRate laborRate crewSize)
      surfaces s = Ok (entries, s') ->
    map SurfaceCost.description entries
    = map ProjectSurface.description surfaces
    /\ map SurfaceCost.area entries = map ProjectSurface.area surfaces.
Proof.
  induction surfaces as [ | surface rest IH]; intros s s' entries;
    cbn [mapWithState].
  - intros Hok. injection Hok as <- _. split; reflexivity.
  - unfold surfaceCost at 1.
    destruct (calculateMultiCoatSystem Number_toString _) as [materials | e];
      [ | discriminate].
    cbn [bind fst snd].
    destruct (mapWithState _ rest _) as [[entries' s''] | e] eqn:Hrest;
      [ | discriminate].
    cbn [bind fst snd]. intros Hok. injection Hok as <- _.
    destruct (IH _ _ _ Hrest) as [Hdescriptions Hareas].
    cbn [map SurfaceCost.description SurfaceCost.area].
    now rewrite Hdescriptions, Hareas.
Qed.

(** X8.  When [estimateProjectCost] returns, its breakdown has one entry
    per surface, in the order of the surfaces, each with its surface's
    description and area. *)
Theorem estimateProjectCost_breakdown (input : ProjectCostInput.t T)
    (r : ProjectCostResult.t T) :
  estimateProjectCost Number_toString inheritedRate input = Ok r ->
  map SurfaceCost.description (ProjectCostResult.breakdown r)
  = map ProjectSurface.description (ProjectCostInput.surfaces input)
  /\ map SurfaceCost.area (ProjectCostResult.breakdown r)
     = map ProjectSurface.area (ProjectCostInput.surfaces input)
  /\ List.length (ProjectCostResult.breakdown r)
     = List.length (ProjectCostInput.surfaces input).
Proof.
  unfold estimateProjectCost.
  destruct (mapWithState _ (ProjectCostInput.surfaces input) _)
    as [[entries s'] | e] eqn:Hmapped; [ | discriminate].
  cbn [bind fst snd]. intros Hok. injection Hok as <-.
  cbn [ProjectCostResult.breakdown].
  destruct (mapWithState_surfaceCost _ _ _ _ _ _ Hmapped)
    as [Hdescriptions Hareas].
  repeat split; try assumption.
  rewrite <- (length_map SurfaceCost.area), Hareas. apply length_map.
Qed.

End ProjectCostFacts.

(** The README's project with a ceiling topcoat of 155 percent volume
    solids. *)
Lemma estimateProjectCost_propagates_witness :
  exists e,
    estimateProjectCost NumberToString.Number_toString nothingInherited
      wallsAndBadCeiling = Throw e.
Proof.
  apply (estimateProjectCost_propagates NumberToString.Number_toString
           nothingInherited wallsAndBadCeiling
           (nth 1 (ProjectCostInput.surfaces wallsAndBadCeiling)
                  (ProjectSurface.mk EmptyString 0%float EmptyString
                     EmptyString None Layers.empty None))
           LayerType.topcoat
           (CoatingLayer.mk 155 4 2 (Some 38) None)%float).
  - right. left. reflexivity.
  - reflexivity.
  - vm_compute. reflexivity.
  - vm_compute. reflexivity.
Defined.

(** The README's project: two entries, walls first. *)
Lemma estimateProjectCost_breakdown_witness :
  exists r,
    estimateProjectCost NumberToString.Number_toString nothingInherited
      wallsAndCeiling = Ok r
    /\ map SurfaceCost.description (ProjectCostResult.breakdown r)
       = ["Interior Walls"%string; "Ceiling"%string]
    /\ List.length (ProjectCostResult.breakdown r) = 2%nat.
Proof.
  destruct (estimateProjectCost NumberToString.Number_toString
              nothingInherited wallsAndCeiling) as [r | e] eqn:Hr;
    [ | vm_compute in Hr; discriminate Hr].
  exists r. split; [reflexivity | ].
  destruct (estimateProjectCost_breakdown _ _ _ r Hr) as (Hd & _ & Hl).
  split; [exact Hd | exact Hl].
Defined.

Lemma zeroish_mul (x y : float) : zeroish x -> zeroish (x * y)%float.
Proof.
  intros Hx.
  pose proof (FloatAxioms.mul_spec x y) as Hmul.
  destruct Hx as [-> | [-> | ->]].
  - change (Prim2SF 0) with (S754_zero false) in Hmul.
    apply float_of_class in Hmul. rewrite Hmul.
    destruct (Prim2SF y) as [s | s | | s m e]; try destruct s; cbn;
      zeroish_case.
  - change (Prim2SF (-0)) with (S754_zero true) in Hmul.
    apply float_of_class in Hmul. rewrite Hmul.
    destruct (Prim2SF y) as [s | s | | s m e]; try destruct s; cbn;
      zeroish_case.
  - change (Prim2SF nan) with S754_nan in Hmul.
    apply float_of_class in Hmul. rewrite Hmul. cbn. zeroish_case.
Qed.

Lemma zeroish_add (x y : float) :
  zeroish x -> zeroish y -> zeroish (x + y)%float.
Proof.
  intros [-> | [-> | ->]] [-> | [-> | ->]]; vm_compute; zeroish_case.
Qed.

Lemma zeroish_over_zero (x : float) : zeroish x -> (x / 0)%float = nan.
Proof. intros [-> | [-> | ->]]; vm_compute; reflexivity. Qed.

(** X9.  In binary64, for a project with no surface, whatever the labor
    rate, crew size, overhead and profit, [estimateProjectCost] returns an
    empty breakdown, totals of zero for the area, the material and the
    labor hours, and a price per square foot that is [NaN]: the total is
    divided by a total area of zero. *)
Theorem estimateProjectCost_no_surfaces
    (Number_toString : float -> string)
    (inheritedRate : string -> string -> option float)
    (laborRate crewSize overheadPercent profitMargin : float) :
  exists r,
    estimateProjectCost Number_toString inheritedRate
      (noSurfaces laborRate crewSize overheadPercent profitMargin) = Ok r
    /\ ProjectCostResult.breakdown r = []
    /\ ProjectSummary.totalSurfaceArea (ProjectCostResult.summary r) = 0%float
    /\ ProjectSummary.materialCost (ProjectCostResult.summary r) = 0%float
    /\ ProjectSummary.laborHours (ProjectCostResult.summary r) = 0%float
    /\ ProjectSummary.pricePerSqFt (ProjectCostResult.summary r) = nan.
Proof.
  eexists. split; [reflexivity | ].
  cbn [ProjectCostResult.breakdown ProjectCostResult.summary
         ProjectSummary.totalSurfaceArea ProjectSummary.materialCost
         ProjectSummary.laborHours ProjectSummary.pricePerSqFt
         noSurfaces ProjectCostInput.surfaces ProjectCostInput.laborRate
         ProjectCostInput.crewSize ProjectCostInput.overheadPercent
         ProjectCostInput.profitMargin mapWithState fst snd
         ProjectTotals.totalMaterialCost ProjectTotals.totalLaborHours
         ProjectTotals.totalSurfaceArea].
  split; [reflexivity | ].
  split; [vm_compute; reflexivity | ].
  split; [vm_compute; reflexivity | ].
  split; [vm_compute; reflexivity | ].
  change (lit 0 : float) with 0%float.
  cbn [add mul div binary64].
  assert (Hzero : zeroish 0) by zeroish_case.
  assert (Hlabor : zeroish (0 * laborRate * crewSize)%float)
    by auto using zeroish_mul.
  assert (Hdirect : zeroish (0 + 0 * laborRate * crewSize)%float)
    by auto using zeroish_add.
  set (directCosts := (0 + 0 * laborRate * crewSize)%float) in *.
  assert (Hsubtotal :
            zeroish (directCosts + directCosts * (overheadPercent / lit 100))
                    %float)
    by auto using zeroish_add, zeroish_mul.
  set (subtotal :=
         (directCosts + directCosts * (overheadPercent / lit 100))%float) in *.
  assert (Htotal :
            zeroish (subtotal + subtotal * (profitMargin / lit 100))%float)
    by auto using zeroish_add, zeroish_mul.
  rewrite (zeroish_over_zero _ Htotal). vm_compute. reflexivity.
Qed.

(** X10.  In binary64, when the lookup goes to no prototype,
    [getProductionRate] returns a rate between 30 and 250 for every surface
    type and condition, so the labor hours never divide by zero; and a
    surface type outside the table gives 150. *)
Theorem getProductionRate_bounds
    (inheritedRate : string -> string -> option float)
    (surfaceType condition : string) :
  inheritedRate surfaceType condition = None ->
  ((30 <=? getProductionRate inheritedRate surfaceType condition)%float = true
   /\ (getProductionRate inheritedRate surfaceType condition <=? 250)%float
      = true)
  /\ (ownProperty surfaceType (productionRates (T := float)) = None ->
      getProductionRate inheritedRate surfaceType condition = 150%float).
Proof.
  intros Hnone. unfold getProductionRate. rewrite Hnone.
  unfold productionRates. cbn [ownProperty].
  destruct (String.eqb "walls" surfaceType);
    [ | destruct (String.eqb "ceilings" surfaceType);
        [ | destruct (String.eqb "floors" surfaceType);
            [ | destruct (String.eqb "trim" surfaceType) ] ] ];
    cbn [ownProperty];
    try (destruct (String.eqb "good" condition);
         [ | destruct (String.eqb "fair" condition);
             [ | destruct (String.eqb "poor" condition) ] ]);
    (split; [split; vm_compute; reflexivity | ]);
    first [ discriminate | intros _; vm_compute; reflexivity ].
Qed.

(** Walls in good condition, and a surface type the table does not have. *)
Lemma getProductionRate_bounds_witness :
  getProductionRate nothingInherited "walls" "good" = 200%float
  /\ getProductionRate nothingInherited "stairs" "good" = 150%float.
Proof.
  split; [vm_compute; reflexivity | ].
  apply (getProductionRate_bounds nothingInherited "stairs" "good");
    reflexivity.
Defined.

(** ** Surface area *)

(** Subtracting zero changes no double. *)
Lemma float_minus_zero (x : float) : (x - 0)%float = x.
Proof.
  apply Prim2SF_inj. rewrite FloatAxioms.sub_spec.
  change (Prim2SF 0) with (S754_zero false).
  destruct (Prim2SF x) as [s | s | | s m e]; try destruct s; reflexivity.
Qed.

(** X11.  In binary64, with no deductions (none given, or an empty list),
    [calculateSurfaceArea] reports a deduction area of 0, and its net area
    and square feet are the gross area, for every shape and dimensions. *)
Theorem calculateSurfaceArea_no_deductions (Math_PI : float)
    (Math_pow : float -> float -> float) (input : SurfaceAreaInput.t float) :
  default [] (SurfaceAreaInput.deductions input) = [] ->
  exists r,
    calculateSurfaceArea Math_PI Math_pow input = Ok r
    /\ SurfaceAreaResult.deductionArea r = 0%float
    /\ SurfaceAreaResult.netArea r = SurfaceAreaResult.grossArea r
    /\ Measurement.squareFeet (SurfaceAreaResult.measurement r)
       = SurfaceAreaResult.grossArea r.
Proof.
  intros Hnone. unfold calculateSurfaceArea. rewrite Hnone.
  eexists. split; [reflexivity | ].
  cbn [SurfaceAreaResult.deductionArea SurfaceAreaResult.netArea
         SurfaceAreaResult.grossArea SurfaceAreaResult.measurement
         Measurement.squareFeet deductionAreaOf fold_left].
  split; [vm_compute; reflexivity | ].
  change (sub ?g (lit 0)) with (g - 0)%float.
  rewrite float_minus_zero. split; reflexivity.
Qed.

(** A wall of 20 by 10 with no openings. *)
Lemma calculateSurfaceArea_no_deductions_witness :
  exists r,
    calculateSurfaceArea 3.141592653589793%float (fun x _ => (x * x)%float)
      {| SurfaceAreaInput.shape := Shape.rectangular;
         SurfaceAreaInput.dimensions :=
           Dimensions.mk (Some 20%float) (Some 10%float) None None None None
             None;
         SurfaceAreaInput.deductions := None |} = Ok r
    /\ SurfaceAreaResult.deductionArea r = 0%float
    /\ SurfaceAreaResult.netArea r = SurfaceAreaResult.grossArea r
    /\ Measurement.squareFeet (SurfaceAreaResult.measurement r)
       = SurfaceAreaResult.grossArea r.
Proof.
  apply calculateSurfaceArea_no_deductions. reflexivity.
Defined.

(** X12.  In binary64, a cylinder or a sphere with neither a truthy radius
    nor a truthy diameter, and a cylinder with no truthy height, have a
    gross area of 0: missing or zero dimensions are no error. *)
Theorem calculateSurfaceArea_missing_dimensions (Math_PI : float)
    (Math_pow : float -> float -> float) (input : SurfaceAreaInput.t float) :
  (SurfaceAreaInput.shape input = Shape.cylindrical
   /\ truthyProperty (Dimensions.height (SurfaceAreaInput.dimensions input))
      = false)
  \/ ((SurfaceAreaInput.shape input = Shape.cylindrical
       \/ SurfaceAreaInput.shape input = Shape.spherical)
      /\ truthyProperty (Dimensions.radius (SurfaceAreaInput.dimensions input))
         = false
      /\ truthyProperty
           (Dimensions.diameter (SurfaceAreaInput.dimensions input))
         = false) ->
  exists r,
    calculateSurfaceArea Math_PI Math_pow input = Ok r
    /\ SurfaceAreaResult.grossArea r = 0%float.
Proof.
  intros Hmissing. eexists. split; [reflexivity | ].
  cbn [SurfaceAreaResult.grossArea].
  assert (Hgross : grossAreaOf Math_PI Math_pow (SurfaceAreaInput.shape input)
                     (SurfaceAreaInput.dimensions input) = lit 0).
  { unfold grossAreaOf.
    destruct Hmissing as [[-> Hheight] | [[-> | ->] [Hradius Hdiameter]]].
    - rewrite Hheight, !andb_false_r. reflexivity.
    - rewrite Hradius, Hdiameter. reflexivity.
    - rewrite Hradius, Hdiameter. reflexivity. }
  rewrite Hgross. vm_compute. reflexivity.
Qed.

(** A cylinder given by its height alone. *)
Lemma calculateSurfaceArea_missing_dimensions_witness :
  exists r,
    calculateSurfaceArea 3.141592653589793%float (fun x _ => (x * x)%float)
      {| SurfaceAreaInput.shape := Shape.cylindrical;
         SurfaceAreaInput.dimensions :=
           Dimensions.mk None None (Some 12%float) None None None None;
         SurfaceAreaInput.deductions := None |} = Ok r
    /\ SurfaceAreaResult.grossArea r = 0%float.
Proof.
  apply calculateSurfaceArea_missing_dimensions.
  right. split; [left; reflexivity | split; reflexivity].
Defined.

(** ** Technical helpers *)

(** *** Mix ratio *)

Lemma split_without_separator (separator : ascii) (s : string) :
  occurs separator s = false -> split separator s = [s].
Proof.
  induction s as [ | c rest IH]; cbn [occurs split]; [reflexivity | ].
  intros Hnone. apply orb_false_elim in Hnone as [Hc Hrest].
  rewrite Hc, (IH Hrest). reflexivity.
Qed.

(** A product with [NaN] is [NaN], and so is a quotient of [NaN]. *)
Lemma mul_nan (x : float) : (x * nan)%float = nan.
Proof.
  pose proof (FloatAxioms.mul_spec x nan) as Hmul.
  change (Prim2SF nan) with S754_nan in Hmul.
  apply float_of_class in Hmul. rewrite Hmul.
  destruct (Prim2SF x); reflexivity.
Qed.

Lemma nan_div (y : float) : (nan / y)%float = nan.
Proof.
  pose proof (FloatAxioms.div_spec nan y) as Hdiv.
  change (Prim2SF nan) with S754_nan in Hdiv.
  apply float_of_class in Hdiv. rewrite Hdiv. reflexivity.
Qed.

(** X19.  In binary64, for a ratio without a colon, [calculateMixRatio]
    returns [NaN] for part B and no part C, whatever [Number] makes of the
    ratio: the missing part is no error. *)
Theorem calculateMixRatio_without_colon (Number_of_string : string -> float)
    (totalVolume : float) (ratio : string) :
  occurs ":" ratio = false ->
  exists r,
    calculateMixRatio Number_of_string nan totalVolume ratio = Ok r
    /\ MixResult.partB r = nan
    /\ MixResult.partC r = None.
Proof.
  intros Hnone. unfold calculateMixRatio.
  rewrite (split_without_separator _ _ Hnone).
  eexists. split; [reflexivity | ].
  cbn [MixResult.partB MixResult.partC map fold_left part nth_error
         truthyProperty].
  split; [ | reflexivity].
  change (mul totalVolume nan) with (totalVolume * nan)%float.
  rewrite mul_nan.
  change (div nan ?y) with (nan / y)%float.
  rewrite nan_div. vm_compute. reflexivity.
Qed.

(** A ratio written as one number. *)
Lemma calculateMixRatio_without_colon_witness :
  exists r,
    calculateMixRatio (fun _ => 4%float) nan 5%float "4" = Ok r
    /\ MixResult.partB r = nan
    /\ MixResult.partC r = None.
Proof.
  apply calculateMixRatio_without_colon. reflexivity.
Defined.

(** ** A system without layers *)

(** X22.  In binary64, when no layer of the system is present with a coat
    count above zero, [calculateMultiCoatSystem] throws nothing, whatever
    the surface area (zero and negative areas among them): it returns no
    layer, totals of 0 and an empty description. *)
Theorem calculateMultiCoatSystem_no_layers
    (Number_toString : float -> string) (input : MultiCoatInput.t float) :
  (forall k, includedLayer (MultiCoatInput.system input) k = None) ->
  exists r,
    calculateMultiCoatSystem Number_toString input = Ok r
    /\ MultiCoatResult.layers r = Layers.empty
    /\ MultiCoatSummary.totalDFT (MultiCoatResult.summary r) = 0%float
    /\ MultiCoatSummary.totalCost (MultiCoatResult.summary r) = 0%float
    /\ MultiCoatSummary.totalGallons (MultiCoatResult.summary r) = 0%float
    /\ MultiCoatSummary.systemDescription (MultiCoatResult.summary r)
       = EmptyString.
Proof.
  intros Hnone. unfold calculateMultiCoatSystem. cbn [forEach].
  rewrite processLayer_included, (Hnone LayerType.primer). cbn [bind].
  rewrite processLayer_included, (Hnone LayerType.intermediate). cbn [bind].
  rewrite processLayer_included, (Hnone LayerType.topcoat). cbn [bind].
  eexists. split; [reflexivity | ].
  repeat split; vm_compute; reflexivity.
Qed.

(** A system of no layers on an area of minus five square feet. *)
Lemma calculateMultiCoatSystem_no_layers_witness :
  exists r,
    calculateMultiCoatSystem NumberToString.Number_toString
      {| MultiCoatInput.surfaceArea := (-5)%float;
         MultiCoatInput.system := Layers.empty;
         MultiCoatInput.transferEfficiency := None |} = Ok r
    /\ MultiCoatResult.layers r = Layers.empty
    /\ MultiCoatSummary.totalDFT (MultiCoatResult.summary r) = 0%float
    /\ MultiCoatSummary.totalCost (MultiCoatResult.summary r) = 0%float
    /\ MultiCoatSummary.totalGallons (MultiCoatResult.summary r) = 0%float
    /\ MultiCoatSummary.systemDescription (MultiCoatResult.summary r)
       = EmptyString.
Proof.
  apply calculateMultiCoatSystem_no_layers. intros k. destruct k; reflexivity.
Defined.

(** ** Labour cost *)

(** X24.  In binary64, for a labour rate and a production rate that are
    positive and finite (the default of 150 when no production rate is
    given), the labour cost does not decrease when an area that is not
    negative grows, and it is not negative. *)
Theorem calculateLaborCost_monotone (area area' laborRate : float)
    (productionRate : option float) :
  (lit 0 <= area)%js = true -> (area <= area')%js = true ->
  (lit 0 < laborRate)%js = true -> (laborRate <? infinity)%float = true ->
  (lit 0 < default (lit 150) productionRate)%js = true ->
  (default (lit 150) productionRate <? infinity)%float = true ->
  (calculateLaborCost area laborRate productionRate
   <= calculateLaborCost area' laborRate productionRate)%js = true
  /\ (lit 0 <= calculateLaborCost area laborRate productionRate)%js = true.
Proof.
  intros Harea Hareas Hrate Hrate' Hproduction Hproduction'.
  pose proof (between_zero_and_infinity _ Hrate Hrate') as Hl.
  pose proof (between_zero_and_infinity _ Hproduction Hproduction') as Hp.
  pose proof (leb_ordered area area' (zero_leb_not_negative area Harea) Hareas)
    as Hordered.
  unfold calculateLaborCost.
  set (p := default (lit 150) productionRate) in *.
  assert (Hcost : ordered (round2 (area / p * laborRate)%js)
                    (round2 (area' / p * laborRate)%js)).
  { apply round2_ordered, mul_ordered; [ | exact Hl].
    apply div_ordered; [exact Hordered | exact Hp]. }
  split.
  - apply ordered_leb. exact Hcost.
  - destruct Hcost as (Hnn & _ & _).
    apply leb_values; [apply (zero_not_negative _ false), lit_0 | exact Hnn | ].
    rewrite (zero_value _ false lit_0). now apply not_negative_value.
Qed.

(** 300 and 450 square feet at 40 an hour and the default rate. *)
Lemma calculateLaborCost_monotone_witness :
  (calculateLaborCost 300 40 None <= calculateLaborCost 450 40 None)%js = true
  /\ (lit 0 <= calculateLaborCost 300 40 None)%js = true.
Proof.
  apply (calculateLaborCost_monotone 300 450 40 None); vm_compute; reflexivity.
Defined.

(** ** Wet film thickness *)

Lemma round1_gauges :
  round1 (lit 25 : float) = lit 25 /\ round1 (lit 50 : float) = lit 50
  /\ round1 (lit 100 : float) = lit 100.
Proof. repeat split; vm_compute; reflexivity. Qed.

Lemma gauge_bounds :
  positive_finite (lit 25 : float) /\ positive_finite (lit 50 : float)
  /\ positive_finite (lit 100 : float).
Proof. repeat split; eexists; eexists; vm_compute; reflexivity. Qed.

Lemma leb_false_ordered (x b : float) :
  not_negative x -> positive_finite b -> (x <=? b)%float = false ->
  ordered b x.
Proof.
  intros Hx Hb Hle. pose proof (positive_finite_not_negative b Hb) as Hb'.
  split; [exact Hb' | ]. split; [exact Hx | ].
  destruct (Qlt_le_dec (to_Q x) (to_Q b)) as [Hlt | Hge]; [ | exact Hge].
  assert (H : (x <=? b)%float = true) by (apply leb_values; auto; lra).
  congruence.
Qed.

(** X25.  In binary64, when the wet film thickness before rounding is not
    negative, the gauge [calculateWFT] names covers the thickness it
    returns: at most 25 for the 0-25 gauge, from 25 to 50 for the 0-50
    gauge, from 50 to 100 for the 0-100 gauge and at least 100 otherwise;
    and the last tip names that gauge. *)
Theorem calculateWFT_gauge (Number_toString : float -> string)
    (input : WFTInput.t float) :
  (lit 0 <= WFTInput.targetDFT input
            / (WFTInput.volumeSolids input
               * (lit 1 - default (lit 0) (WFTInput.reductionPercent input)
                          / lit 100))
            * lit 100)%js = true ->
  exists r,
    calculateWFT Number_toString input = Ok r
    /\ ((WFTResult.wetFilmGauge r = "0-25 mil gauge"%string
         /\ (WFTResult.wetFilmThickness r <= lit 25)%js = true)
        \/ (WFTResult.wetFilmGauge r = "0-50 mil gauge"%string
            /\ (lit 25 <= WFTResult.wetFilmThickness r)%js = true
            /\ (WFTResult.wetFilmThickness r <= lit 50)%js = true)
        \/ (WFTResult.wetFilmGauge r = "0-100 mil gauge"%string
            /\ (lit 50 <= WFTResult.wetFilmThickness r)%js = true
            /\ (WFTResult.wetFilmThickness r <= lit 100)%js = true)
        \/ (WFTResult.wetFilmGauge r
            = "Use multiple passes or special gauge"%string
            /\ (lit 100 <= WFTResult.wetFilmThickness r)%js = true))
    /\ exists tips,
         WFTResult.applicationTips r
         = tips ++ [("Check WFT immediately after application using "
                     ++ WFTResult.wetFilmGauge r)%string].
Proof.
  unfold calculateWFT.
  set (wet := (WFTInput.targetDFT input
               / (WFTInput.volumeSolids input
                  * (lit 1 - default (lit 0) (WFTInput.reductionPercent input)
                             / lit 100))
               * lit 100)%js).
  intros Hwet. apply zero_leb_not_negative in Hwet.
  eexists. split; [reflexivity | ].
  cbn [WFTResult.wetFilmGauge WFTResult.wetFilmThickness
         WFTResult.applicationTips].
  fold (round1 wet). unfold push.
  split; [ | eexists; reflexivity].
  destruct round1_gauges as (R25 & R50 & R100).
  destruct gauge_bounds as (B25 & B50 & B100).
  assert (Hup : forall b : float,
             positive_finite b -> round1 b = b -> (wet <= b)%js = true ->
             (round1 wet <= b)%js = true).
  { intros b Hb Hr Hle. rewrite <- Hr. apply ordered_leb, round1_ordered.
    now apply leb_ordered. }
  assert (Hdown : forall b : float,
             positive_finite b -> round1 b = b -> (wet <= b)%js = false ->
             (b <= round1 wet)%js = true).
  { intros b Hb Hr Hle. rewrite <- Hr at 1. apply ordered_leb, round1_ordered.
    now apply leb_false_ordered. }
  destruct (wet <= lit 25)%js eqn:H25.
  { left. split; [reflexivity | now apply Hup]. }
  destruct (wet <= lit 50)%js eqn:H50.
  { right. left. split; [reflexivity | ]. split; [now apply Hdown | now apply Hup]. }
  destruct (wet <= lit 100)%js eqn:H100.
  { right. right. left. split; [reflexivity | ].
    split; [now apply Hdown | now apply Hup]. }
  right. right. right. split; [reflexivity | now apply Hdown].
Qed.

(** A wet film of 7.7 mils: 5 mils dry at 65 percent volume solids. *)
Lemma calculateWFT_gauge_witness :
  exists r,
    calculateWFT NumberToString.Number_toString
      (WFTInput.mk 5%float 65%float None) = Ok r
    /\ ((WFTResult.wetFilmGauge r = "0-25 mil gauge"%string
         /\ (WFTResult.wetFilmThickness r <= lit 25)%js = true)
        \/ (WFTResult.wetFilmGauge r = "0-50 mil gauge"%string
            /\ (lit 25 <= WFTResult.wetFilmThickness r)%js = true
            /\ (WFTResult.wetFilmThickness r <= lit 50)%js = true)
        \/ (WFTResult.wetFilmGauge r = "0-100 mil gauge"%string
            /\ (lit 50 <= WFTResult.wetFilmThickness r)%js = true
            /\ (WFTResult.wetFilmThickness r <= lit 100)%js = true)
        \/ (WFTResult.wetFilmGauge r
            = "Use multiple passes or special gauge"%string
            /\ (lit 100 <= WFTResult.wetFilmThickness r)%js = true))
    /\ exists tips,
         WFTResult.applicationTips r
         = tips ++ [("Check WFT immediately after application using "
                     ++ WFTResult.wetFilmGauge r)%string].
Proof.
  apply (calculateWFT_gauge NumberToString.Number_toString
           (WFTInput.mk 5%float 65%float None)).
  vm_compute. reflexivity.
Defined.

(** ** The coverage engine: a larger area, and no price *)

Lemma positive_or_infinite_gtb (x : float) :
  positive_or_infinite x -> (x > lit 0)%js = true.
Proof.
  intros [Hpf | Hinf]; [now apply positive_finite_gtb | ].
  change (x > lit 0)%js with (lit 0 <? x)%float.
  now rewrite FloatAxioms.ltb_spec, lit_0, Hinf.
Qed.

Lemma positive_or_infinite_above (x x' : float) :
  positive_or_infinite x -> (x <=? x')%float = true ->
  positive_or_infinite x' /\ ordered x x'.
Proof.
  intros Hx Hle.
  assert (Hnn : not_negative x).
  { destruct Hx as [Hpf | Hinf];
      [now apply positive_finite_not_negative
      | now apply infinite_not_negative]. }
  pose proof (leb_ordered x x' Hnn Hle) as Hordered.
  split; [ | exact Hordered].
  destruct Hx as [Hpf | Hinf].
  - exact (positive_above x x' Hordered Hpf).
  - right. exact (infinite_above x x' Hordered Hinf).
Qed.

(** X27.  In binary64, for a valid input whose practical coverage and coat
    count are positive and finite, a larger surface area leaves the two
    coverage rates as they are and never lowers the total with waste or
    either container count. *)
Theorem calculatePaintCoverage_monotone_area (input : CoverageInput.t float)
    (area' : float) :
  validCoverageInput input = true ->
  (lit 0 < CoverageFormulas.practicalCoverage (coverageFormulas input))%js
  = true ->
  (CoverageFormulas.practicalCoverage (coverageFormulas input)
   <? infinity)%float = true ->
  (lit 0 < default (lit 1) (CoverageInput.coats input))%js = true ->
  (default (lit 1) (CoverageInput.coats input) <? infinity)%float = true ->
  (CoverageInput.surfaceArea input <= area')%js = true ->
  exists r r',
    calculatePaintCoverage input = Ok r
    /\ calculatePaintCoverage (withArea input area') = Ok r'
    /\ CoverageResult.theoreticalCoverage r'
       = CoverageResult.theoreticalCoverage r
    /\ CoverageResult.practicalCoverage r'
       = CoverageResult.practicalCoverage r
    /\ (CoverageResult.totalWithWaste r <= CoverageResult.totalWithWaste r')%js
       = true
    /\ (CoverageResult.fiveGallonBuckets r
        <= CoverageResult.fiveGallonBuckets r')%js = true
    /\ (CoverageResult.oneGallonCans r <= CoverageResult.oneGallonCans r')%js
       = true.
Proof.
  intros Hvalid Hpractical Hpractical' Hcoats Hcoats' Hareas.
  pose proof (between_zero_and_infinity _ Hpractical Hpractical') as Hp.
  pose proof (between_zero_and_infinity _ Hcoats Hcoats') as Hc.
  assert (Harea : positive_or_infinite (CoverageInput.surfaceArea input)).
  { apply ltb_positive. unfold validCoverageInput in Hvalid.
    apply andb_prop in Hvalid as [Hvalid _].
    apply andb_prop in Hvalid as [Hvalid _].
    now apply andb_prop in Hvalid as [Hvalid _]. }
  destruct (positive_or_infinite_above _ area' Harea Hareas)
    as [Harea' Hordered].
  assert (Hvalid' : validCoverageInput (withArea input area') = true).
  { revert Hvalid. unfold validCoverageInput, withArea.
    cbn [CoverageInput.surfaceArea CoverageInput.volumeSolids
           CoverageInput.targetDFT].
    intros Hvalid.
    apply andb_prop in Hvalid as [Hvalid Hdft].
    apply andb_prop in Hvalid as [Hvalid Hmax].
    apply andb_prop in Hvalid as [_ Hmin].
    rewrite Hdft, Hmax, Hmin, !andb_true_r.
    now apply positive_or_infinite_gtb. }
  exists (roundedCoverage (coverageFormulas input)).
  exists (roundedCoverage (coverageFormulas (withArea input area'))).
  split; [now apply calculatePaintCoverage_valid | ].
  split; [now apply calculatePaintCoverage_valid | ].
  unfold roundedCoverage, coverageFormulas, withArea in *.
  cbn [CoverageResult.theoreticalCoverage CoverageResult.practicalCoverage
         CoverageResult.totalWithWaste CoverageResult.fiveGallonBuckets
         CoverageResult.oneGallonCans
         CoverageFormulas.theoreticalCoverage
         CoverageFormulas.practicalCoverage CoverageFormulas.totalWithWaste
         CoverageInput.surfaceArea CoverageInput.coats
         CoverageInput.volumeSolids CoverageInput.targetDFT
         CoverageInput.transferEfficiency CoverageInput.pricePerGallon] in *.
  split; [reflexivity | ]. split; [reflexivity | ].
  set (coats := default (lit 1) (CoverageInput.coats input)) in *.
  set (practical := (lit 1604 * CoverageInput.volumeSolids input / lit 100
                     / CoverageInput.targetDFT input
                     * (default (lit 65) (CoverageInput.transferEfficiency input)
                        / lit 100))%js) in *.
  assert (Htotal : ordered (CoverageInput.surfaceArea input / practical * coats)%js
                     (area' / practical * coats)%js).
  { apply mul_ordered; [ | exact Hc]. now apply div_ordered. }
  assert (Hwaste : ordered
                     (CoverageInput.surfaceArea input / practical * coats
                      + CoverageInput.surfaceArea input / practical * coats
                        * lit 0.1)%js
                     (area' / practical * coats
                      + area' / practical * coats * lit 0.1)%js).
  { apply add_ordered; [exact Htotal | ].
    apply mul_ordered; [exact Htotal | apply lit_tenth]. }
  repeat split.
  - apply ordered_leb. now apply ceil1_ordered.
  - apply ordered_leb, ceil_ordered. apply div_ordered; [exact Hwaste | apply lit_5].
  - apply ordered_leb. now apply ceil_ordered.
Qed.

(** The sample input, at 1000 and at 1500 square feet. *)
Lemma calculatePaintCoverage_monotone_area_witness :
  exists r r',
    calculatePaintCoverage (sampleCoverage : CoverageInput.t float) = Ok r
    /\ calculatePaintCoverage (withArea sampleCoverage 1500%float) = Ok r'
    /\ CoverageResult.theoreticalCoverage r'
       = CoverageResult.theoreticalCoverage r
    /\ CoverageResult.practicalCoverage r'
       = CoverageResult.practicalCoverage r
    /\ (CoverageResult.totalWithWaste r <= CoverageResult.totalWithWaste r')%js
       = true
    /\ (CoverageResult.fiveGallonBuckets r
        <= CoverageResult.fiveGallonBuckets r')%js = true
    /\ (CoverageResult.oneGallonCans r <= CoverageResult.oneGallonCans r')%js
       = true.
Proof.
  apply (calculatePaintCoverage_monotone_area sampleCoverage 1500);
    vm_compute; reflexivity.
Defined.

(** X5.  In binary64, an input the guards accept whose price per gallon
    is absent or not above zero has an estimated cost of 0. *)
Theorem calculatePaintCoverage_without_price (input : CoverageInput.t float) :
  rejectedCoverageInput input = false ->
  (default (lit 0) (CoverageInput.pricePerGallon input) > lit 0)%js = false ->
  exists r,
    calculatePaintCoverage input = Ok r
    /\ CoverageResult.estimatedCost r = 0%float.
Proof.
  intros Haccepted Hprice.
  rewrite (calculatePaintCoverage_accepts input Haccepted).
  eexists. split; [reflexivity | ].
  unfold roundedCoverage, coverageFormulas.
  cbn [CoverageResult.estimatedCost CoverageFormulas.estimatedCost].
  rewrite Hprice. vm_compute. reflexivity.
Qed.

(** A thousand square feet and no price. *)
Lemma calculatePaintCoverage_without_price_witness :
  exists r,
    calculatePaintCoverage
      {| CoverageInput.surfaceArea := 1000%float;
         CoverageInput.coats := None;
         CoverageInput.volumeSolids := 65%float;
         CoverageInput.targetDFT := 5%float;
         CoverageInput.transferEfficiency := None;
         CoverageInput.pricePerGallon := None |} = Ok r
    /\ CoverageResult.estimatedCost r = 0%float.
Proof.
  apply calculatePaintCoverage_without_price; vm_compute; reflexivity.
Defined.
